(** * Lua dependency resolution and bundling (utils/lua_dependency.py)

    A shallow embedding of the module that scans a tree of Lua sources for
    [require] declarations, walks the resulting dependency index, extracts
    function blocks with regular expressions and writes a bundle.

    Python values are modelled as follows.
    - [str] is a list of characters; a character is a code point below 256
      (the type [ascii]), and the classes [\w] and [\s] are the ones Python
      uses for [str] patterns restricted to that range.
    - A [dict] is an insertion-ordered association list with unique keys.
    - The file system is a finite map from paths to contents together with a
      set of directory paths; paths are compared as plain strings, one string
      for each file.  The content of a file is its text, decoded from UTF-8;
      reading gives the content as it is, which is what [open] does for a
      text without carriage return.  Where nothing can be read at a path,
      [read_lua_file] raises; the model tells a directory from a missing
      file and no more than that.  Writing takes the directory that is to
      hold the file to exist.
    - Exceptions, file-system updates and printed lines are threaded through a
      state-and-exception monad; the only loop that may run forever (the queue
      walk of [extract_dependencies]) takes explicit fuel. *)

From Stdlib Require Import Ascii String.
From stdpp Require Import base list gmap strings pretty relations finite.

Abbreviation str := (list ascii).
Coercion list_ascii_of_string : string >-> list.

(** ** Characters *)

Definition nl : ascii := "010"%char.
Definition dot : ascii := "."%char.
Definition dquote : ascii := "034"%char.
Definition squote : ascii := "039"%char.

Definition code (c : ascii) : N := N_of_ascii c.

Definition between (lo hi : N) (c : ascii) : bool :=
  (lo <=? code c)%N && (code c <=? hi)%N.

(** [\w] (equivalently [[\w_]]): alphanumeric code points and the underscore. *)
Definition is_word (c : ascii) : bool :=
  between 48 57 c || between 65 90 c || between 95 95 c || between 97 122 c
  || between 170 170 c || between 178 179 c || between 181 181 c
  || between 185 186 c || between 188 190 c || between 192 214 c
  || between 216 246 c || between 248 255 c.

(** [\s], which is also the set removed by [str.rstrip()]. *)
Definition is_space (c : ascii) : bool :=
  between 9 13 c || between 28 32 c || between 133 133 c || between 160 160 c.

Definition is_nl (c : ascii) : bool := bool_decide (c = nl).
Definition is_dot (c : ascii) : bool := bool_decide (c = dot).
Definition is_quote (c : ascii) : bool :=
  bool_decide (c = dquote) || bool_decide (c = squote).
Definition is_word_or_dot (c : ascii) : bool := is_word c || is_dot c.
Definition any_char (c : ascii) : bool := true.

(** ** Python string methods *)

Module Py.

(** [s.startswith(l)], returning what follows the prefix. *)
Fixpoint strip_prefix (l s : str) : option str :=
  match l with
  | [] => Some s
  | a :: l' =>
      match s with
      | [] => None
      | b :: s' => if bool_decide (a = b) then strip_prefix l' s' else None
      end
  end.

(** [l in s] for strings. *)
Fixpoint contains (l s : str) : bool :=
  match strip_prefix l s with
  | Some _ => true
  | None => match s with [] => false | _ :: s' => contains l s' end
  end.

(** [s.endswith(l)]. *)
Definition endswith (l s : str) : bool :=
  bool_decide (drop (length s - length l) s = l).

(** [s.split(sep)] for a one-character separator: never empty, and empty
    segments are kept. *)
Fixpoint split (sep : ascii) (s : str) : list str :=
  match s with
  | [] => [[]]
  | c :: s' =>
      if bool_decide (c = sep) then [] :: split sep s'
      else match split sep s' with
           | seg :: segs => (c :: seg) :: segs
           | [] => [[c]]
           end
  end.

(** [s.replace(old, new)] for a non-empty [old]: occurrences are replaced
    from left to right without overlap.  [skip] counts the characters of an
    occurrence that are still to be passed over. *)
Fixpoint replace_from (old new : str) (skip : nat) (s : str) : str :=
  match s with
  | [] => []
  | c :: s' =>
      match skip with
      | S n => replace_from old new n s'
      | 0 =>
          match strip_prefix old s with
          | Some _ => new ++ replace_from old new (pred (length old)) s'
          | None => c :: replace_from old new 0 s'
          end
      end
  end.

(** With an empty [old], Python inserts [new] before every character and at
    the end. *)
Definition replace (old new s : str) : str :=
  match old with
  | [] => new ++ mjoin ((λ c, c :: new) <$> s)
  | _ => replace_from old new 0 s
  end.

(** [s.rstrip()]. *)
Fixpoint rstrip (s : str) : str :=
  match s with
  | [] => []
  | c :: s' =>
      match rstrip s' with
      | [] => if is_space c then [] else [c]
      | r => c :: r
      end
  end.

(** [os.path.join(root, name)] on a POSIX system. *)
Definition path_join (root name : str) : str :=
  match name with
  | "/"%char :: _ => name
  | _ =>
      match last root with
      | None => name
      | Some c => if bool_decide (c = "/"%char) then root ++ name
                  else root ++ "/" ++ name
      end
  end.

End Py.

(** ** Regular expressions

    The patterns of the module only use literals, single character classes,
    greedy and lazy repetitions of a character class, and the anchors [^] and
    [$] under [re.MULTILINE].  A pattern is a sequence of such atoms, matched
    by backtracking in the order Python tries the alternatives: a greedy
    repetition takes as many characters as it can and gives them back one at
    a time, a lazy one takes as few as it can and grows one at a time. *)

Module Re.

Inductive atom :=
| Lit (l : str)                                   (* text, as after [re.escape] *)
| One (c : ascii → bool)                          (* one character of a class *)
| Rep (c : ascii → bool) (min : nat) (greedy : bool) (* [c*], [c+], [c*?] *)
| Bol                                              (* [^] *)
| Eol.                                             (* [$] *)

Definition pattern := list atom.

(** A successful match: the text consumed by each atom, in order, and the
    text that follows the match. *)
Definition found := (list str * str)%type.

Definition push (chunk : str) (r : option found) : option found :=
  match r with
  | Some (chunks, rest) => Some (chunk :: chunks, rest)
  | None => None
  end.

Definition grow (x : ascii) (r : option found) : option found :=
  match r with
  | Some (chunk :: chunks, rest) => Some ((x :: chunk) :: chunks, rest)
  | _ => None
  end.

(** Is the position after [l] at the start of a line, when the position
    before it was or was not ([bol])? *)
Definition bol_after (bol : bool) (l : str) : bool :=
  match last l with
  | Some c => is_nl c
  | None => bol
  end.

(** [$] under [re.MULTILINE]: at the end of the text or before a newline. *)
Definition at_eol (s : str) : bool :=
  match s with
  | [] => true
  | c :: _ => is_nl c
  end.

Definition stop (k : bool → str → option found) (min : nat) (bol : bool)
    (s : str) : option found :=
  match min with
  | 0 => push [] (k bol s)
  | S _ => None
  end.

(** A repetition followed by the rest of the pattern [k]. *)
Fixpoint rep (c : ascii → bool) (greedy : bool)
    (k : bool → str → option found) (min : nat) (bol : bool) (s : str)
    {struct s} : option found :=
  match s with
  | x :: s' =>
      if c x then
        if greedy then
          match grow x (rep c greedy k (pred min) (is_nl x) s') with
          | Some r => Some r
          | None => stop k min bol s
          end
        else
          match stop k min bol s with
          | Some r => Some r
          | None => grow x (rep c greedy k (pred min) (is_nl x) s')
          end
      else stop k min bol s
  | [] => stop k min bol s
  end.

(** Match a pattern at the current position. *)
Fixpoint match_here (p : pattern) : bool → str → option found :=
  match p with
  | [] => λ _ s, Some ([], s)
  | a :: p' =>
      let k := match_here p' in
      match a with
      | Lit l => λ bol s,
          match Py.strip_prefix l s with
          | Some s' => push l (k (bol_after bol l) s')
          | None => None
          end
      | One c => λ bol s,
          match s with
          | x :: s' => if c x then push [x] (k (is_nl x) s') else None
          | [] => None
          end
      | Rep c min greedy => rep c greedy k min
      | Bol => λ bol s, if bol then push [] (k bol s) else None
      | Eol => λ bol s, if at_eol s then push [] (k bol s) else None
      end
  end.

(** [re.search]: the match at the leftmost position that has one. *)
Fixpoint search_from (p : pattern) (bol : bool) (s : str) : option found :=
  match match_here p bol s with
  | Some r => Some r
  | None =>
      match s with
      | [] => None
      | x :: s' => search_from p (is_nl x) s'
      end
  end.

Definition search (p : pattern) (s : str) : option found :=
  search_from p true s.

(** [m.group(0)]. *)
Definition group0 (r : found) : str := mjoin r.1.

(** The text of the atom at position [i] of the pattern, for a group that
    encloses exactly that atom. *)
Definition chunk (i : nat) (r : found) : str := default [] (r.1 !! i).

(** [re.findall]: successive matches from left to right, each search
    resuming where the previous match ended.  [skip] counts the characters
    of the last match that are still to be passed over.  (After an empty
    match Python retries the same position for a non-empty one; no pattern
    of this module matches the empty text.) *)
Fixpoint findall_from (p : pattern) (skip : nat) (bol : bool) (s : str)
    : list found :=
  match skip with
  | S n =>
      match s with
      | [] => []
      | x :: s' => findall_from p n (is_nl x) s'
      end
  | 0 =>
      match match_here p bol s with
      | Some r =>
          r :: match s with
               | [] => []
               | x :: s' =>
                   findall_from p (pred (length (group0 r))) (is_nl x) s'
               end
      | None =>
          match s with
          | [] => []
          | x :: s' => findall_from p 0 (is_nl x) s'
          end
      end
  end.

Definition findall (p : pattern) (s : str) : list found :=
  findall_from p 0 true s.

End Re.

(** ** The scanners *)

(** [rf'{re.escape(module_name)}\.[\w_]+'] *)
Definition references_pattern (module_name : str) : Re.pattern :=
  [Re.Lit module_name; Re.Lit "."; Re.Rep is_word 1 true].

Definition find_references (lua_code module_name : str) : list str :=
  Re.group0 <$> Re.findall (references_pattern module_name) lua_code.

(** [r'local\s+(\w+)\s*=\s*require\s*["\']([\w\.]+)["\']'] *)
Definition requirements_pattern : Re.pattern :=
  [Re.Lit "local"; Re.Rep is_space 1 true; Re.Rep is_word 1 true;
   Re.Rep is_space 0 true; Re.Lit "="; Re.Rep is_space 0 true;
   Re.Lit "require"; Re.Rep is_space 0 true; Re.One is_quote;
   Re.Rep is_word_or_dot 1 true; Re.One is_quote].

(** The two groups are the atoms at positions 2 and 9. *)
Definition extract_local_requirements (lua_code : str) : list (str * str) :=
  (λ r, (Re.chunk 2 r, Re.chunk 9 r)) <$> Re.findall requirements_pattern lua_code.

(** [rf"{re.escape(function_name)}\s*=\s*function\s*\(.*?\)\s*\n(.*?)^end\s*$"],
    with [re.MULTILINE | re.DOTALL]. *)
Definition assignment_pattern (function_name : str) : Re.pattern :=
  [Re.Lit function_name; Re.Rep is_space 0 true; Re.Lit "=";
   Re.Rep is_space 0 true; Re.Lit "function"; Re.Rep is_space 0 true;
   Re.Lit "("; Re.Rep any_char 0 false; Re.Lit ")"; Re.Rep is_space 0 true;
   Re.Lit [nl]; Re.Rep any_char 0 false; Re.Bol; Re.Lit "end";
   Re.Rep is_space 0 true; Re.Eol].

(** [rf"function\s+{re.escape(function_name)}\s*\(.*?\)\s*\n(.*?)^end\s*$"],
    with the same flags. *)
Definition declaration_pattern (function_name : str) : Re.pattern :=
  [Re.Lit "function"; Re.Rep is_space 1 true; Re.Lit function_name;
   Re.Rep is_space 0 true; Re.Lit "("; Re.Rep any_char 0 false; Re.Lit ")";
   Re.Rep is_space 0 true; Re.Lit [nl]; Re.Rep any_char 0 false; Re.Bol;
   Re.Lit "end"; Re.Rep is_space 0 true; Re.Eol].

Definition extract_function_block (lua_code function_name : str) : option str :=
  match Re.search (assignment_pattern function_name) lua_code with
  | Some m => Some (Re.group0 m)
  | None =>
      match Re.search (declaration_pattern function_name) lua_code with
      | Some m_1 => Some (Re.group0 m_1)
      | None => None
      end
  end.

(** ** Python dictionaries

    Keys in insertion order; assigning to a key that is present keeps its
    position. *)

Module Dict.

Definition t (V : Type) := list (str * V).

Fixpoint get {V} (k : str) (d : t V) : option V :=
  match d with
  | [] => None
  | (k', v) :: d' => if decide (k = k') then Some v else get k d'
  end.

(** [k in d.keys()] *)
Definition mem {V} (k : str) (d : t V) : bool := bool_decide (is_Some (get k d)).

(** [d[k] = v] *)
Fixpoint set {V} (k : str) (v : V) (d : t V) : t V :=
  match d with
  | [] => [(k, v)]
  | (k', v') :: d' => if decide (k = k') then (k, v) :: d' else (k', v') :: set k v d'
  end.

Definition keys {V} (d : t V) : list str := d.*1.

End Dict.

(** The dependency index: file name to the list of (alias, dotted path). *)
Abbreviation index := (Dict.t (list (str * str))).

(** ** The closure walk *)

(** The [while not q.empty()] loop.  One unit of fuel pays for one test of
    the loop condition; [None] means the fuel ran out before the queue did. *)
Fixpoint queue_loop (fuel : nat) (dependencies_obj : index) (q : list str)
    (dependencies : list str) : option (list str) :=
  match fuel with
  | 0 => None
  | S fuel' =>
      match q with
      | [] => Some dependencies
      | temp :: q' =>
          match Dict.get (temp ++ ".lua") dependencies_obj with
          | Some value_array =>
              queue_loop fuel' dependencies_obj (q' ++ value_array.*1)
                (dependencies ++ [temp])
          | None => queue_loop fuel' dependencies_obj q' dependencies
          end
      end
  end.

(** [unique.split('.')[1] if '.' in unique else unique] *)
Definition seed (unique : str) : str :=
  if Py.contains "." unique then default [] (Py.split dot unique !! 1)
  else unique.

Definition extract_dependencies (fuel : nat) (unique : str)
    (dependencies_obj : index) : option (list str) :=
  queue_loop fuel dependencies_obj [seed unique] [].

(** ** The world and its monad *)

Inductive exn :=
| FileNotFoundError (path : str)
| IsADirectoryError (path : str)
| JSONDecodeError (doc : str)
| IndexError.

(** [walk folder] is what [os.walk(folder)] yields: for each directory its
    path, its sub-directory names and its file names. *)
Record world := World {
  files : gmap str str;
  dirs : gset str;
  walk : str → list (str * list str * list str);
  stdout : list str;
}.

Inductive outcome (A : Type) :=
| Ok (a : A)
| Raise (e : exn)
| Diverge.
Arguments Ok {A} a.
Arguments Raise {A} e.
Arguments Diverge {A}.

Definition M (A : Type) : Type := world → outcome A * world.

Definition raise {A} (e : exn) : M A := λ w, (Raise e, w).

Global Instance M_ret : MRet M := λ A a w, (Ok a, w).
Global Instance M_bind : MBind M := λ A B f m w,
  match m w with
  | (Ok a, w') => f a w'
  | (Raise e, w') => (Raise e, w')
  | (Diverge, w') => (Diverge, w')
  end.

(** A [for] loop that threads the variables it assigns through [b]. *)
Fixpoint for_each {A B} (l : list A) (body : B → A → M B) (b : B) : M B :=
  match l with
  | [] => mret b
  | a :: l' => b' ← body b a; for_each l' body b'
  end.

(** A computation of the fuelled walk inside the monad. *)
Definition run_walk {A} (r : option A) : M A :=
  match r with
  | Some a => mret a
  | None => λ w, (Diverge, w)
  end.

(** [open(file_path, 'r').read()] *)
Definition read_lua_file (file_path : str) : M str := λ w,
  match files w !! file_path with
  | Some content => (Ok content, w)
  | None =>
      if decide (file_path ∈ dirs w) then (Raise (IsADirectoryError file_path), w)
      else (Raise (FileNotFoundError file_path), w)
  end.

(** [open(file_path, "a").write(content)]: the file is created when absent
    and never truncated.  The directory that is to hold the file is taken to
    exist. *)
Definition write_files (file_path content : str) : M () := λ w,
  if decide (file_path ∈ dirs w) then (Raise (IsADirectoryError file_path), w)
  else (Ok (),
        World (<[file_path := default [] (files w !! file_path) ++ content]> (files w))
              (dirs w) (walk w) (stdout w)).

Definition os_path_exists (path : str) : M bool := λ w,
  (Ok (bool_decide (is_Some (files w !! path) ∨ path ∈ dirs w)), w).

Definition os_path_isdir (path : str) : M bool := λ w,
  (Ok (bool_decide (path ∈ dirs w)), w).

Definition os_walk (folder : str) : M (list (str * list str * list str)) := λ w,
  (Ok (walk w folder), w).

Definition print (line : str) : M () := λ w,
  (Ok (), World (files w) (dirs w) (walk w) (stdout w ++ [line])).

(** ** Bundling *)

(** The f-string assigned to [write_code]. *)
Definition bundle_text (combine_code original_code : str) : str :=
  [nl] ++ "    ------------------import functions begin------------------"
  ++ [nl; nl] ++ "    " ++ combine_code ++ [nl; nl]
  ++ "    ------------------import functions end------------------"
  ++ [nl; nl; nl] ++ "    " ++ original_code ++ [nl] ++ "    ".

(** [f'{parent_folder}/{folder.replace(".", "/")}.lua'] *)
Definition module_file (parent_folder folder : str) : str :=
  parent_folder ++ "/" ++ Py.replace "." "/" folder ++ ".lua".

Section Bundler.

(** [list(set(l))]: the distinct elements of [l] in the order in which the
    set happens to iterate. *)
Context (list_set : list str → list str).

(** [json.loads] and [json.dumps] on an index; [None] stands for a text
    that [json.loads] rejects. *)
Context (json_loads : str → option index) (json_dumps : index → str).

Definition parse_transmitting_dependency (parent_folder : str)
    (depen_dic : list str) (dependencies_obj : index) : M (Dict.t (list str)) :=
  for_each depen_dic (λ return_obj depen,
    let key := depen ++ ".lua" in
    let value_array := default [] (Dict.get key dependencies_obj) in
    for_each value_array (λ return_obj value,
      let unique := value.1 in
      let folder := value.2 in
      let sub_key := unique ++ ".lua" in
      if Dict.mem sub_key dependencies_obj then
        let target_lua_file := module_file parent_folder folder in
        code_content ← read_lua_file target_lua_file;
        let reference_functions := find_references code_content unique in
        let unique_functions := list_set reference_functions in
        mret (Dict.set target_lua_file unique_functions return_obj)
      else
        let target_lua_file := module_file parent_folder folder in
        present ← os_path_exists target_lua_file;
        if present : bool then
          code_content ← read_lua_file target_lua_file;
          let reference_functions := find_references code_content unique in
          let unique_functions := list_set reference_functions in
          mret (Dict.set target_lua_file unique_functions return_obj)
        else mret return_obj)
      return_obj)
    [].

(** [func.split(".")[1]], which raises when there is no second segment. *)
Definition second_segment (s : str) : M str :=
  match Py.split dot s !! 1 with
  | Some seg => mret seg
  | None => raise IndexError
  end.

(** The loop [for key in extract_depen_obj.keys()] (lines 192-207), which
    builds [combine_code]. *)
Definition combine_functions (extract_depen_obj : Dict.t (list str)) : M str :=
  for_each (Dict.keys extract_depen_obj) (λ combine_code key,
    present ← os_path_exists key;
    if negb present then mret combine_code
    else
      code_content ← read_lua_file key;
      let functions := default [] (Dict.get key extract_depen_obj) in
      for_each functions (λ combine_code func,
        temp_func ← (if Py.contains "_utils" func
                     then member ← second_segment func; mret ("utils." ++ member)
                     else mret func);
        match extract_function_block code_content temp_func with
        | Some ((_ :: _) as extract_function) =>
            let extract_function := Py.replace temp_func func extract_function in
            mret (combine_code ++ [nl] ++ extract_function)
        | _ => mret combine_code
        end)
        combine_code)
    [].

Definition generate_new_combine_lua (parent_folder sub_folder filename : str)
    (extract_depen_obj : Dict.t (list str)) : M () :=
  let destination := parent_folder ++ "/" ++ sub_folder ++ "/" ++ filename in
  original_code ← read_lua_file destination;
  combine_code ← combine_functions extract_depen_obj;
  let write_code := bundle_text combine_code original_code in
  let write_path :=
    parent_folder ++ "/" ++ sub_folder ++ "/"
    ++ default [] (head (Py.split dot filename)) ++ "_new.lua" in
  write_files write_path write_code.

(** The merge of [return_obj] into [extract_depen_obj] (lines 278-285). *)
Definition merge_return_obj (return_obj extract_depen_obj : Dict.t (list str))
    : Dict.t (list str) :=
  foldl (λ extract_depen_obj key,
    if negb (Dict.mem key extract_depen_obj) then
      Dict.set key (default [] (Dict.get key return_obj)) extract_depen_obj
    else
      let values := default [] (Dict.get key return_obj) in
      foldl (λ extract_depen_obj val,
        let present := default [] (Dict.get key extract_depen_obj) in
        if bool_decide (val ∉ present)
        then Dict.set key (present ++ [val]) extract_depen_obj
        else extract_depen_obj)
        extract_depen_obj values)
    extract_depen_obj (Dict.keys return_obj).

(** The body of [for unique in unique_functions] (lines 260-285). *)
Definition resolve_reference (fuel : nat) (parent_folder reference : str)
    (dependencies_obj : index) (sub_destination : str) (folder_flag : bool)
    (extract_depen_obj : Dict.t (list str)) (unique : str)
    : M (Dict.t (list str)) :=
  depen_dic ← run_walk (extract_dependencies fuel unique dependencies_obj);
  if bool_decide (length depen_dic ≤ 0) then
    let target_lua_file :=
      if folder_flag then sub_destination ++ "/init.lua"
      else sub_destination ++ ".lua" in
    if negb (Dict.mem target_lua_file extract_depen_obj) then
      mret (Dict.set target_lua_file [unique] extract_depen_obj)
    else
      mret (Dict.set target_lua_file
             (default [] (Dict.get target_lua_file extract_depen_obj) ++ [unique])
             extract_depen_obj)
  else
    member ← second_segment unique;
    let combo := Py.replace "." "/" reference ++ "/" ++ member ++ ".lua" in
    let target_lua_file := parent_folder ++ "/" ++ combo in
    let extract_depen_obj := Dict.set target_lua_file [] extract_depen_obj in
    return_obj ← parse_transmitting_dependency parent_folder depen_dic dependencies_obj;
    mret (merge_return_obj return_obj extract_depen_obj).

(** The loop [for module, reference in dependencies_array] (lines 250-285). *)
Definition resolve_all (fuel : nat) (parent_folder : str)
    (dependencies_obj : index) (code_content : str)
    (dependencies_array : list (str * str)) : M (Dict.t (list str)) :=
  for_each dependencies_array (λ extract_depen_obj entry,
    let module := entry.1 in
    let reference := entry.2 in
    let reference_functions := find_references code_content module in
    let unique_functions := list_set reference_functions in
    let sub_destination := parent_folder ++ "/" ++ Py.replace "." "/" reference in
    folder_flag ← os_path_isdir sub_destination;
    for_each unique_functions
      (resolve_reference fuel parent_folder reference dependencies_obj
         sub_destination folder_flag)
      extract_depen_obj)
    [].

Definition get_target_code (fuel : nat)
    (parent_folder sub_folder filename dependencies_file : str) : M () :=
  let destination := parent_folder ++ "/" ++ sub_folder ++ "/" ++ filename in
  dependencies_content ← read_lua_file dependencies_file;
  match json_loads (Py.rstrip dependencies_content) with
  | None => raise (JSONDecodeError (Py.rstrip dependencies_content))
  | Some dependencies_obj =>
      if negb (Dict.mem filename dependencies_obj) then
        print "There are no dependencies, no need to extend..."
      else
        let dependencies_array := default [] (Dict.get filename dependencies_obj) in
        code_content ← read_lua_file destination;
        extract_depen_obj ←
          resolve_all fuel parent_folder dependencies_obj code_content
            dependencies_array;
        generate_new_combine_lua parent_folder sub_folder filename extract_depen_obj
  end.

(** ** The scanner *)

(** The two nested loops over [os.walk(folder)] (lines 300-308). *)
Definition scan_tree (listing : list (str * list str * list str)) : M index :=
  for_each listing (λ requirement_local entry,
    let root := entry.1.1 in
    let files := entry.2 in
    for_each files (λ requirement_local file,
      if Py.endswith ".lua" file then
        let file_path := Py.path_join root file in
        lua_code ← read_lua_file file_path;
        let local_requires := extract_local_requirements lua_code in
        if bool_decide (0 < length local_requires)
        then mret (Dict.set file local_requires requirement_local)
        else mret requirement_local
      else mret requirement_local)
      requirement_local)
    [].

Definition generate_dependency_json (folder output_file : str) : M () :=
  listing ← os_walk folder;
  requirement_local ← scan_tree listing;
  write_files output_file (json_dumps requirement_local);;
  print ("Generated dependency JSON with "
         ++ list_ascii_of_string (pretty (length (Dict.keys requirement_local)))
         ++ " files").

End Bundler.

(** ** Vocabulary of the statements *)

(** [list(set(l))] yields the distinct elements of [l], in some order. *)
Class SetOrder (list_set : list str → list str) : Prop :=
  set_order l : list_set l ≡ₚ remove_dups l.

(** *** The require graph of an index *)

(** Module [m] has an entry in the index. *)
Definition indexed (idx : index) (m : str) : Prop :=
  is_Some (Dict.get (m ++ ".lua") idx).

(** The entry of module [m] declares the alias [a]. *)
Definition requires (idx : index) (m a : str) : Prop :=
  ∃ value_array, Dict.get (m ++ ".lua") idx = Some value_array ∧ a ∈ value_array.*1.

(** No module requires itself through one or more declarations. *)
Definition acyclic (idx : index) : Prop := ∀ m, ¬ tc (requires idx) m m.

(** The modules that the walk from [start] is to record: those with an entry
    in the index that are reached from [start] along declarations. *)
Definition reachable (idx : index) (start m : str) : Prop :=
  rtc (requires idx) start m ∧ indexed idx m.

(** The aliases enqueued when [m] is taken from the queue. *)
Definition children (idx : index) (m : str) : list str :=
  match Dict.get (m ++ ".lua") idx with
  | Some value_array => value_array.*1
  | None => []
  end.

(** The queue after every element of [q] has been taken, and what has been
    recorded meanwhile. *)
Definition next_level (idx : index) (q : list str) : list str := q ≫= children idx.
Definition recorded (idx : index) (q : list str) : list str :=
  filter (indexed idx) q.

Fixpoint level (idx : index) (q : list str) (k : nat) : list str :=
  match k with
  | 0 => q
  | S k' => level idx (next_level idx q) k'
  end.

Fixpoint visited (idx : index) (q : list str) (k : nat) : list str :=
  match k with
  | 0 => []
  | S k' => recorded idx q ++ visited idx (next_level idx q) k'
  end.

(** *** Example indexes *)

(** A requires B and B requires A. *)
Definition cyclic_index : index :=
  [("A.lua" : str, [("B" : str, "lib.B" : str)]);
   ("B.lua" : str, [("A" : str, "lib.A" : str)])].

(** A requires B and C, which both require D. *)
Definition diamond_index : index :=
  [("A.lua" : str, [("B" : str, "lib.B" : str); ("C" : str, "lib.C" : str)]);
   ("B.lua" : str, [("D" : str, "lib.D" : str)]);
   ("C.lua" : str, [("D" : str, "lib.D" : str)]);
   ("D.lua" : str, [("E" : str, "lib.E" : str)])].

(** A rank that every [requires] edge of [diamond_index] decreases. *)
Definition diamond_rank (m : str) : nat :=
  if decide (m = "A") then 3
  else if decide (m = "B") then 2
  else if decide (m = "C") then 2
  else if decide (m = "D") then 1
  else 0.

(** *** File-system frames *)

(** Nothing but the printed lines differs between [w] and [w']. *)
Definition unchanged (w w' : world) : Prop :=
  files w' = files w ∧ dirs w' = dirs w ∧ walk w' = walk w.

(** [w'] is [w] with [text] added at the end of the file [path], which is
    created when [w] does not have it. *)
Definition appended (w w' : world) (path text : str) : Prop :=
  files w' = <[path := default [] (files w !! path) ++ text]> (files w)
  ∧ dirs w' = dirs w ∧ walk w' = walk w.

(** Every file of [w] is still there in [w'], and starts with what it held. *)
Definition kept (w w' : world) : Prop :=
  ∀ p c, files w !! p = Some c → ∃ t, files w' !! p = Some (c ++ t).

(** A computation that writes no file. *)
Definition reads {A} (m : M A) : Prop := ∀ w, unchanged w (m w).2.

(** The path of the bundle of a target. *)
Definition bundle_path (parent_folder sub_folder filename : str) : str :=
  parent_folder ++ "/" ++ sub_folder ++ "/"
  ++ default [] (head (Py.split dot filename)) ++ "_new.lua".

(** *** JSON text of an index, for the examples

    The text [json.dumps] gives for an index whose names need no escaping,
    and [json.loads] restricted to the texts of the listed indexes. *)

Definition json_quote (s : str) : str := [dquote] ++ s ++ [dquote].

Fixpoint json_join (items : list str) : str :=
  match items with
  | [] => []
  | [item] => item
  | item :: items' => item ++ ", " ++ json_join items'
  end.

Definition json_pair (value : str * str) : str :=
  "[" ++ json_quote value.1 ++ ", " ++ json_quote value.2 ++ "]".

Definition json_entry (entry : str * list (str * str)) : str :=
  json_quote entry.1 ++ ": [" ++ json_join (json_pair <$> entry.2) ++ "]".

Definition json_text (idx : index) : str :=
  "{" ++ json_join (json_entry <$> idx) ++ "}".

Definition json_table (docs : list index) (doc : str) : option index :=
  list_find (λ idx, json_text idx = doc) docs ≫= λ found, Some found.2.

(** *** Example projects *)

(** The message printed when the target has no entry in the index. *)
Definition no_dependencies_message : str :=
  "There are no dependencies, no need to extend...".

(** A project whose only module declares no requirement: the scanner records
    nothing, and the persisted index is the empty object. *)
Definition plain_world : world :=
  World
    (<[("proj/deps.json" : str) := json_text []]>
      (<[("proj/app/main.lua" : str) := ("print(1)" : str)]> ∅))
    {[ ("proj" : str); ("proj/app" : str) ]}
    (λ folder,
       if decide (folder = "proj")
       then [("proj" : str, [("app" : str)], [("deps.json" : str)]);
             ("proj/app" : str, [], [("main.lua" : str)])]
       else [])
    [].

(** The target requires [lib.http] as [http] and [lib] as [lib], and calls
    [http.get] and [lib.http]; the module [http] has a requirement of its
    own, so it has an entry in the index. *)
Definition shadow_index : index :=
  [("main.lua" : str, [("http" : str, "lib.http" : str); ("lib" : str, "lib" : str)]);
   ("http.lua" : str, [("socket" : str, "net.socket" : str)])].

Definition shadow_code : str := "http.get(1) lib.http(2)".

Definition shadow_world : world :=
  World
    (<[("proj/deps.json" : str) := json_text shadow_index]>
      (<[("proj/app/main.lua" : str) := shadow_code]>
        (<[("proj/lib/http.lua" : str) :=
             "function http.get(url)" ++ [nl] ++ "  return url" ++ [nl] ++ "end" ++ [nl]]> ∅)))
    {[ ("proj" : str); ("proj/app" : str); ("proj/lib" : str) ]}
    (λ _, [])
    [].

(** The target calls [lib.http]; [http] requires [net.socket] as [socket],
    [socket] has an entry in the index, and the file [proj/net/socket.lua] is
    not there. *)
Definition missing_index : index :=
  [("main.lua" : str, [("lib" : str, "lib" : str)]);
   ("http.lua" : str, [("socket" : str, "net.socket" : str)]);
   ("socket.lua" : str, [("bit" : str, "util.bit" : str)])].

(** The same without the entry of [socket]. *)
Definition leaf_index : index :=
  [("main.lua" : str, [("lib" : str, "lib" : str)]);
   ("http.lua" : str, [("socket" : str, "net.socket" : str)])].

Definition missing_world (idx : index) : world :=
  World
    (<[("proj/deps.json" : str) := json_text idx]>
      (<[("proj/app/main.lua" : str) := ("lib.http(2)" : str)]> ∅))
    {[ ("proj" : str); ("proj/app" : str) ]}
    (λ _, [])
    [].

(** The target requires [lib.json] as [json] and never refers to a member
    of [json]. *)
Definition unused_index : index :=
  [("main.lua" : str, [("json" : str, "lib.json" : str)])].

Definition unused_code : str :=
  "local json = require 'lib.json'" ++ [nl] ++ "print(1)" ++ [nl].

Definition unused_world : world :=
  World
    (<[("proj/deps.json" : str) := json_text unused_index]>
      (<[("proj/app/main.lua" : str) := unused_code]> ∅))
    {[ ("proj" : str); ("proj/app" : str) ]}
    (λ _, [])
    [].

(** *** Patterns and texts *)

(** The text [rest] does not start with a character of the class [c]. *)
Definition stops (c : ascii → bool) (rest : str) : Prop :=
  ∀ x rest', rest = x :: rest' → c x = false.

(** [s] starts with a reference to [alias]: the alias, a dot and an
    identifier (as many word characters as there are, at least one), followed
    by [rest]. *)
Definition reference_at (alias s ident rest : str) : Prop :=
  s = alias ++ "." ++ ident ++ rest
  ∧ ident ≠ [] ∧ Forall (λ x, is_word x = true) ident ∧ stops is_word rest.

(** Reading a text from left to right for items: where an item starts the
    text ([hit s a rest]) it is taken as a whole and the reading goes on with
    [rest]; elsewhere one character is passed over. *)
Inductive reading {A} (hit : str → A → str → Prop) : str → list A → Prop :=
| reading_nil : reading hit [] []
| reading_here s a rest l :
    hit s a rest → reading hit rest l → reading hit s (a :: l)
| reading_next x s l :
    (∀ a rest, ¬ hit (x :: s) a rest) → reading hit s l →
    reading hit (x :: s) l.

(** The references to [alias] met when reading a text from left to right. *)
Definition reference_hit (alias s a rest : str) : Prop :=
  ∃ ident, a = alias ++ "." ++ ident ∧ reference_at alias s ident rest.

Definition references (alias : str) : str → list str → Prop :=
  reading (reference_hit alias).

(** The text ends with a character that is neither a word character nor a
    dot, or is empty. *)
Definition separated (pre : str) : bool :=
  match last pre with
  | None => true
  | Some x => negb (is_word x) && negb (is_dot x)
  end.

(** *** Requirements *)

(** [s] starts with a requirement: [local], white space, the alias, [=]
    with white space around it or not, [require], white space or not, and the
    dotted path between two quote characters (no parenthesis), followed by
    [rest]. *)
Definition requirement_at (s : str) (a : str * str) (rest : str) : Prop :=
  ∃ ws1 ws2 ws3 ws4 q1 q2,
    s = "local" ++ ws1 ++ a.1 ++ ws2 ++ "=" ++ ws3 ++ "require" ++ ws4
        ++ q1 :: a.2 ++ q2 :: rest
    ∧ ws1 ≠ [] ∧ Forall (λ x, is_space x = true) ws1
    ∧ Forall (λ x, is_space x = true) ws2
    ∧ Forall (λ x, is_space x = true) ws3
    ∧ Forall (λ x, is_space x = true) ws4
    ∧ a.1 ≠ [] ∧ Forall (λ x, is_word x = true) a.1
    ∧ is_quote q1 = true ∧ is_quote q2 = true
    ∧ a.2 ≠ [] ∧ Forall (λ x, is_word_or_dot x = true) a.2.

(** The requirements met when reading a text from left to right. *)
Definition requirements : str → list (str * str) → Prop :=
  reading requirement_at.

(** The Lua files of a listing, in the order of the walk: the name of each
    and its path. *)
Definition lua_files (listing : list (str * list str * list str))
    : list (str * str) :=
  entry ← listing;
  file ← filter (λ file, Py.endswith ".lua" file = true) entry.2;
  [(file, Py.path_join entry.1.1 file)].

(** The file at [path] declares the requirements [reqs], and there is at
    least one. *)
Definition declares (w : world) (path : str) (reqs : list (str * str)) : Prop :=
  ∃ lua_code, files w !! path = Some lua_code
              ∧ requirements lua_code reqs ∧ reqs ≠ [].

(** Among the files named [name], the last one of the walk that declares a
    requirement declares [reqs]. *)
Definition last_declaring (w : world) (walked : list (str * str)) (name : str)
    (reqs : list (str * str)) : Prop :=
  ∃ before path after,
    walked = before ++ (name, path) :: after
    ∧ declares w path reqs
    ∧ ∀ path' reqs', (name, path') ∈ after → ¬ declares w path' reqs'.

(** A tree whose only module writes its requirement with parentheses. *)
Definition paren_code : str :=
  "local x = require(" ++ [dquote] ++ "a.b" ++ [dquote] ++ ")".

Definition paren_world : world :=
  World (<[("proj/m.lua" : str) := paren_code]> ∅)
    {[ ("proj" : str) ]}
    (λ _, [("proj" : str, [], [("m.lua" : str)])])
    [].

(** A tree with two modules of the same name in two directories. *)
Definition twin_world : world :=
  World
    (<[("proj/a/util.lua" : str) := "local x = require 'p.q'" : str]>
      (<[("proj/b/util.lua" : str) := "local y = require 'r.s'" : str]> ∅))
    {[ ("proj" : str); ("proj/a" : str); ("proj/b" : str) ]}
    (λ _, [("proj" : str, [("a" : str); ("b" : str)], []);
           ("proj/a" : str, [], [("util.lua" : str)]);
           ("proj/b" : str, [], [("util.lua" : str)])])
    [].

(** What the scanner does with one Lua file: the step of its loops. *)
Definition record_file (w : world) (requirement_local : index)
    (entry : str * str) : index :=
  let local_requires :=
    extract_local_requirements (default [] (files w !! entry.2)) in
  if bool_decide (0 < length local_requires)
  then Dict.set entry.1 local_requires requirement_local
  else requirement_local.

(** *** Function blocks *)

(** At no start of a line of [body] does [end] follow; [bol] tells whether
    [body] itself starts a line. *)
Fixpoint no_end_line (bol : bool) (body : str) : bool :=
  match body with
  | [] => true
  | x :: body' =>
      (if bol then bool_decide (Py.strip_prefix "end" body = None) else true)
      && no_end_line (is_nl x) body'
  end.

(** What follows the white space after [end]: nothing, or the last line
    break before the next visible character. *)
Definition after_end (rest : str) : Prop :=
  rest = []
  ∨ ∃ blank x rest',
      rest = nl :: (blank ++ x :: rest')
      ∧ Forall (λ y, is_space y = true) blank ∧ (nl ∉ blank)
      ∧ is_space x = false.

(** The declaration of [name] with parameters [params] and body [body]. *)
Definition declaration (name params body : str) : str :=
  "function " ++ name ++ "(" ++ params ++ ")" ++ [nl] ++ body ++ "end".

(** The end of a pattern of a function block: [(.*?)^end\s*$]. *)
Definition block_end : Re.pattern :=
  [Re.Rep any_char 0 false; Re.Bol; Re.Lit "end"; Re.Rep is_space 0 true; Re.Eol].

(** The declaration of [Widget.make], alone and inside a module. *)
Definition widget_block : str :=
  declaration "Widget.make" "x" ("  return x" ++ [nl]).

Definition widget_module : str :=
  ("local Widget = {}" ++ [nl]) ++ widget_block ++ [nl]
  ++ nl :: "return Widget" ++ [nl].

(** *** More vocabulary: function blocks *)

(** The definition of [name] by assignment of a function, with the white
    space [ws1], [ws2] and [ws3] around [=] and before the parameters. *)
Definition assignment (name ws1 ws2 ws3 params body : str) : str :=
  name ++ ws1 ++ "=" ++ ws2 ++ "function" ++ ws3 ++ "(" ++ params ++ ")"
  ++ [nl] ++ body ++ "end".

(** What stands before the parameters in a block of [name]: one of the two
    forms of the two patterns. *)
Definition block_head (name head : str) : Prop :=
  (∃ ws1 ws2 ws3,
     head = name ++ ws1 ++ "=" ++ ws2 ++ "function" ++ ws3
     ∧ Forall (λ x, is_space x = true) ws1
     ∧ Forall (λ x, is_space x = true) ws2
     ∧ Forall (λ x, is_space x = true) ws3)
  ∨ (∃ ws1 ws2,
       head = "function" ++ ws1 ++ name ++ ws2
       ∧ ws1 ≠ [] ∧ Forall (λ x, is_space x = true) ws1
       ∧ Forall (λ x, is_space x = true) ws2).

(** *** More vocabulary: computations *)

(** A computation that hands back the world it was given: it writes no file
    and prints no line, whatever its outcome. *)
Definition silent {A} (m : M A) : Prop := ∀ w, (m w).2 = w.

(** The world after a line has been printed. *)
Definition printed (w : world) (line : str) : world :=
  World (files w) (dirs w) (walk w) (stdout w ++ [line]).

(** The line that [generate_dependency_json] prints for an index. *)
Definition generated_message (requirement_local : index) : str :=
  "Generated dependency JSON with "
  ++ list_ascii_of_string (pretty (length (Dict.keys requirement_local)))
  ++ " files".

(** *** More vocabulary: the map of functions to extract *)

(** Every entry of [d] is an entry of [d'], with its list at the front of
    the list that [d'] holds. *)
Definition grows (d d' : Dict.t (list str)) : Prop :=
  ∀ key values, Dict.get key d = Some values →
                ∃ more, Dict.get key d' = Some (values ++ more).

(** [val] is listed under [key] in [d]. *)
Definition listed (d : Dict.t (list str)) (key val : str) : Prop :=
  ∃ values, Dict.get key d = Some values ∧ val ∈ values.

(** The steps of the two loops of the merge (lines 278-285). *)
Definition merge_value (key : str) (extract_depen_obj : Dict.t (list str))
    (val : str) : Dict.t (list str) :=
  let present := default [] (Dict.get key extract_depen_obj) in
  if bool_decide (val ∉ present)
  then Dict.set key (present ++ [val]) extract_depen_obj
  else extract_depen_obj.

Definition merge_key (return_obj extract_depen_obj : Dict.t (list str))
    (key : str) : Dict.t (list str) :=
  if negb (Dict.mem key extract_depen_obj) then
    Dict.set key (default [] (Dict.get key return_obj)) extract_depen_obj
  else
    foldl (merge_value key) extract_depen_obj
      (default [] (Dict.get key return_obj)).

(** *** More vocabulary: the loops of the bundler *)

(** [os.path.exists(path)] in the world [w]. *)
Definition present (w : world) (path : str) : bool :=
  bool_decide (is_Some (files w !! path) ∨ path ∈ dirs w).

(** The step of the loop over the functions of one file (lines 199-207). *)
Definition combine_function (code_content combine_code func : str) : M str :=
  temp_func ← (if Py.contains "_utils" func
               then member ← second_segment func; mret ("utils." ++ member)
               else mret func);
  match extract_function_block code_content temp_func with
  | Some ((_ :: _) as extract_function) =>
      let extract_function := Py.replace temp_func func extract_function in
      mret (combine_code ++ [nl] ++ extract_function)
  | _ => mret combine_code
  end.

(** The step of the loop over the keys (lines 192-207). *)
Definition combine_key (extract_depen_obj : Dict.t (list str))
    (combine_code key : str) : M str :=
  present ← os_path_exists key;
  if negb present then mret combine_code
  else
    code_content ← read_lua_file key;
    let functions := default [] (Dict.get key extract_depen_obj) in
    for_each functions (combine_function code_content) combine_code.

(** The step of the inner loop of [parse_transmitting_dependency]
    (lines 149-167). *)
Definition parse_value (list_set : list str → list str) (parent_folder : str)
    (dependencies_obj : index) (return_obj : Dict.t (list str))
    (value : str * str) : M (Dict.t (list str)) :=
  let unique := value.1 in
  let folder := value.2 in
  let sub_key := unique ++ ".lua" in
  if Dict.mem sub_key dependencies_obj then
    let target_lua_file := module_file parent_folder folder in
    code_content ← read_lua_file target_lua_file;
    let reference_functions := find_references code_content unique in
    let unique_functions := list_set reference_functions in
    mret (Dict.set target_lua_file unique_functions return_obj)
  else
    let target_lua_file := module_file parent_folder folder in
    present ← os_path_exists target_lua_file;
    if present : bool then
      code_content ← read_lua_file target_lua_file;
      let reference_functions := find_references code_content unique in
      let unique_functions := list_set reference_functions in
      mret (Dict.set target_lua_file unique_functions return_obj)
    else mret return_obj.

(** The file of a declared module cannot be read where the walk over the
    closure reads it: nothing can be read at its path, and the path exists
    or the alias has an entry in the index. *)
Definition unreadable_dependency (w : world) (parent_folder : str)
    (dependencies_obj : index) (value : str * str) : Prop :=
  files w !! module_file parent_folder value.2 = None
  ∧ (present w (module_file parent_folder value.2) = true
     ∨ is_Some (Dict.get (value.1 ++ ".lua") dependencies_obj)).

(** The file that holds a module with no entry of its own in the index
    (lines 255-266): [init.lua] in the directory of the module when there is
    such a directory, the Lua file of the module otherwise. *)
Definition leaf_file (w : world) (parent_folder reference : str) : str :=
  let sub_destination := parent_folder ++ "/" ++ Py.replace "." "/" reference in
  if bool_decide (sub_destination ∈ dirs w)
  then sub_destination ++ "/init.lua"
  else sub_destination ++ ".lua".

(** The name under which the block of [func] is looked up (lines 200-202),
    [member] being the second dotted segment of [func]. *)
Definition lookup_name (func member : str) : str :=
  if Py.contains "_utils" func then "utils." ++ member else func.

(** *** An example project with one reference *)

(** The target requires [lib.http] as [http] and calls [http.get]; the
    module defines [http.get] and has no requirement of its own. *)
Definition single_index : index :=
  [("main.lua" : str, [("http" : str, "lib.http" : str)])].

Definition single_code : str :=
  "local http = require 'lib.http'" ++ [nl] ++ "print(http.get('u'))" ++ [nl].

Definition single_block : str :=
  "function http.get(url)" ++ [nl] ++ "  return url" ++ [nl] ++ "end".

Definition single_world : world :=
  World
    (<[("proj/deps.json" : str) := json_text single_index ++ [nl]]>
      (<[("proj/app/main.lua" : str) := single_code]>
        (<[("proj/lib/http.lua" : str) :=
             "local http = {}" ++ [nl] ++ single_block ++ [nl]
             ++ "return http" ++ [nl]]> ∅)))
    {[ ("proj" : str); ("proj/app" : str); ("proj/lib" : str) ]}
    (λ _, [])
    [].

(** *** More vocabulary: the scanner *)

(** The step of the loop over the files of one directory (lines 301-308). *)
Definition scan_file (root : str) (requirement_local : index) (file : str)
    : M index :=
  if Py.endswith ".lua" file then
    let file_path := Py.path_join root file in
    lua_code ← read_lua_file file_path;
    let local_requires := extract_local_requirements lua_code in
    if bool_decide (0 < length local_requires)
    then mret (Dict.set file local_requires requirement_local)
    else mret requirement_local
  else mret requirement_local.

(** *** More vocabulary: references with a member *)

(** Every function listed in the map has a dot. *)
Definition dotted (d : Dict.t (list str)) : Prop :=
  ∀ key val, listed d key val → dot ∈ val.

(** The outcome [r] of a step run in [w]: when it ends well the world is
    [w] and the result satisfies [I], and when it raises the exception
    satisfies [Q]. *)
Definition within {B} (w : world) (I : B → Prop) (Q : exn → Prop)
    (r : outcome B * world) : Prop :=
  match r.1 with
  | Ok b => r.2 = w ∧ I b
  | Raise e => Q e
  | Diverge => True
  end.

(** *** More vocabulary: the first match, and the file system *)

(** The pattern [p] matches at no position of [pre] in the text [pre ++ s];
    [bol] tells whether [pre] starts a line. *)
Fixpoint no_match_before (p : Re.pattern) (bol : bool) (pre s : str) : bool :=
  match pre with
  | [] => true
  | x :: pre' =>
      bool_decide (Re.match_here p bol (pre ++ s) = None)
      && no_match_before p (is_nl x) pre' s
  end.

Definition cr : ascii := "013"%char.

(** The part of a path before its last [/], empty when there is none. *)
Fixpoint dirname (path : str) : str :=
  match path with
  | [] => []
  | c :: path' =>
      if bool_decide ("/"%char ∈ path') then c :: dirname path' else []
  end.

(** The part of a path after its last [/], all of it when there is none. *)
Fixpoint basename (path : str) : str :=
  match path with
  | [] => []
  | c :: path' =>
      if bool_decide ("/"%char ∈ path') then basename path'
      else if bool_decide (c = "/"%char) then path' else c :: path'
  end.

(** The path can name a file of a directory that exists: it holds no
    character of code 0, its last segment is a name (not empty, not [.] and
    not [..]), and what stands before its last [/] is nothing or a directory
    of the world. *)
Definition directory_there (w : world) (path : str) : Prop :=
  ("000"%char ∉ path)
  ∧ (basename path ∉ [[]; "." : str; ".." : str])
  ∧ (dirname path = [] ∨ dirname path ∈ dirs w).

(** * Properties *)

(** ** Strings *)

Section strings.
Implicit Types s l a b : str.

Lemma contains_dot s : Py.contains [dot] s = bool_decide (dot ∈ s).
Proof.
  induction s as [|c s IH]; [done|].
  cbn [Py.contains Py.strip_prefix]. rewrite IH.
  destruct (decide (dot = c)) as [<-|Hc].
  - rewrite (bool_decide_eq_true_2 (dot = dot)) by done.
    symmetry. apply bool_decide_eq_true_2. left.
  - rewrite (bool_decide_eq_false_2 (dot = c)) by done.
    apply bool_decide_ext. rewrite elem_of_cons.
    split; [by right | by intros [?|?]].
Qed.

Lemma split_no_sep sep s : sep ∉ s → Py.split sep s = [s].
Proof.
  induction s as [|c s IH]; [done|]. intros Hs.
  apply not_elem_of_cons in Hs as [Hc Hs]. cbn.
  rewrite bool_decide_eq_false_2 by done. by rewrite IH.
Qed.

Lemma split_app_sep sep a s :
  sep ∉ a → Py.split sep (a ++ sep :: s) = a :: Py.split sep s.
Proof.
  induction a as [|c a IH]; intros Ha.
  - cbn. by rewrite bool_decide_eq_true_2.
  - apply not_elem_of_cons in Ha as [Hc Ha]. cbn.
    rewrite bool_decide_eq_false_2 by done. by rewrite IH.
Qed.

Lemma split_not_nil sep s : Py.split sep s ≠ [].
Proof. destruct s; cbn; [done|]. repeat case_match; done. Qed.

(** [unique.split('.')[1]] is defined whenever ['.' in unique]. *)
Lemma split_second_defined s : dot ∈ s → is_Some (Py.split dot s !! 1).
Proof.
  intros Hs. apply list_elem_of_split in Hs as (a & b & ->).
  induction a as [|c a IH]; cbn.
  - rewrite bool_decide_eq_true_2 by done. cbn.
    pose proof (split_not_nil dot b). destruct (Py.split dot b); [done|by eexists].
  - destruct IH as [x Hx]. case_bool_decide; cbn.
    + pose proof (split_not_nil dot (a ++ dot :: b)).
      destruct (Py.split dot (a ++ dot :: b)); [done|by eexists].
    + destruct (Py.split dot (a ++ dot :: b)) as [|? []]; cbn in *; eauto; done.
Qed.

Lemma seed_unqualified a : dot ∉ a → seed a = a.
Proof.
  intros Ha. unfold seed. change (list_ascii_of_string ".") with [dot].
  rewrite contains_dot. by rewrite bool_decide_eq_false_2.
Qed.

Lemma seed_qualified a s :
  dot ∉ a → seed (a ++ "." ++ s) = default [] (head (Py.split dot s)).
Proof.
  intros Ha. unfold seed. change (list_ascii_of_string ".") with [dot].
  rewrite contains_dot, bool_decide_eq_true_2
    by (apply elem_of_app; right; left).
  cbn [app]. rewrite split_app_sep by done. cbn. by destruct (Py.split dot s).
Qed.
End strings.

(** ** The closure walk *)

Section closure.
Context (idx : index).
Implicit Types q deps : list str.
Implicit Types m a : str.

Lemma elem_of_children m a : a ∈ children idx m ↔ requires idx m a.
Proof.
  unfold children, requires. destruct (Dict.get _ idx) as [va|].
  - split; [by eexists|]. by intros (? & [= <-] & ?).
  - split; [by intros ?%elem_of_nil|]. by intros (? & [=] & ?).
Qed.

Lemma elem_of_next_level q a :
  a ∈ next_level idx q ↔ ∃ m, m ∈ q ∧ requires idx m a.
Proof.
  unfold next_level. rewrite list_elem_of_bind.
  setoid_rewrite elem_of_children. split; intros (m & ? & ?); eauto.
Qed.

Lemma level_nil k : level idx [] k = [].
Proof. induction k; [done|]. apply IHk. Qed.

Lemma level_S q k : level idx q (S k) = next_level idx (level idx q k).
Proof. revert q. induction k as [|k IH]; intros q; [done|]. apply (IH _). Qed.

Lemma level_add q j k : level idx q (j + k) = level idx (level idx q j) k.
Proof. revert q. induction j as [|j IH]; intros q; [done|]. apply IH. Qed.

Lemma level_nil_le q j k : level idx q j = [] → j ≤ k → level idx q k = [].
Proof.
  intros Hj Hle. replace k with (j + (k - j)) by lia.
  by rewrite level_add, Hj, level_nil.
Qed.

(** An element of level [k] is what [k] declarations lead to from the
    initial queue. *)
Lemma elem_of_level q k a :
  a ∈ level idx q k ↔ ∃ m, m ∈ q ∧ nsteps (requires idx) k m a.
Proof.
  revert a. induction k as [|k IH]; intros a.
  - split; [intros; exists a; split; [done|constructor]|].
    intros (m & ? & Hm). by inv Hm.
  - rewrite level_S, elem_of_next_level. split.
    + intros (b & (m & ? & ?)%IH & ?). exists m. eauto using nsteps_r.
    + intros (m & ? & (b & ? & ?)%nsteps_inv_r). exists b. split; [|done].
      apply IH. eauto.
Qed.

Lemma elem_of_visited q k m :
  m ∈ visited idx q k ↔ ∃ i, i < k ∧ m ∈ level idx q i ∧ indexed idx m.
Proof.
  revert q. induction k as [|k IH]; intros q; cbn [visited].
  - split; [by intros ?%elem_of_nil|]. intros (? & ? & _); lia.
  - rewrite elem_of_app, IH. unfold recorded. rewrite list_elem_of_filter.
    split.
    + intros [[? ?]|(i & ? & ? & ?)]; [exists 0|exists (S i)]; eauto with lia.
    + intros ([|i] & ? & ? & ?); [by left|right]. exists i. eauto with lia.
Qed.

(** *** The loop, level by level *)

(** Taking the [length q] elements at the front of the queue. *)
Lemma queue_loop_level fuel q q' deps :
  queue_loop (length q + fuel) idx (q ++ q') deps
  = queue_loop fuel idx (q' ++ next_level idx q) (deps ++ recorded idx q).
Proof.
  revert q' deps. induction q as [|m q IH]; intros q' deps.
  - cbn. by rewrite !app_nil_r.
  - cbn [length plus app queue_loop]. unfold recorded, next_level.
    cbn [mbind list_bind]. fold (next_level idx q). unfold children at 1.
    destruct (Dict.get (m ++ ".lua") idx) as [va|] eqn:Hm.
    + rewrite filter_cons_True by (unfold indexed; by rewrite Hm).
      rewrite <-(assoc_L (++)), IH. f_equal; by rewrite <-?(assoc_L (++)).
    + rewrite filter_cons_False by (unfold indexed; rewrite Hm; by intros [? ?]).
      by rewrite IH.
Qed.

Lemma queue_loop_short fuel q q' deps :
  fuel ≤ length q → queue_loop fuel idx (q ++ q') deps = None.
Proof.
  revert q q' deps. induction fuel as [|fuel IH]; intros q q' deps Hle; [done|].
  destruct q as [|m q]; cbn in Hle; [lia|]. cbn.
  destruct (Dict.get _ idx); [rewrite <-(assoc_L (++))|]; apply IH; lia.
Qed.

Lemma queue_loop_mono fuel fuel' q deps r :
  queue_loop fuel idx q deps = Some r → fuel ≤ fuel' →
  queue_loop fuel' idx q deps = Some r.
Proof.
  revert fuel' q deps. induction fuel as [|fuel IH]; intros fuel' q deps; [done|].
  intros Hr Hle. destruct fuel' as [|fuel']; [lia|]. cbn in *.
  destruct q as [|m q]; [done|].
  destruct (Dict.get _ idx); apply (IH fuel'); (done || lia).
Qed.

(** The loop ends once a level is empty, with the levels recorded in
    order. *)
Lemma queue_loop_terminates k q deps :
  level idx q k = [] →
  ∃ fuel, queue_loop fuel idx q deps = Some (deps ++ visited idx q k).
Proof.
  revert q deps. induction k as [|k IH]; intros q deps Hk.
  - cbn in Hk. subst q. exists 1. cbn. by rewrite app_nil_r.
  - destruct (IH (next_level idx q) (deps ++ recorded idx q) Hk) as [fuel Hfuel].
    exists (length q + fuel).
    pose proof (queue_loop_level fuel q [] deps) as Hlev.
    rewrite app_nil_r in Hlev. rewrite Hlev. cbn [app visited].
    by rewrite Hfuel, <-(assoc_L (++)).
Qed.

(** Conversely, a loop that ends has emptied some level. *)
Lemma queue_loop_Some_level fuel q deps r :
  queue_loop fuel idx q deps = Some r → ∃ k, level idx q k = [].
Proof.
  revert q deps. induction (lt_wf fuel) as [fuel _ IH]. intros q deps Hr.
  destruct q as [|m q]; [by exists 0|].
  destruct (decide (fuel ≤ length (m :: q))) as [Hle|Hgt].
  - rewrite <-(app_nil_r (m :: q)), queue_loop_short in Hr by done. done.
  - pose proof (queue_loop_level (fuel - length (m :: q)) (m :: q) [] deps) as Hlev.
    rewrite app_nil_r in Hlev.
    replace (length (m :: q) + (fuel - length (m :: q))) with fuel in Hlev by lia.
    rewrite Hlev in Hr. apply IH in Hr as [k Hk]; [|cbn in *; lia].
    by exists (S k).
Qed.

(** *** Graphs without a cycle *)

Lemma chain_tc (l : list str) i j m a :
  (∀ i a b, l !! i = Some a → l !! S i = Some b → requires idx a b) →
  i < j → l !! i = Some m → l !! j = Some a → tc (requires idx) m a.
Proof.
  intros Hl Hij Hi Hj. revert a Hj.
  induction Hij as [|j Hij IH]; intros a Hj.
  - apply tc_once. eauto.
  - destruct (lookup_lt_is_Some_2 l j) as [b Hb].
    { apply lookup_lt_Some in Hj. lia. }
    eapply tc_r; eauto.
Qed.

(** A chain of declarations longer than the index passes twice through
    the same module. *)
Lemma long_chain_cycle m a :
  nsteps (requires idx) (S (length idx)) m a → ∃ b, tc (requires idx) b b.
Proof.
  intros (l & Hlen & _ & _ & Hl)%nsteps_list.
  set (keys := (λ b : str, b ++ ".lua") <$> take (S (length idx)) l).
  destruct (list_pigeonhole keys (Dict.keys idx)) as (i & j & k & Hij & Hi & Hj).
  - intros k (b & -> & Hb)%list_elem_of_fmap.
    apply list_elem_of_lookup in Hb as [i Hi].
    apply lookup_take_Some in Hi as [Hi Hlt].
    destruct (lookup_lt_is_Some_2 l (S i)) as [c Hc]; [lia|].
    destruct (Hl _ _ _ Hi Hc) as (va & Hva & _).
    clear -Hva. induction idx as [|[k v] d IH]; [done|].
    cbn in *. case_decide; [subst; left|right; auto].
  - unfold keys, Dict.keys. rewrite !length_fmap, length_take. lia.
  - unfold keys in Hi, Hj. rewrite list_lookup_fmap in Hi, Hj.
    destruct (take _ l !! i) as [b|] eqn:Hb; [|done].
    destruct (take _ l !! j) as [c|] eqn:Hc; [|done].
    cbn in Hi, Hj. assert (b = c) as <-.
    { apply (app_inv_tail (list_ascii_of_string ".lua")). cbn. congruence. }
    apply lookup_take_Some in Hb as [Hb _], Hc as [Hc _].
    exists b. eauto using chain_tc.
Qed.

Lemma acyclic_level_nil q : acyclic idx → level idx q (S (length idx)) = [].
Proof.
  intros Hacyc. destruct (level idx q (S (length idx))) as [|a l] eqn:Hl; [done|].
  assert (a ∈ level idx q (S (length idx))) as Ha by (rewrite Hl; left).
  apply elem_of_level in Ha as (m & _ & [b Hb]%long_chain_cycle).
  by destruct (Hacyc b).
Qed.

(** *** A cycle that the walk reaches *)

Lemma cycle_level_not_nil start m k :
  rtc (requires idx) start m → tc (requires idx) m m →
  level idx [start] k ≠ [].
Proof.
  intros [j Hj]%rtc_nsteps (c & Hc & Hcyc)%tc_nsteps Hk.
  assert (∀ i, nsteps (requires idx) (i * c) m m) as Hloop.
  { induction i as [|i IH]; [constructor|]. cbn. eauto using nsteps_trans. }
  assert (m ∈ level idx [start] (j + k * c)) as Hm.
  { apply elem_of_level. exists start. split; [left|].
    eauto using nsteps_trans. }
  rewrite (level_nil_le _ k) in Hm; [by apply elem_of_nil in Hm|done|nia].
Qed.

Lemma queue_loop_cycle_diverges start m fuel :
  rtc (requires idx) start m → tc (requires idx) m m →
  queue_loop fuel idx [start] [] = None.
Proof.
  intros Hm Hcyc. destruct (queue_loop _ _ _ _) as [r|] eqn:Hr; [|done].
  apply queue_loop_Some_level in Hr as [k Hk].
  by destruct (cycle_level_not_nil start m k).
Qed.
End closure.

(** *** Acyclic examples *)

Lemma ranked_acyclic (idx : index) (rank : str → nat) :
  (∀ m a, requires idx m a → rank a < rank m) → acyclic idx.
Proof.
  intros Hrank m Hm.
  assert (∀ a b, tc (requires idx) a b → rank b < rank a) as Htc.
  { induction 1 as [a b Hab|a b c Hab _ IH]; [eauto|].
    apply Hrank in Hab. lia. }
  apply Htc in Hm. lia.
Qed.

(** The name of a module from the key of its entry. *)
Lemma key_inv (m : str) (name : string) :
  m ++ ".lua" = list_ascii_of_string name ++ ".lua" → m = name.
Proof. apply app_inv_tail. Qed.

Lemma diamond_acyclic : acyclic diamond_index.
Proof.
  apply (ranked_acyclic _ diamond_rank). intros m a (va & Hva & Ha).
  unfold diamond_index in Hva. cbn [Dict.get] in Hva.
  repeat match type of Hva with
  | (if decide (?k = list_ascii_of_string ?n) then _ else _) = _ =>
      destruct (decide (k = list_ascii_of_string n)) as [Hk|_];
      [apply (key_inv m (String.substring 0 1 n)) in Hk; subst m;
       injection Hva as <-;
       cbn in Ha; repeat (apply elem_of_cons in Ha as [->|Ha]);
       [vm_compute; lia..|by apply elem_of_nil in Ha]|]
  end.
  done.
Qed.

(** C1.  The walk on the index in which A requires B and B requires A never
    comes to an end: whatever the fuel, the loop of [extract_dependencies]
    started from A is still running when the fuel is spent, so no list is
    returned. *)
Theorem extract_dependencies_cycle_diverges :
  ∀ fuel, extract_dependencies fuel "A" cyclic_index = None.
Proof.
  intros fuel. unfold extract_dependencies.
  apply (queue_loop_cycle_diverges _ _ (seed "A")); [done|].
  assert (requires cyclic_index "A" "B") as HAB.
  { eexists. split; [reflexivity|]. vm_compute. left. }
  assert (requires cyclic_index "B" "A") as HBA.
  { eexists. split; [reflexivity|]. vm_compute. left. }
  change (seed "A") with (list_ascii_of_string "A").
  eapply tc_l; [apply HAB|]. by apply tc_once.
Qed.

(** C2 as stated fails: in the index in which A requires B and C, and B and
    C both require D, no module requires itself, and the list returned for A
    holds D twice. *)
Lemma extract_dependencies_diamond_duplicate :
  acyclic diamond_index
  ∧ extract_dependencies 12 "A" diamond_index
    = Some ["A" : str; "B" : str; "C" : str; "D" : str; "D" : str]
  ∧ ¬ NoDup ["A" : str; "B" : str; "C" : str; "D" : str; "D" : str].
Proof.
  split; [apply diamond_acyclic|]. split; [by vm_compute|].
  intros Hnd. do 3 apply NoDup_cons_1_2 in Hnd.
  apply NoDup_cons_1_1 in Hnd. apply Hnd. left.
Qed.

(** C2, amended.  When no module requires itself through the index, the walk
    of [extract_dependencies] comes to an end, with the same list for every
    sufficient fuel, and the names in that list are exactly the modules that
    have an entry in the index and are reached from the seed along the
    declarations of the index (a name may be listed more than once). *)
Theorem extract_dependencies_acyclic (idx : index) (unique : str) :
  acyclic idx →
  ∃ fuel r,
    extract_dependencies fuel unique idx = Some r
    ∧ (∀ fuel' r', extract_dependencies fuel' unique idx = Some r' → r' = r)
    ∧ (∀ m, m ∈ r ↔ reachable idx (seed unique) m).
Proof.
  intros Hacyc. unfold extract_dependencies.
  pose proof (acyclic_level_nil idx [seed unique] Hacyc) as Hnil.
  destruct (queue_loop_terminates idx _ _ [] Hnil) as [fuel Hfuel].
  cbn [app] in Hfuel. eexists fuel, _. split; [exact Hfuel|]. split.
  - intros fuel' r' Hr'.
    apply (queue_loop_mono _ _ (fuel `max` fuel')) in Hfuel; [|lia].
    apply (queue_loop_mono _ _ (fuel `max` fuel')) in Hr'; [|lia]. congruence.
  - intros m. rewrite elem_of_visited. unfold reachable. split.
    + intros (i & _ & (s & ->%list_elem_of_singleton & Hs)%elem_of_level & Hm).
      split; [by eapply rtc_nsteps_2|done].
    + intros [[i Hi]%rtc_nsteps Hm].
      assert (m ∈ level idx [seed unique] i) as Hin.
      { apply elem_of_level. exists (seed unique). split; [left|done]. }
      exists i. split_and!; [|done..].
      destruct (decide (i < S (length idx))) as [|Hge]; [done|].
      rewrite (level_nil_le idx _ (S (length idx)) i) in Hin; [|done|lia].
      by apply elem_of_nil in Hin.
Qed.

Lemma extract_dependencies_acyclic_witness :
  ∃ fuel r,
    extract_dependencies fuel "A" diamond_index = Some r
    ∧ (∀ fuel' r', extract_dependencies fuel' "A" diamond_index = Some r' → r' = r)
    ∧ (∀ m, m ∈ r ↔ reachable diamond_index (seed "A") m).
Proof. apply extract_dependencies_acyclic, diamond_acyclic. Defined.

(** C5 as stated fails: the seed of [a.b.c] is its second segment [b], not
    its last segment [c], and on an index that has an entry for [c] only the
    two walks differ. *)
Lemma seed_three_segments :
  seed "a.b.c" = "b"
  ∧ extract_dependencies 3 "a.b.c" [("c.lua" : str, [("d" : str, "lib.d" : str)])] = Some []
  ∧ extract_dependencies 3 "c" [("c.lua" : str, [("d" : str, "lib.d" : str)])]
    = Some ["c" : str].
Proof. by vm_compute. Qed.

(** C5, amended.  The walk is seeded with the second dotted segment of the
    start alias: an alias without a dot is used unchanged, [a.b] is seeded
    with [b] (its last segment), and [a.b.rest] is seeded with [b] as well,
    whatever follows the second dot. *)
Theorem seed_second_segment (a b rest : str) (fuel : nat) (idx : index) :
  dot ∉ a → dot ∉ b →
  seed a = a
  ∧ seed (a ++ "." ++ b) = b
  ∧ seed (a ++ "." ++ b ++ "." ++ rest) = b
  ∧ extract_dependencies fuel (a ++ "." ++ b ++ "." ++ rest) idx
    = extract_dependencies fuel b idx.
Proof.
  intros Ha Hb.
  assert (seed (a ++ "." ++ b ++ "." ++ rest) = b) as Hrest.
  { rewrite seed_qualified by done. cbn [list_ascii_of_string app].
    by rewrite split_app_sep. }
  split_and!; [by apply seed_unqualified| |done|].
  - rewrite seed_qualified by done. by rewrite split_no_sep.
  - unfold extract_dependencies. by rewrite Hrest, seed_unqualified.
Qed.

Lemma seed_second_segment_witness :
  seed "Widget" = "Widget"
  ∧ seed ("Widget" ++ "." ++ "make") = "make"
  ∧ seed ("Widget" ++ "." ++ "make" ++ "." ++ "x") = "make"
  ∧ extract_dependencies 3 ("Widget" ++ "." ++ "make" ++ "." ++ "x") diamond_index
    = extract_dependencies 3 "make" diamond_index.
Proof.
  apply (seed_second_segment "Widget" "make" "x" 3 diamond_index);
    apply (bool_decide_unpack _); by vm_compute.
Defined.

(** ** File-system frames *)

Lemma bind_unfold {A B} (m : M A) (f : A → M B) (w : world) :
  (m ≫= f) w = match m w with
               | (Ok a, w') => f a w'
               | (Raise e, w') => (Raise e, w')
               | (Diverge, w') => (Diverge, w')
               end.
Proof. reflexivity. Qed.

Lemma mret_unfold {A} (a : A) (w : world) : mret (M:=M) a w = (Ok a, w).
Proof. reflexivity. Qed.

Section frames.
Context {A B : Type}.
Implicit Types w : world.

Lemma unchanged_refl w : unchanged w w.
Proof. by repeat split. Qed.

Lemma unchanged_trans w1 w2 w3 : unchanged w1 w2 → unchanged w2 w3 → unchanged w1 w3.
Proof. intros (?&?&?) (?&?&?). repeat split; congruence. Qed.

Lemma unchanged_kept w w' : unchanged w w' → kept w w'.
Proof. intros (Hf&_) p c Hp. exists []. by rewrite Hf, app_nil_r. Qed.

Lemma appended_kept w w' path text : appended w w' path text → kept w w'.
Proof.
  intros (Hf&_) p c Hp. rewrite Hf. destruct (decide (path = p)) as [->|Hne].
  - rewrite lookup_insert_eq, Hp. by eexists.
  - rewrite lookup_insert_ne by done. exists []. by rewrite app_nil_r.
Qed.

Lemma reads_mret (a : A) : reads (mret a).
Proof. intros w. apply unchanged_refl. Qed.

Lemma reads_raise e : reads (raise (A:=A) e).
Proof. intros w. apply unchanged_refl. Qed.

Lemma reads_run_walk (r : option A) : reads (run_walk r).
Proof. intros w. destruct r; apply unchanged_refl. Qed.

Lemma reads_bind (m : M A) (f : A → M B) :
  reads m → (∀ a, reads (f a)) → reads (m ≫= f).
Proof.
  intros Hm Hf w. rewrite bind_unfold. specialize (Hm w).
  destruct (m w) as [[a|e|] w']; [|done..].
  eapply unchanged_trans; [done|apply Hf].
Qed.

Lemma reads_for_each (l : list A) (body : B → A → M B) b :
  (∀ b a, reads (body b a)) → reads (for_each l body b).
Proof.
  intros Hbody. revert b. induction l as [|a l IH]; intros b; cbn [for_each].
  - intros w. apply unchanged_refl.
  - intros w. rewrite bind_unfold. specialize (Hbody b a w).
    destruct (body b a w) as [[b'|e|] w']; [|done..].
    eapply unchanged_trans; [done|apply IH].
Qed.
End frames.

Lemma reads_read_lua_file file_path : reads (read_lua_file file_path).
Proof.
  intros w. unfold read_lua_file. repeat case_match; apply unchanged_refl.
Qed.

Lemma reads_os_path_exists path : reads (os_path_exists path).
Proof. intros w. apply unchanged_refl. Qed.

Lemma reads_os_path_isdir path : reads (os_path_isdir path).
Proof. intros w. apply unchanged_refl. Qed.

Lemma reads_os_walk folder : reads (os_walk folder).
Proof. intros w. apply unchanged_refl. Qed.

Lemma reads_print line : reads (print line).
Proof. intros w. by repeat split. Qed.

Lemma reads_inv {A} (m : M A) w o w' : reads m → m w = (o, w') → unchanged w w'.
Proof. intros Hm Hw. specialize (Hm w). by rewrite Hw in Hm. Qed.

Lemma reads_second_segment s : reads (second_segment s).
Proof. unfold second_segment. case_match; [apply reads_mret|apply reads_raise]. Qed.

Create HintDb reads discriminated.
#[global] Hint Resolve reads_mret reads_raise reads_run_walk reads_read_lua_file
  reads_os_path_exists reads_os_path_isdir reads_os_walk reads_print
  reads_second_segment : reads.

(** The loops and branches of a reading computation read. *)
Ltac solve_reads :=
  repeat first
    [ progress intros
    | solve [auto with reads]
    | apply reads_bind
    | apply reads_for_each
    | case_match ].

Lemma reads_parse_transmitting_dependency list_set parent_folder depen_dic dependencies_obj :
  reads (parse_transmitting_dependency list_set parent_folder depen_dic dependencies_obj).
Proof. unfold parse_transmitting_dependency. solve_reads. Qed.
#[global] Hint Resolve reads_parse_transmitting_dependency : reads.

Lemma reads_resolve_reference list_set fuel parent_folder reference dependencies_obj
    sub_destination folder_flag extract_depen_obj unique :
  reads (resolve_reference list_set fuel parent_folder reference dependencies_obj
           sub_destination folder_flag extract_depen_obj unique).
Proof.
  unfold resolve_reference. solve_reads.
Qed.
#[global] Hint Resolve reads_resolve_reference : reads.

Lemma reads_resolve_all list_set fuel parent_folder dependencies_obj code_content
    dependencies_array :
  reads (resolve_all list_set fuel parent_folder dependencies_obj code_content
           dependencies_array).
Proof.
  unfold resolve_all. solve_reads.
Qed.

Lemma reads_scan_tree listing : reads (scan_tree listing).
Proof. unfold scan_tree. solve_reads. Qed.

Lemma reads_combine_functions extract_depen_obj :
  reads (combine_functions extract_depen_obj).
Proof. unfold combine_functions. solve_reads. Qed.
#[global] Hint Resolve reads_resolve_all reads_scan_tree reads_combine_functions
  : reads.

(** ** Writing *)

Lemma kept_refl w : kept w w.
Proof. apply unchanged_kept, unchanged_refl. Qed.

Lemma kept_trans w1 w2 w3 : kept w1 w2 → kept w2 w3 → kept w1 w3.
Proof.
  intros H12 H23 p c Hp. destruct (H12 p c Hp) as [t Ht].
  destruct (H23 p _ Ht) as [t' Ht']. exists (t ++ t').
  by rewrite (assoc_L (++)).
Qed.

Lemma appended_unchanged_l w0 w w' path text :
  unchanged w0 w → appended w w' path text → appended w0 w' path text.
Proof. intros (Hf&Hd&Hw) (Hf'&Hd'&Hw'). repeat split; congruence. Qed.

Lemma appended_unchanged_r w w' w'' path text :
  appended w w' path text → unchanged w' w'' → appended w w'' path text.
Proof. intros (Hf&Hd&Hw) (Hf'&Hd'&Hw'). repeat split; congruence. Qed.

Lemma read_lua_file_Some file_path content w :
  files w !! file_path = Some content →
  read_lua_file file_path w = (Ok content, w).
Proof. intros Hf. unfold read_lua_file. by rewrite Hf. Qed.

Lemma read_lua_file_Ok file_path content w w' :
  read_lua_file file_path w = (Ok content, w') →
  files w !! file_path = Some content ∧ w' = w.
Proof.
  unfold read_lua_file. destruct (files w !! file_path); [|by case_decide].
  by intros [= -> ->].
Qed.

(** What [write_files] does: the text is added at the end of the file, and
    nothing else changes; on a directory it raises and changes nothing. *)
Lemma write_files_Ok file_path content w :
  file_path ∉ dirs w →
  ∃ w', write_files file_path content w = (Ok (), w')
        ∧ appended w w' file_path content.
Proof.
  intros Hd. unfold write_files. rewrite decide_False by done.
  eexists. split; [done|]. by repeat split.
Qed.

Lemma write_files_cases file_path content w :
  (∃ w', write_files file_path content w = (Ok (), w')
         ∧ appended w w' file_path content)
  ∨ write_files file_path content w = (Raise (IsADirectoryError file_path), w).
Proof.
  destruct (decide (file_path ∈ dirs w)) as [Hd|Hd].
  - right. unfold write_files. by rewrite decide_True.
  - left. by apply write_files_Ok.
Qed.

Section bundling.
Context (list_set : list str → list str).
Context (json_loads : str → option index) (json_dumps : index → str).

(** [generate_new_combine_lua] either writes nothing, or ends by adding one
    bundle at the end of the bundle file. *)
Lemma generate_new_combine_lua_cases parent_folder sub_folder filename
    extract_depen_obj w :
  let r := generate_new_combine_lua parent_folder sub_folder filename
             extract_depen_obj w in
  (r.1 ≠ Ok () ∧ unchanged w r.2)
  ∨ (r.1 = Ok () ∧ ∃ combine_code original_code,
       files w !! (parent_folder ++ "/" ++ sub_folder ++ "/" ++ filename)
       = Some original_code
       ∧ appended w r.2 (bundle_path parent_folder sub_folder filename)
           (bundle_text combine_code original_code)).
Proof.
  cbv zeta. unfold generate_new_combine_lua. rewrite bind_unfold.
  destruct (read_lua_file _ w) as [[original_code|e|] w1] eqn:Hread.
  2,3: left; split; [done|]; (eapply reads_inv; [|exact Hread]); solve_reads.
  apply read_lua_file_Ok in Hread as [Horig ->]. rewrite bind_unfold.
  destruct (combine_functions _ w) as [[combine_code|e|] w1] eqn:Hcombine.
  2,3: left; split; [done|]; (eapply reads_inv; [|exact Hcombine]);
       apply reads_combine_functions.
  assert (unchanged w w1) as Hw1
    by (eapply reads_inv; [|exact Hcombine]; apply reads_combine_functions).
  destruct (write_files_cases (bundle_path parent_folder sub_folder filename)
              (bundle_text combine_code original_code) w1)
    as [(w2 & Hw & Happ)|Hw]; unfold bundle_path in *; rewrite Hw.
  - right. split; [done|]. exists combine_code, original_code. split; [done|].
    by eapply appended_unchanged_l.
  - left. by split.
Qed.

Lemma kept_generate_new_combine_lua parent_folder sub_folder filename
    extract_depen_obj w :
  kept w (generate_new_combine_lua parent_folder sub_folder filename
            extract_depen_obj w).2.
Proof.
  destruct (generate_new_combine_lua_cases parent_folder sub_folder filename
              extract_depen_obj w) as [[_ Hw]|[_ (c & o & _ & Hw)]].
  - by apply unchanged_kept.
  - eapply appended_kept, Hw.
Qed.

Lemma kept_get_target_code fuel parent_folder sub_folder filename
    dependencies_file w :
  kept w (get_target_code list_set json_loads fuel parent_folder sub_folder
            filename dependencies_file w).2.
Proof.
  unfold get_target_code. cbv zeta. rewrite bind_unfold.
  destruct (read_lua_file dependencies_file w)
    as [[dependencies_content|e|] w1] eqn:Hread.
  2,3: apply unchanged_kept; (eapply reads_inv; [|exact Hread]); solve_reads.
  apply read_lua_file_Ok in Hread as [_ ->].
  destruct (json_loads _) as [dependencies_obj|]; [|apply kept_refl].
  destruct (negb _); [apply unchanged_kept, reads_print|].
  rewrite bind_unfold.
  destruct (read_lua_file _ w) as [[code_content|e|] w1] eqn:Hcode.
  2,3: apply unchanged_kept; (eapply reads_inv; [|exact Hcode]); solve_reads.
  apply read_lua_file_Ok in Hcode as [_ ->]. rewrite bind_unfold.
  destruct (resolve_all _ _ _ _ _ _ w) as [[extract_depen_obj|e|] w1] eqn:Hres.
  2,3: apply unchanged_kept; (eapply reads_inv; [|exact Hres]); solve_reads.
  eapply kept_trans; [|apply kept_generate_new_combine_lua].
  apply unchanged_kept. eapply reads_inv; [|exact Hres]. solve_reads.
Qed.

(** [generate_dependency_json] either writes nothing, or ends by adding the
    text of the scanned index at the end of the output file. *)
Lemma generate_dependency_json_cases folder output_file w :
  let r := generate_dependency_json json_dumps folder output_file w in
  (r.1 ≠ Ok () ∧ unchanged w r.2)
  ∨ (r.1 = Ok () ∧ ∃ requirement_local w1,
       scan_tree (walk w folder) w = (Ok requirement_local, w1)
       ∧ appended w r.2 output_file (json_dumps requirement_local)).
Proof.
  cbv zeta. unfold generate_dependency_json. rewrite bind_unfold.
  change (os_walk folder w) with (Ok (walk w folder), w). cbv iota.
  rewrite bind_unfold.
  destruct (scan_tree _ w) as [[requirement_local|e|] w1] eqn:Hscan.
  2,3: left; split; [done|]; (eapply reads_inv; [|exact Hscan]); solve_reads.
  assert (unchanged w w1) as Hw1
    by (eapply reads_inv; [|exact Hscan]; solve_reads).
  rewrite bind_unfold.
  destruct (write_files_cases output_file (json_dumps requirement_local) w1)
    as [(w2 & Hw & Happ)|Hw]; rewrite Hw.
  - right. split; [done|]. exists requirement_local, w1. split; [done|].
    eapply appended_unchanged_l; [done|].
    eapply appended_unchanged_r; [done|]. apply reads_print.
  - left. by split.
Qed.
End bundling.

(** C10.  [write_files] adds the text at the end of the file (starting from
    the empty text when the file is new) and changes no other file; each of
    the operations that write, [generate_dependency_json],
    [generate_new_combine_lua] and [get_target_code], leaves every file that
    existed in place with its former content at the front, whatever the
    outcome; and when [generate_dependency_json] or
    [generate_new_combine_lua] succeeds, the index text or the bundle is what
    has been added at the end of the output file. *)
Theorem write_files_append_only (list_set : list str → list str)
    (json_loads : str → option index) (json_dumps : index → str) :
  (∀ file_path content w,
     file_path ∉ dirs w →
     ∃ w', write_files file_path content w = (Ok (), w')
           ∧ files w' !! file_path
             = Some (default [] (files w !! file_path) ++ content)
           ∧ ∀ p, p ≠ file_path → files w' !! p = files w !! p)
  ∧ (∀ folder output_file w,
       let r := generate_dependency_json json_dumps folder output_file w in
       kept w r.2
       ∧ (r.1 = Ok () →
          ∃ requirement_local,
            appended w r.2 output_file (json_dumps requirement_local)))
  ∧ (∀ parent_folder sub_folder filename extract_depen_obj w,
       let r := generate_new_combine_lua parent_folder sub_folder filename
                  extract_depen_obj w in
       kept w r.2
       ∧ (r.1 = Ok () →
          ∃ combine_code original_code,
            appended w r.2 (bundle_path parent_folder sub_folder filename)
              (bundle_text combine_code original_code)))
  ∧ (∀ fuel parent_folder sub_folder filename dependencies_file w,
       kept w (get_target_code list_set json_loads fuel parent_folder
                 sub_folder filename dependencies_file w).2).
Proof.
  split_and!.
  - intros file_path content w Hd.
    destruct (write_files_Ok file_path content w Hd) as (w' & Hw & Hf & _).
    exists w'. split; [done|]. rewrite Hf. split.
    + apply lookup_insert_eq.
    + intros p Hp. by apply lookup_insert_ne.
  - intros folder output_file w.
    destruct (generate_dependency_json_cases json_dumps folder output_file w)
      as [[Hr Hw]|[Hr (d & w1 & _ & Hw)]]; cbv zeta.
    + split; [by apply unchanged_kept|done].
    + split; [eapply appended_kept, Hw|eauto].
  - intros parent_folder sub_folder filename extract_depen_obj w.
    destruct (generate_new_combine_lua_cases parent_folder sub_folder filename
                extract_depen_obj w) as [[Hr Hw]|[Hr (c & o & _ & Hw)]]; cbv zeta.
    + split; [by apply unchanged_kept|done].
    + split; [eapply appended_kept, Hw|eauto].
  - apply kept_get_target_code.
Qed.


Lemma write_files_append_only_witness :
  ∃ w', write_files "proj/deps.json" (json_text []) plain_world = (Ok (), w')
        ∧ files w' !! ("proj/deps.json" : str)
          = Some (default [] (files plain_world !! ("proj/deps.json" : str))
                  ++ json_text [])
        ∧ ∀ p : str, p ≠ "proj/deps.json" → files w' !! p = files plain_world !! p.
Proof.
  apply (proj1 (write_files_append_only remove_dups (json_table []) json_text)).
  apply (bool_decide_unpack _). vm_compute. exact I.
Defined.

(** ** Bundling a target *)

Section target.
Context (list_set : list str → list str) `{!SetOrder list_set}.
Context (json_loads : str → option index).

Lemma list_set_nil : list_set [] = [].
Proof. apply Permutation_nil_r. by rewrite set_order. Qed.

(** Entries whose alias is never referenced leave the map empty. *)
Lemma resolve_all_no_reference fuel parent_folder dependencies_obj code_content
    dependencies_array extract_depen_obj w :
  (∀ entry, entry ∈ dependencies_array →
            find_references code_content entry.1 = []) →
  for_each dependencies_array (λ extract_depen_obj entry,
    let module := entry.1 in
    let reference := entry.2 in
    let reference_functions := find_references code_content module in
    let unique_functions := list_set reference_functions in
    let sub_destination := parent_folder ++ "/" ++ Py.replace "." "/" reference in
    folder_flag ← os_path_isdir sub_destination;
    for_each unique_functions
      (resolve_reference list_set fuel parent_folder reference dependencies_obj
         sub_destination folder_flag)
      extract_depen_obj)
    extract_depen_obj w
  = (Ok extract_depen_obj, w).
Proof.
  induction dependencies_array as [|entry arr IH]; intros Hno; [done|].
  cbn [for_each]. rewrite bind_unfold. cbv zeta.
  rewrite (Hno entry) by left. rewrite list_set_nil. cbn [for_each].
  rewrite bind_unfold. unfold os_path_isdir at 1. cbv iota beta.
  rewrite mret_unfold. cbv iota.
  apply IH. intros e He. apply Hno. by right.
Qed.
End target.

(** C9 as stated fails: the only module of the project declares no
    requirement, the scanner records nothing for it, and [get_target_code]
    returns after printing its message; there is no bundle. *)
Lemma get_target_code_plain_no_bundle :
  extract_local_requirements "print(1)" = []
  ∧ (scan_tree (walk plain_world "proj") plain_world).1 = Ok []
  ∧ let r := get_target_code remove_dups (json_table [[]]) 1
               "proj" "app" "main.lua" "proj/deps.json" plain_world in
    r.1 = Ok ()
    ∧ files r.2 !! ("proj/app/main_new.lua" : str) = None
    ∧ stdout r.2 = [no_dependencies_message].
Proof. cbv zeta. split_and!; vm_compute; reflexivity. Qed.

(** C9, amended.  Let the index file hold a text from which [json.loads],
    after [rstrip], gives the index, and let [list(set(...))] give the
    distinct elements of a list in some order.  When the index has no entry
    for the target's file name, whether or not the target declares
    requirements, [get_target_code] prints its message and writes nothing.
    When the index has an entry for it, the target file can be read, its
    source refers to none of the aliases of that entry and no directory
    stands at the path of the bundle, the run ends well and what is added at
    the end of the bundle file is the text of the template around an empty
    prologue and the target's source; no other file changes. *)
Theorem get_target_code_empty_prologue (list_set : list str → list str)
    (json_loads : str → option index) (fuel : nat)
    (parent_folder sub_folder filename dependencies_file : str)
    (dependencies_content : str) (dependencies_obj : index) (w : world) :
  SetOrder list_set →
  files w !! dependencies_file = Some dependencies_content →
  json_loads (Py.rstrip dependencies_content) = Some dependencies_obj →
  (Dict.get filename dependencies_obj = None →
   get_target_code list_set json_loads fuel parent_folder sub_folder filename
     dependencies_file w
   = (Ok (), World (files w) (dirs w) (walk w)
               (stdout w ++ [no_dependencies_message])))
  ∧ (∀ dependencies_array code_content,
       Dict.get filename dependencies_obj = Some dependencies_array →
       files w !! (parent_folder ++ "/" ++ sub_folder ++ "/" ++ filename)
       = Some code_content →
       (∀ entry, entry ∈ dependencies_array →
                 find_references code_content entry.1 = []) →
       bundle_path parent_folder sub_folder filename ∉ dirs w →
       ∃ w', get_target_code list_set json_loads fuel parent_folder sub_folder
               filename dependencies_file w = (Ok (), w')
             ∧ appended w w' (bundle_path parent_folder sub_folder filename)
                 (bundle_text [] code_content)).
Proof.
  intros Hset Hdeps Hjson. split.
  - intros Hnone. unfold get_target_code. cbv zeta.
    rewrite bind_unfold, (read_lua_file_Some _ _ _ Hdeps). cbv iota.
    rewrite Hjson. unfold Dict.mem. rewrite Hnone.
    rewrite bool_decide_eq_false_2 by by intros [? ?]. done.
  - intros dependencies_array code_content Hsome Hcode Hno Hdir.
    unfold get_target_code. cbv zeta.
    rewrite bind_unfold, (read_lua_file_Some _ _ _ Hdeps). cbv iota.
    rewrite Hjson. unfold Dict.mem. rewrite Hsome.
    rewrite bool_decide_eq_true_2 by by eexists. cbn [negb default].
    rewrite bind_unfold, (read_lua_file_Some _ _ _ Hcode). cbv iota.
    rewrite bind_unfold. unfold resolve_all.
    rewrite (resolve_all_no_reference list_set) by done. cbv iota.
    unfold generate_new_combine_lua. cbv zeta.
    rewrite bind_unfold, (read_lua_file_Some _ _ _ Hcode). cbv iota.
    rewrite bind_unfold. unfold combine_functions. cbn [Dict.keys fmap list_fmap for_each].
    rewrite mret_unfold. cbv iota.
    by apply write_files_Ok.
Qed.

Lemma get_target_code_empty_prologue_witness :
  get_target_code remove_dups (json_table [[]]) 1 "proj" "app" "main.lua"
    "proj/deps.json" plain_world
  = (Ok (), World (files plain_world) (dirs plain_world) (walk plain_world)
              (stdout plain_world ++ [no_dependencies_message]))
  ∧ ∃ w', get_target_code remove_dups (json_table [unused_index]) 1 "proj" "app"
            "main.lua" "proj/deps.json" unused_world = (Ok (), w')
          ∧ appended unused_world w' (bundle_path "proj" "app" "main.lua")
              (bundle_text [] unused_code).
Proof.
  split.
  - apply (get_target_code_empty_prologue remove_dups (json_table [[]]) 1
             "proj" "app" "main.lua" "proj/deps.json" (json_text []) []
             plain_world); first [reflexivity | vm_compute; reflexivity].
  - eapply (get_target_code_empty_prologue remove_dups (json_table [unused_index]) 1
              "proj" "app" "main.lua" "proj/deps.json" (json_text unused_index)
              unused_index unused_world).
    + intros l. reflexivity.
    + vm_compute; reflexivity.
    + vm_compute; reflexivity.
    + reflexivity.
    + vm_compute; reflexivity.
    + intros entry ->%list_elem_of_singleton. vm_compute; reflexivity.
    + apply (bool_decide_unpack _). vm_compute. exact I.
Defined.

(** C3.  In the project in which the target calls [http.get] (module
    [lib.http] required as [http]) and [lib.http] (module [lib] required as
    [lib]), the first entry puts [http.get] in the set of the file
    [proj/lib/http.lua]; the second one, whose closure is not empty because
    [http] has an entry in the index, assigns the empty list to the same file
    (line 275).  The function recorded first is lost, and the bundle has an
    empty prologue although [proj/lib/http.lua] defines [http.get]. *)
Theorem resolve_all_resets_entry :
  (resolve_all remove_dups 3 "proj" shadow_index shadow_code
     [("http" : str, "lib.http" : str)] shadow_world).1
  = Ok [("proj/lib/http.lua" : str, [("http.get" : str)])]
  ∧ (resolve_all remove_dups 3 "proj" shadow_index shadow_code
       [("http" : str, "lib.http" : str); ("lib" : str, "lib" : str)] shadow_world).1
    = Ok [("proj/lib/http.lua" : str, [])]
  ∧ let r := get_target_code remove_dups (json_table [shadow_index]) 3
               "proj" "app" "main.lua" "proj/deps.json" shadow_world in
    r.1 = Ok ()
    ∧ files r.2 !! ("proj/app/main_new.lua" : str)
      = Some (bundle_text [] shadow_code).
Proof. cbv zeta. split_and!; vm_compute; reflexivity. Qed.

(** C4.  The target calls [lib.http]; the closure of [http] holds [http] and
    [socket], the entry of [http] names [net.socket] as [socket], [socket]
    has an entry in the index, and the file [proj/net/socket.lua] is not
    there: [parse_transmitting_dependency] reads it without looking whether
    it exists (line 156) and [get_target_code] ends with the exception.  With
    the same files and an index without an entry for [socket], the other
    branch looks first (line 163), skips the file, and a bundle is written. *)
Theorem get_target_code_missing_dependency_raises :
  files (missing_world missing_index) !! ("proj/net/socket.lua" : str) = None
  ∧ (get_target_code remove_dups (json_table [missing_index]) 4
       "proj" "app" "main.lua" "proj/deps.json" (missing_world missing_index)).1
    = Raise (FileNotFoundError "proj/net/socket.lua")
  ∧ let r := get_target_code remove_dups (json_table [leaf_index]) 4
               "proj" "app" "main.lua" "proj/deps.json" (missing_world leaf_index) in
    r.1 = Ok ()
    ∧ files r.2 !! ("proj/app/main_new.lua" : str)
      = Some (bundle_text [] "lib.http(2)").
Proof. cbv zeta. split_and!; vm_compute; reflexivity. Qed.

(** ** The matcher *)

Section prefix.
Implicit Types l s r a b : str.

Lemma strip_prefix_app l s : Py.strip_prefix l (l ++ s) = Some s.
Proof.
  induction l as [|x l IH]; [done|]. cbn.
  by rewrite bool_decide_eq_true_2.
Qed.

Lemma strip_prefix_Some l s r : Py.strip_prefix l s = Some r → s = l ++ r.
Proof.
  revert s. induction l as [|x l IH]; intros s; cbn; [by intros [= ->]|].
  destruct s as [|y s]; [done|]. case_bool_decide; [|done].
  intros ->%IH. by subst.
Qed.

Lemma strip_prefix_head x l y s :
  x ≠ y → Py.strip_prefix (x :: l) (y :: s) = None.
Proof. intros Hxy. cbn. by rewrite bool_decide_eq_false_2. Qed.

(** A text found at the start of [a ++ b] is found in [a], or runs past the
    end of [a]. *)
Lemma strip_prefix_app_inv l a b r :
  Py.strip_prefix l (a ++ b) = Some r →
  (∃ r', Py.strip_prefix l a = Some r') ∨ (∃ l', l = a ++ l' ∧ l' ≠ []).
Proof.
  revert a. induction l as [|x l IH]; intros a; [left; by eexists|].
  destruct a as [|y a]; [right; by exists (x :: l)|].
  cbn. case_bool_decide as Hxy; [|done]. subst y.
  intros [[r' Hr']|(l' & -> & Hl')]%IH; [left; by eexists|right; by exists l'].
Qed.

Lemma contains_false_split l a1 a2 :
  Py.contains l (a1 ++ a2) = false → Py.strip_prefix l a2 = None.
Proof.
  induction a1 as [|x a1 IH]; cbn [app].
  - destruct a2; cbn; by case_match.
  - cbn [Py.contains]. case_match; [done|]. apply IH.
Qed.
End prefix.

Section bol.
Lemma bol_after_cons bol x u : Re.bol_after bol (x :: u) = Re.bol_after (is_nl x) u.
Proof.
  unfold Re.bol_after. destruct u as [|y u]; [done|].
  rewrite last_cons_cons. destruct (last (y :: u)) eqn:Hlast; [done|].
  by apply last_None in Hlast.
Qed.

Lemma bol_after_app bol u v :
  Re.bol_after bol (u ++ v) = Re.bol_after (Re.bol_after bol u) v.
Proof.
  revert bol. induction u as [|x u IH]; intros bol; [done|].
  cbn [app]. by rewrite !bol_after_cons, IH.
Qed.

End bol.

(** *** Repetitions *)

Section rep.
Context (c : ascii → bool) (k : bool → str → option Re.found).
Implicit Types u v s t : str.

Lemma stop_sound min bol s chunks rest :
  Re.stop k min bol s = Some (chunks, rest) →
  ∃ chunks', min = 0 ∧ k bol s = Some (chunks', rest) ∧ chunks = [] :: chunks'.
Proof.
  destruct min; cbn; [|done].
  destruct (k bol s) as [[??]|]; cbn; [|done]. intros [= <- <-]. eauto.
Qed.

(** Whatever a repetition returns is what the rest of the pattern returns
    after some characters of the class. *)
Lemma rep_sound greedy min bol s chunks rest :
  Re.rep c greedy k min bol s = Some (chunks, rest) →
  ∃ u s' chunks',
    s = u ++ s' ∧ Forall (λ x, c x = true) u ∧ min ≤ length u
    ∧ k (Re.bol_after bol u) s' = Some (chunks', rest) ∧ chunks = u :: chunks'.
Proof.
  assert (∀ min bol s chunks, Re.stop k min bol s = Some (chunks, rest) →
    ∃ u s' chunks',
      s = u ++ s' ∧ Forall (λ x, c x = true) u ∧ min ≤ length u
      ∧ k (Re.bol_after bol u) s' = Some (chunks', rest) ∧ chunks = u :: chunks')
    as Hstop.
  { intros m b t ch (chunks' & -> & ? & ->)%stop_sound. by exists [], t, chunks'. }
  revert min bol chunks. induction s as [|x s IH]; intros min bol chunks;
    cbn [Re.rep]; [by apply Hstop|].
  destruct (c x) eqn:Hx; [|by apply Hstop].
  assert (Re.grow x (Re.rep c greedy k (pred min) (is_nl x) s) = Some (chunks, rest) →
    ∃ u s' chunks',
      x :: s = u ++ s' ∧ Forall (λ x, c x = true) u ∧ min ≤ length u
      ∧ k (Re.bol_after bol u) s' = Some (chunks', rest) ∧ chunks = u :: chunks')
    as Hgrow.
  { destruct (Re.rep c greedy k (pred min) (is_nl x) s) as [[[|ch chs] r]|] eqn:Hrep;
      cbn; [done| |done]. intros [= <- <-].
    apply IH in Hrep as (u & s' & chunks' & -> & Hu & Hmin & Hk & [= -> ->]).
    exists (x :: u), s', chunks'. rewrite bol_after_cons.
    split_and!; [done|by constructor|cbn; lia|done|done]. }
  destruct greedy.
  - destruct (Re.grow x _) as [r|] eqn:Hg; [intros [= ->]; by apply Hgrow|].
    apply Hstop.
  - destruct (Re.stop k min bol (x :: s)) as [r|] eqn:Hs;
      [intros [= ->]; by apply Hstop|]. apply Hgrow.
Qed.

(** A repetition finds a match whenever the rest of the pattern matches after
    some characters of the class. *)
Lemma rep_complete greedy min bol u s :
  Forall (λ x, c x = true) u → min ≤ length u →
  is_Some (k (Re.bol_after bol u) s) →
  is_Some (Re.rep c greedy k min bol (u ++ s)).
Proof.
  intros Hu. revert min bol. induction Hu as [|x u Hx Hu IH]; intros min bol Hmin Hk.
  - assert (min = 0) as -> by (cbn in Hmin; lia). cbn [app].
    assert (is_Some (Re.stop k 0 bol s)) as Hstop.
    { cbn in *. destruct Hk as [[??] ->]. by eexists. }
    destruct s as [|y s]; cbn [Re.rep]; [done|].
    destruct (c y); [|done]. destruct greedy.
    + by destruct (Re.grow y _).
    + by destruct Hstop as [? ->].
  - cbn [app Re.rep]. rewrite Hx. rewrite bol_after_cons in Hk.
    destruct (IH (pred min) (is_nl x)) as [[chunks rest] Hrep];
      [cbn in Hmin; lia|done|].
    rewrite Hrep.
    destruct (rep_sound _ _ _ _ _ _ Hrep) as (? & ? & ? & _ & _ & _ & _ & ->).
    cbn [Re.grow]. destruct greedy; [done|]. by destruct (Re.stop _ _ _ _).
Qed.

Lemma rep_greedy_None min bol v t :
  Forall (λ x, c x = true) v →
  (∀ x t', t = x :: t' → c x = false) →
  (∀ v1 v2 b, v = v1 ++ v2 → k b (v2 ++ t) = None) →
  Re.rep c true k min bol (v ++ t) = None.
Proof.
  intros Hv Ht. revert min bol.
  induction Hv as [|x v Hx Hv IH]; intros min bol Hk.
  - assert (Re.stop k min bol t = None) as Hstop.
    { destruct min; cbn; [|done]. by rewrite (Hk [] []). }
    cbn [app]. destruct t as [|y t]; cbn [Re.rep]; [done|].
    by rewrite (Ht y t).
  - cbn [app Re.rep]. rewrite Hx, IH.
    + cbn. destruct min; cbn; [|done]. by rewrite (Hk [] (x :: v)).
    + intros v1 v2 b ->. by apply (Hk (x :: v1)).
Qed.

(** A greedy repetition gives characters back until the rest of the pattern
    matches: after [u] when it fails after every longer run. *)
Lemma rep_greedy min bol u v t chunks rest :
  Forall (λ x, c x = true) u → Forall (λ x, c x = true) v →
  (∀ x t', t = x :: t' → c x = false) →
  min ≤ length u →
  (∀ v1 v2 b, v = v1 ++ v2 → v1 ≠ [] → k b (v2 ++ t) = None) →
  k (Re.bol_after bol u) (v ++ t) = Some (chunks, rest) →
  Re.rep c true k min bol (u ++ v ++ t) = Some (u :: chunks, rest).
Proof.
  intros Hu Hv Ht. revert min bol.
  induction Hu as [|x u Hx Hu IH]; intros min bol Hmin Hfail Hk.
  - assert (min = 0) as -> by (cbn in Hmin; lia). cbn [app].
    assert (Re.stop k 0 bol (v ++ t) = Some ([] :: chunks, rest)) as Hstop.
    { cbn in *. by rewrite Hk. }
    destruct Hv as [|y v Hy Hv]; cbn [app].
    + destruct t as [|y t]; cbn [Re.rep]; [done|]. by rewrite (Ht y t).
    + cbn [Re.rep]. rewrite Hy, rep_greedy_None; [done..|].
      intros v1 v2 b ->. by apply (Hfail (y :: v1)).
  - cbn [app Re.rep]. rewrite Hx. rewrite bol_after_cons in Hk.
    rewrite (IH (pred min) (is_nl x)); [done|cbn in Hmin; lia|done..].
Qed.

(** A lazy repetition takes characters until the rest of the pattern
    matches: [u] when it fails after every shorter run. *)
Lemma rep_lazy bol u s chunks rest :
  Forall (λ x, c x = true) u →
  (∀ u1 u2, u = u1 ++ u2 → u2 ≠ [] → k (Re.bol_after bol u1) (u2 ++ s) = None) →
  k (Re.bol_after bol u) s = Some (chunks, rest) →
  Re.rep c false k 0 bol (u ++ s) = Some (u :: chunks, rest).
Proof.
  intros Hu. revert bol. induction Hu as [|x u Hx Hu IH]; intros bol Hfail Hk.
  - cbn [app]. assert (Re.stop k 0 bol s = Some ([] :: chunks, rest)) as Hstop.
    { cbn in *. by rewrite Hk. }
    destruct s as [|y s]; cbn [Re.rep]; [done|]. rewrite Hstop. by destruct (c y).
  - cbn [app Re.rep]. rewrite Hx.
    assert (Re.stop k 0 bol (x :: u ++ s) = None) as ->.
    { pose proof (Hfail [] (x :: u) eq_refl) as Hf. cbn in Hf. cbn.
      by rewrite Hf. }
    rewrite bol_after_cons in Hk. change (Init.Nat.pred 0) with 0.
    rewrite (IH (is_nl x)); [done| |done].
    intros u1 u2 -> Hu2. rewrite <-(bol_after_cons bol). by apply (Hfail (x :: u1)).
Qed.
End rep.

(** *** Patterns *)

Section patterns.
Implicit Types p : Re.pattern.
Implicit Types s u rest : str.

Lemma push_Some ch r chunks rest :
  Re.push ch r = Some (chunks, rest) ↔
  ∃ chunks', r = Some (chunks', rest) ∧ chunks = ch :: chunks'.
Proof.
  destruct r as [[chunks' rest']|]; cbn.
  - split; [intros [= <- <-]; eauto|]. by intros (? & [= <- <-] & ->).
  - split; [done|]. by intros (? & [=] & _).
Qed.

Lemma match_here_Lit l p bol s :
  Re.match_here (Re.Lit l :: p) bol (l ++ s)
  = Re.push l (Re.match_here p (Re.bol_after bol l) s).
Proof. cbn. by rewrite strip_prefix_app. Qed.

Lemma match_here_Lit_inv l p bol s chunks rest :
  Re.match_here (Re.Lit l :: p) bol s = Some (chunks, rest) →
  ∃ s' chunks',
    s = l ++ s' ∧ Re.match_here p (Re.bol_after bol l) s' = Some (chunks', rest)
    ∧ chunks = l :: chunks'.
Proof.
  cbn. destruct (Py.strip_prefix l s) as [s'|] eqn:Hs; [|done].
  apply strip_prefix_Some in Hs as ->. intros (chunks' & ? & ->)%push_Some.
  by exists s', chunks'.
Qed.

Lemma match_here_Lit_None l p bol s :
  Py.strip_prefix l s = None → Re.match_here (Re.Lit l :: p) bol s = None.
Proof. intros Hs. cbn. by rewrite Hs. Qed.

Lemma match_here_One_inv c p bol s chunks rest :
  Re.match_here (Re.One c :: p) bol s = Some (chunks, rest) →
  ∃ x s' chunks',
    s = x :: s' ∧ c x = true ∧ Re.match_here p (is_nl x) s' = Some (chunks', rest)
    ∧ chunks = [x] :: chunks'.
Proof.
  cbn. destruct s as [|x s']; [done|]. destruct (c x) eqn:Hx; [|done].
  intros (chunks' & ? & ->)%push_Some. by exists x, s', chunks'.
Qed.

Lemma match_here_Rep c min greedy p bol s :
  Re.match_here (Re.Rep c min greedy :: p) bol s
  = Re.rep c greedy (Re.match_here p) min bol s.
Proof. reflexivity. Qed.

Lemma match_here_Rep_inv c min greedy p bol s chunks rest :
  Re.match_here (Re.Rep c min greedy :: p) bol s = Some (chunks, rest) →
  ∃ u s' chunks',
    s = u ++ s' ∧ Forall (λ x, c x = true) u ∧ min ≤ length u
    ∧ Re.match_here p (Re.bol_after bol u) s' = Some (chunks', rest)
    ∧ chunks = u :: chunks'.
Proof. apply rep_sound. Qed.

Lemma match_here_Bol_inv p bol s chunks rest :
  Re.match_here (Re.Bol :: p) bol s = Some (chunks, rest) →
  ∃ chunks', bol = true ∧ Re.match_here p bol s = Some (chunks', rest)
             ∧ chunks = [] :: chunks'.
Proof.
  cbn. destruct bol; [|done]. intros (chunks' & ? & ->)%push_Some. eauto.
Qed.

Lemma match_here_Eol_inv p bol s chunks rest :
  Re.match_here (Re.Eol :: p) bol s = Some (chunks, rest) →
  ∃ chunks', Re.at_eol s = true ∧ Re.match_here p bol s = Some (chunks', rest)
             ∧ chunks = [] :: chunks'.
Proof.
  cbn. destruct (Re.at_eol s); [|done]. intros (chunks' & ? & ->)%push_Some. eauto.
Qed.

(** The text of a match, followed by what is left, is the text matched. *)
Lemma match_here_group0 p bol s r :
  Re.match_here p bol s = Some r → s = Re.group0 r ++ r.2.
Proof.
  destruct r as [chunks rest]. unfold Re.group0. cbn [fst snd].
  revert bol s chunks. induction p as [|a p IH]; intros bol s chunks.
  - by intros [= <- <-].
  - destruct a as [l|c|c min greedy| |].
    + intros (s' & chunks' & -> & ->%IH & ->)%match_here_Lit_inv.
      cbn. by rewrite <-!(assoc_L (++)).
    + intros (x & s' & chunks' & -> & _ & ->%IH & ->)%match_here_One_inv. done.
    + intros (u & s' & chunks' & -> & _ & _ & ->%IH & ->)%match_here_Rep_inv.
      cbn. by rewrite <-!(assoc_L (++)).
    + intros (chunks' & _ & ->%IH & ->)%match_here_Bol_inv. done.
    + intros (chunks' & _ & ->%IH & ->)%match_here_Eol_inv. done.
Qed.

(** *** Searching *)

Lemma search_from_hit p bol s r :
  Re.match_here p bol s = Some r → Re.search_from p bol s = Some r.
Proof. intros Hr. destruct s; cbn; by rewrite Hr. Qed.

Lemma search_from_skip p bol u s :
  (∀ u1 u2 b, u = u1 ++ u2 → u2 ≠ [] → Re.match_here p b (u2 ++ s) = None) →
  Re.search_from p bol (u ++ s) = Re.search_from p (Re.bol_after bol u) s.
Proof.
  revert bol. induction u as [|x u IH]; intros bol Hu; [done|].
  cbn [app Re.search_from]. rewrite (Hu [] (x :: u)) by done.
  rewrite bol_after_cons. apply IH. intros u1 u2 b ->. by apply (Hu (x :: u1)).
Qed.

Lemma findall_from_skip p bol u s :
  Re.findall_from p (length u) bol (u ++ s)
  = Re.findall_from p 0 (Re.bol_after bol u) s.
Proof.
  revert bol. induction u as [|x u IH]; intros bol; [done|].
  cbn [length app Re.findall_from]. by rewrite IH, bol_after_cons.
Qed.

(** After a match, the scan resumes where the match ended. *)
Lemma findall_from_hit p bol s r :
  Re.match_here p bol s = Some r → Re.group0 r ≠ [] →
  Re.findall_from p 0 bol s
  = r :: Re.findall_from p 0 (Re.bol_after bol (Re.group0 r)) r.2.
Proof.
  intros Hr Hne. pose proof (match_here_group0 _ _ _ _ Hr) as Hs.
  destruct (Re.group0 r) as [|x g] eqn:Hg; [done|]. subst s.
  cbn [app] in *. cbn [Re.findall_from]. rewrite Hr, Hg. cbn [length pred].
  by rewrite findall_from_skip, bol_after_cons.
Qed.

Lemma findall_from_miss p bol x s :
  Re.match_here p bol (x :: s) = None →
  Re.findall_from p 0 bol (x :: s) = Re.findall_from p 0 (is_nl x) s.
Proof. intros Hr. cbn. by rewrite Hr. Qed.

End patterns.

(** *** Reading with a pattern *)

(** When the matches of a pattern at a position are the items that start
    there, [re.findall] reads the items of the text from left to right. *)
Section reading.
Context {A : Type} (p : Re.pattern) (item : Re.found → A).
Context (hit : str → A → str → Prop).
Context (hit_match : ∀ bol s a rest, hit s a rest →
  ∃ r, Re.match_here p bol s = Some r ∧ item r = a ∧ r.2 = rest
       ∧ Re.group0 r ≠ []).
Context (match_hit : ∀ bol s r, Re.match_here p bol s = Some r →
  hit s (item r) r.2).

Lemma hit_length s a rest : hit s a rest → length rest < length s.
Proof.
  intros (r & Hr & _ & <- & Hne)%(hit_match true).
  rewrite (match_here_group0 _ _ _ _ Hr), length_app.
  destruct (Re.group0 r); [done|cbn; lia].
Qed.

Lemma findall_from_reading bol s l :
  reading hit s l → item <$> Re.findall_from p 0 bol s = l.
Proof.
  intros Hl. revert bol. induction Hl as [|s a rest l Hat _ IH|x s l Hno _ IH];
    intros bol.
  - cbn [Re.findall_from].
    destruct (Re.match_here p bol []) as [r|] eqn:Hr; [|done].
    apply match_hit, hit_length in Hr. cbn in Hr. lia.
  - destruct (hit_match bol _ _ _ Hat) as (r & Hr & <- & <- & Hne).
    rewrite (findall_from_hit _ _ _ _ Hr Hne). cbn [fmap list_fmap]. f_equal.
    apply IH.
  - rewrite findall_from_miss; [apply IH|].
    destruct (Re.match_here p bol (x :: s)) as [r|] eqn:Hr; [|done].
    apply match_hit in Hr. by destruct (Hno _ _ Hr).
Qed.

Lemma reading_total s : ∃ l, reading hit s l.
Proof.
  remember (length s) as n eqn:Hn. revert s Hn.
  induction (lt_wf n) as [n _ IH]. intros s ->.
  destruct s as [|x s]; [exists []; constructor|].
  destruct (Re.match_here p true (x :: s)) as [r|] eqn:Hr.
  - apply match_hit in Hr.
    destruct (IH (length r.2) (hit_length _ _ _ Hr) r.2 eq_refl) as [l Hl].
    exists (item r :: l). by econstructor.
  - destruct (IH (length s) (Nat.lt_succ_diag_r _) s eq_refl) as [l Hl].
    exists l. constructor; [|done]. intros a rest Hat.
    destruct (hit_match true _ _ _ Hat) as (r & Hr' & _). congruence.
Qed.

Lemma findall_reading s l : item <$> Re.findall p s = l ↔ reading hit s l.
Proof.
  split; [|apply findall_from_reading].
  intros <-. destruct (reading_total s) as [l Hl]. unfold Re.findall.
  by rewrite (findall_from_reading true s l Hl).
Qed.
End reading.

(** ** References *)

Section classes.
Context (c : ascii → bool).
Implicit Types s u t : str.

(** Every text starts with a longest run of characters of a class. *)
Lemma run_split s :
  ∃ u t, s = u ++ t ∧ Forall (λ x, c x = true) u ∧ stops c t.
Proof.
  induction s as [|x s (u & t & -> & Hu & Ht)].
  - exists [], []. split_and!; [done..|]. by intros ?? [=].
  - destruct (c x) eqn:Hx.
    + exists (x :: u), t. split_and!; [done|by constructor|done].
    + exists [], (x :: u ++ t). split_and!; [done..|]. by intros ?? [= <- <-].
Qed.

Lemma stops_app_r t t' : t ≠ [] → stops c t → stops c (t ++ t').
Proof. destruct t as [|x t]; [done|]. intros _ Ht y r [= <- <-]. by apply (Ht x t). Qed.

Lemma stops_cons x t : c x = false → stops c (x :: t).
Proof. by intros Hx ?? [= <- <-]. Qed.

Lemma stops_nil : stops c [].
Proof. by intros ?? [=]. Qed.

(** A greedy repetition at the end of a pattern takes the longest run. *)
Lemma rep_greedy_last min bol u t :
  Forall (λ x, c x = true) u → stops c t →
  Re.rep c true (Re.match_here []) min bol (u ++ t)
  = if decide (min ≤ length u) then Some ([u], t) else None.
Proof.
  intros Hu Ht. revert min bol. induction Hu as [|x u Hx Hu IH]; intros min bol.
  - cbn [app length].
    assert (Re.stop (Re.match_here []) min bol t
            = if decide (min ≤ 0) then Some ([[]], t) else None) as Hstop.
    { destruct min; cbn; [done|]. by rewrite decide_False by lia. }
    destruct t as [|y t]; cbn [Re.rep]; [done|]. by rewrite (Ht y t).
  - cbn [app length Re.rep]. rewrite Hx, IH.
    destruct (decide (pred min ≤ length u)).
    + cbn. by rewrite decide_True by lia.
    + cbn. destruct min; cbn; [lia|]. by rewrite decide_False by lia.
Qed.
End classes.

Section references.
Context (alias : str).
Implicit Types s ident rest code : str.

Lemma reference_at_match bol s ident rest :
  reference_at alias s ident rest →
  Re.match_here (references_pattern alias) bol s
  = Some ([alias; list_ascii_of_string "."; ident], rest).
Proof.
  intros (-> & Hne & Hident & Hrest). unfold references_pattern.
  rewrite match_here_Lit, match_here_Lit. cbn [Re.match_here].
  rewrite rep_greedy_last by done. rewrite decide_True; [done|].
  destruct ident; [done|cbn; lia].
Qed.

Lemma match_reference_at bol s chunks rest :
  Re.match_here (references_pattern alias) bol s = Some (chunks, rest) →
  ∃ ident, reference_at alias s ident rest
           ∧ chunks = [alias; list_ascii_of_string "."; ident].
Proof.
  unfold references_pattern.
  intros (s1 & chunks1 & -> & (s2 & chunks2 & -> & Hrep & ->)%match_here_Lit_inv & ->)
    %match_here_Lit_inv.
  cbn [Re.match_here] in Hrep.
  destruct (run_split is_word s2) as (u & t & -> & Hu & Ht).
  rewrite rep_greedy_last in Hrep by done. case_decide as Hlen; [|done].
  injection Hrep as <- <-. exists u. split; [|done].
  split_and!; [done| |done..]. intros ->. cbn in Hlen. lia.
Qed.

Lemma find_references_references code l :
  find_references code alias = l ↔ references alias code l.
Proof.
  apply (findall_reading (references_pattern alias) Re.group0 (reference_hit alias)).
  - intros bol s a rest (ident & -> & Hat).
    eexists. split; [by apply reference_at_match|].
    unfold Re.group0. cbn. rewrite app_nil_r. split_and!; [done..|].
    by destruct alias.
  - intros bol s [chunks rest] (ident & Hat & ->)%match_reference_at.
    exists ident. split; [|done]. unfold Re.group0. cbn. by rewrite app_nil_r.
Qed.

Lemma references_here s ident rest l :
  reference_at alias s ident rest → references alias rest l →
  references alias s ((alias ++ "." ++ ident) :: l).
Proof. intros Hat Hl. eapply reading_here; [by exists ident|done]. Qed.

(** *** A text without the alias *)

Lemma find_references_absent code :
  Py.contains alias code = false → find_references code alias = [].
Proof.
  intros Hno. apply find_references_references.
  induction code as [|x s IH]; [constructor|].
  cbn [Py.contains] in Hno.
  destruct (Py.strip_prefix alias (x :: s)) eqn:Hx; [done|].
  constructor; [|by apply IH]. intros a rest (ident & _ & Hs & _).
  by rewrite Hs, strip_prefix_app in Hx.
Qed.

(** *** Separators *)

Lemma reference_at_app s ident rest t :
  reference_at alias s ident rest → stops is_word (rest ++ t) →
  reference_at alias (s ++ t) ident (rest ++ t).
Proof.
  intros (-> & Hne & Hident & _) Ht. split_and!; [|done..].
  by rewrite <-!(assoc_L (++)).
Qed.

(** A text that does not hold [x] and starts [a ++ x :: b] is within [a]. *)
Lemma app_eq_sep (u r a b : str) x :
  u ++ r = a ++ x :: b → x ∉ u → ∃ r', a = u ++ r' ∧ r = r' ++ x :: b.
Proof.
  revert a. induction u as [|y u IH]; intros a Heq Hx; [by exists a|].
  apply not_elem_of_cons in Hx as [Hxy Hx].
  destruct a as [|z a]; cbn in Heq; [by injection Heq as -> _|].
  injection Heq as <- Heq. destruct (IH a Heq Hx) as (r' & -> & ->). by exists r'.
Qed.

Lemma references_sep pre x s l1 l2 :
  alias ≠ [] → Forall (λ y, is_word y = true) alias →
  is_word x = false → x ≠ dot →
  references alias pre l1 → references alias s l2 →
  references alias (pre ++ x :: s) (l1 ++ l2).
Proof.
  intros Hne Halias Hx Hdot Hl1 Hl2.
  induction Hl1 as [|pre a rest l (ident & -> & Hat) _ IH|y pre l Hno _ IH];
    cbn [app].
  - constructor; [|done]. intros a rest (ident & _ & Hs & _).
    destruct Halias as [|y alias Hy _]; [done|]. injection Hs as -> _. congruence.
  - eapply references_here; [|done]. apply reference_at_app; [done|].
    destruct Hat as (_ & _ & _ & Hrest).
    destruct rest; [by apply stops_cons|]. by apply stops_app_r.
  - constructor; [|done].
    intros a rest (ident & _ & Hs & Hident_ne & Hident & Hrest).
    destruct (app_eq_sep (alias ++ "." ++ ident) rest (y :: pre) s x) as (r' & Hpre & ->).
    + by rewrite <-!(assoc_L (++)).
    + change (list_ascii_of_string ".") with [dot].
      rewrite !elem_of_app, list_elem_of_singleton.
      intros [Hin|[->|Hin]]; [|done|];
        eapply Forall_forall in Hin; [|done| |done]; cbn in Hin; congruence.
    + apply (Hno (alias ++ "." ++ ident) r'). exists ident. split; [done|].
      split_and!; [by rewrite Hpre, <-!(assoc_L (++))|done..|].
      destruct r' as [|z r']; [apply stops_nil|].
      apply stops_cons, (Hrest z (r' ++ x :: s)). done.
Qed.

Lemma find_references_sep pre x s :
  alias ≠ [] → Forall (λ y, is_word y = true) alias →
  is_word x = false → x ≠ dot →
  find_references (pre ++ x :: s) alias
  = find_references pre alias ++ find_references s alias.
Proof.
  intros. apply find_references_references.
  apply references_sep; [done..| |]; by apply find_references_references.
Qed.

Lemma find_references_head s ident rest :
  reference_at alias s ident rest →
  find_references s alias = (alias ++ "." ++ ident) :: find_references rest alias.
Proof.
  intros Hat. apply find_references_references. eapply references_here; [done|].
  by apply find_references_references.
Qed.

(** A reference that starts the text, or follows a separator, is found. *)
Lemma find_references_elem pre s ident rest :
  alias ≠ [] → Forall (λ y, is_word y = true) alias →
  separated pre = true → reference_at alias s ident rest →
  alias ++ "." ++ ident ∈ find_references (pre ++ s) alias.
Proof.
  intros Hne Halias Hsep Hat. unfold separated in Hsep.
  destruct (last pre) as [x|] eqn:Hlast.
  - apply last_Some in Hlast as [pre' ->].
    apply andb_prop in Hsep as [Hx Hdot]. rewrite <-(assoc_L (++)). cbn [app].
    rewrite find_references_sep; [|done..| |].
    + rewrite (find_references_head _ _ _ Hat). apply elem_of_app. right. left.
    + by destruct (is_word x).
    + unfold is_dot in Hdot. by case_bool_decide.
  - apply last_None in Hlast as ->. cbn [app].
    rewrite (find_references_head _ _ _ Hat). left.
Qed.
End references.

(** C8 as stated fails: the text holds [alias.foo(1)] and [alias.bar(2)], and
    [alias.foo] is not returned, because the occurrence of [alias] that
    precedes [.foo] is read as the identifier of the reference [alias.alias]
    that starts before it.  And what follows the dot need not be an
    identifier: a run of digits is returned as well. *)
Lemma find_references_overlap :
  Py.contains "alias.foo(1)" "alias.alias.foo(1) alias.bar(2)" = true
  ∧ Py.contains "alias.bar(2)" "alias.alias.foo(1) alias.bar(2)" = true
  ∧ find_references "alias.alias.foo(1) alias.bar(2)" "alias"
    = [("alias.alias" : str); ("alias.bar" : str)]
  ∧ (("alias.foo" : str) ∉ find_references "alias.alias.foo(1) alias.bar(2)" "alias")
  ∧ find_references "alias.42" "alias" = [("alias.42" : str)].
Proof.
  split_and!; [vm_compute; reflexivity..| |vm_compute; reflexivity].
  apply (bool_decide_unpack _). vm_compute. exact I.
Qed.

(** C8, amended.  [find_references] returns the references to the alias met
    when the code is read from left to right, each with its longest
    identifier (a run of word characters), the reading resuming after a
    reference; a reference met twice is returned twice.  It returns the empty
    list when the alias does not occur in the code, and it returns every
    reference to an alias made of word characters that starts the code or
    follows a character that is neither a word character nor a dot. *)
Theorem find_references_scan (code alias : str) :
  (∀ l, find_references code alias = l ↔ references alias code l)
  ∧ (Py.contains alias code = false → find_references code alias = [])
  ∧ (∀ pre s ident rest,
       alias ≠ [] → Forall (λ y, is_word y = true) alias →
       code = pre ++ s → separated pre = true →
       reference_at alias s ident rest →
       alias ++ "." ++ ident ∈ find_references code alias).
Proof.
  split_and!.
  - intros l. apply find_references_references.
  - apply find_references_absent.
  - intros pre s ident rest Hne Halias -> Hsep Hat. by eapply find_references_elem.
Qed.

Lemma find_references_scan_witness :
  references "alias" ("alias.foo(1)" ++ [nl] ++ "alias.bar(2)")
    [("alias.foo" : str); ("alias.bar" : str)]
  ∧ find_references "print(1)" "alias" = []
  ∧ "alias" ++ "." ++ "bar"
    ∈ find_references ("alias.foo(1)" ++ [nl] ++ "alias.bar(2)") "alias".
Proof.
  split_and!.
  - by apply (proj1 (find_references_scan _ _)).
  - by apply (proj1 (proj2 (find_references_scan _ _))).
  - apply (proj2 (proj2 (find_references_scan _ _))
             ("alias.foo(1)" ++ [nl]) "alias.bar(2)" "bar" "(2)");
      [done|by repeat constructor|done|done|].
    split_and!; [done|done|by repeat constructor|].
    by intros x r [= <- <-].
Defined.

(** ** Requirements *)

Section disjoint.
(** The character classes of the patterns do not overlap. *)
Ltac by_cases x :=
  destruct x as [[] [] [] [] [] [] [] []]; vm_compute; congruence.

Lemma space_not_word x : is_space x = true → is_word x = false.
Proof. by_cases x. Qed.

Lemma word_not_space x : is_word x = true → is_space x = false.
Proof. by_cases x. Qed.

Lemma quote_not_space x : is_quote x = true → is_space x = false.
Proof. by_cases x. Qed.

Lemma quote_not_word_or_dot x : is_quote x = true → is_word_or_dot x = false.
Proof. by_cases x. Qed.

Lemma word_or_dot_not_space x : is_word_or_dot x = true → is_space x = false.
Proof. by_cases x. Qed.
End disjoint.

Section runs.
Context (c c' : ascii → bool).
Context (disjoint : ∀ x, c' x = true → c x = false).

Lemma stops_app u t :
  Forall (λ x, c' x = true) u → stops c t → stops c (u ++ t).
Proof.
  intros Hu Ht. destruct Hu as [|x u Hx _]; [done|].
  apply stops_cons. by apply disjoint.
Qed.

Lemma stops_app_ne u t : u ≠ [] → Forall (λ x, c' x = true) u → stops c (u ++ t).
Proof.
  intros Hne Hu. destruct Hu as [|x u Hx _]; [done|].
  apply stops_cons. by apply disjoint.
Qed.
End runs.

Section intro.
Implicit Types p : Re.pattern.

Lemma match_here_Lit_Some l p bol s chunks rest :
  Re.match_here p (Re.bol_after bol l) s = Some (chunks, rest) →
  Re.match_here (Re.Lit l :: p) bol (l ++ s) = Some (l :: chunks, rest).
Proof. intros Hp. by rewrite match_here_Lit, Hp. Qed.

Lemma match_here_One_Some c p bol x s chunks rest :
  c x = true → Re.match_here p (is_nl x) s = Some (chunks, rest) →
  Re.match_here (Re.One c :: p) bol (x :: s) = Some ([x] :: chunks, rest).
Proof. intros Hx Hp. cbn. by rewrite Hx, Hp. Qed.

(** A greedy repetition takes the whole run when the rest of the pattern
    matches after it. *)
Lemma match_here_Rep_Some c min p bol u t chunks rest :
  Forall (λ x, c x = true) u → stops c t → min ≤ length u →
  Re.match_here p (Re.bol_after bol u) t = Some (chunks, rest) →
  Re.match_here (Re.Rep c min true :: p) bol (u ++ t) = Some (u :: chunks, rest).
Proof.
  intros Hu Ht Hmin Hp.
  apply (rep_greedy c (Re.match_here p) min bol u [] t); try done.
  intros [|??] ?? ? Hv; [done|]. by destruct Hv.
Qed.
End intro.

Lemma length_pos (u : str) : u ≠ [] → 1 ≤ length u.
Proof. destruct u; [done|cbn; lia]. Qed.

Lemma requirement_at_match bol s a rest :
  requirement_at s a rest →
  ∃ r, Re.match_here requirements_pattern bol s = Some r
       ∧ (Re.chunk 2 r, Re.chunk 9 r) = a ∧ r.2 = rest ∧ Re.group0 r ≠ [].
Proof.
  intros (ws1 & ws2 & ws3 & ws4 & q1 & q2 & -> & Hne1 & Hws1 & Hws2 & Hws3 & Hws4
          & Hne_a & Ha & Hq1 & Hq2 & Hne_p & Hp).
  eexists. split.
  - unfold requirements_pattern.
    apply match_here_Lit_Some.
    apply match_here_Rep_Some;
      [done|by eapply stops_app_ne, Ha; [apply word_not_space|]|by apply length_pos|].
    apply match_here_Rep_Some;
      [done|by eapply stops_app, stops_cons; [apply space_not_word|..]
      |by apply length_pos|].
    apply match_here_Rep_Some; [done|by apply stops_cons|cbn; lia|].
    apply match_here_Lit_Some.
    apply match_here_Rep_Some; [done|by apply stops_cons|cbn; lia|].
    apply match_here_Lit_Some.
    apply match_here_Rep_Some;
      [done|by apply stops_cons, quote_not_space|cbn; lia|].
    apply match_here_One_Some; [done|].
    apply match_here_Rep_Some;
      [done|by apply stops_cons, quote_not_word_or_dot|by apply length_pos|].
    apply match_here_One_Some; [done|]. reflexivity.
  - destruct a as [alias path]. cbn. split_and!; done.
Qed.

Lemma match_requirement_at bol s r :
  Re.match_here requirements_pattern bol s = Some r →
  requirement_at s (Re.chunk 2 r, Re.chunk 9 r) r.2.
Proof.
  destruct r as [chunks rest]. unfold requirements_pattern. intros H0.
  apply match_here_Lit_inv in H0 as (s1 & c1 & -> & H1 & ->).
  apply match_here_Rep_inv in H1 as (ws1 & s2 & c2 & -> & Hws1 & Hlen1 & H2 & ->).
  apply match_here_Rep_inv in H2 as (alias & s3 & c3 & -> & Ha & Hlen_a & H3 & ->).
  apply match_here_Rep_inv in H3 as (ws2 & s4 & c4 & -> & Hws2 & _ & H4 & ->).
  apply match_here_Lit_inv in H4 as (s5 & c5 & -> & H5 & ->).
  apply match_here_Rep_inv in H5 as (ws3 & s6 & c6 & -> & Hws3 & _ & H6 & ->).
  apply match_here_Lit_inv in H6 as (s7 & c7 & -> & H7 & ->).
  apply match_here_Rep_inv in H7 as (ws4 & s8 & c8 & -> & Hws4 & _ & H8 & ->).
  apply match_here_One_inv in H8 as (q1 & s9 & c9 & -> & Hq1 & H9 & ->).
  apply match_here_Rep_inv in H9 as (path & s10 & c10 & -> & Hp & Hlen_p & H10 & ->).
  apply match_here_One_inv in H10 as (q2 & s11 & c11 & -> & Hq2 & H11 & ->).
  injection H11 as <- <-.
  exists ws1, ws2, ws3, ws4, q1, q2. cbn.
  split_and!; try done; intros ->; cbn in *; lia.
Qed.

Lemma extract_local_requirements_requirements lua_code l :
  extract_local_requirements lua_code = l ↔ requirements lua_code l.
Proof.
  apply (findall_reading requirements_pattern
           (λ r, (Re.chunk 2 r, Re.chunk 9 r)) requirement_at).
  - apply requirement_at_match.
  - apply match_requirement_at.
Qed.

(** ** The index built by the scanner *)

Section dict.
Context {V : Type}.
Implicit Types d : Dict.t V.

Lemma dict_get_set_eq k v d : Dict.get k (Dict.set k v d) = Some v.
Proof.
  induction d as [|[k' v'] d IH]; cbn; [by rewrite decide_True|].
  case_decide as Hk; cbn; [by rewrite decide_True|]. by rewrite decide_False.
Qed.

Lemma dict_get_set_ne k k' v d :
  k ≠ k' → Dict.get k' (Dict.set k v d) = Dict.get k' d.
Proof.
  intros Hne. induction d as [|[k0 v0] d IH]; cbn; [by rewrite decide_False|].
  case_decide as Hk; cbn.
  - subst k0. by rewrite !decide_False.
  - case_decide; [done|apply IH].
Qed.
End dict.

Section scanner.
Context (w : world).
Implicit Types walked : list (str * str).
Implicit Types requirement_local : index.

Lemma declares_iff path lua_code reqs :
  files w !! path = Some lua_code →
  declares w path reqs ↔ extract_local_requirements lua_code = reqs ∧ reqs ≠ [].
Proof.
  intros Hpath. unfold declares. rewrite extract_local_requirements_requirements.
  split; [|by eauto]. intros (code' & Hcode' & ? & ?).
  by assert (code' = lua_code) as -> by congruence.
Qed.

(** The entry of [name] after one more file. *)
Lemma record_file_get requirement_local entry name reqs :
  is_Some (files w !! entry.2) →
  Dict.get name (record_file w requirement_local entry) = Some reqs ↔
  (entry.1 = name ∧ declares w entry.2 reqs)
  ∨ ((entry.1 = name → ∀ reqs', ¬ declares w entry.2 reqs')
     ∧ Dict.get name requirement_local = Some reqs).
Proof.
  intros [lua_code Hcode]. unfold record_file. cbv zeta. rewrite Hcode.
  cbn [from_option id].
  pose proof (declares_iff _ _ (extract_local_requirements lua_code) Hcode) as Hown.
  assert (∀ reqs', declares w entry.2 reqs' →
                   reqs' = extract_local_requirements lua_code) as Honly.
  { intros reqs' [<- _]%(declares_iff _ _ _ Hcode). done. }
  case_bool_decide as Hlen.
  - assert (declares w entry.2 (extract_local_requirements lua_code)) as Hdecl.
    { apply Hown. split; [done|]. intros Hnil. rewrite Hnil in Hlen. cbn in Hlen. lia. }
    destruct (decide (entry.1 = name)) as [<-|Hne].
    + rewrite dict_get_set_eq. split.
      * intros [= <-]. by left.
      * intros [[_ Hd]|[Hno _]].
        -- by rewrite (Honly _ Hd).
        -- by destruct (Hno eq_refl _ Hdecl).
    + rewrite dict_get_set_ne by done. split.
      * intros ?. right. by split.
      * intros [[? _]|[_ ?]]; done.
  - assert (∀ reqs', ¬ declares w entry.2 reqs') as Hnone.
    { intros reqs' Hd. pose proof (Honly _ Hd) as ->. apply Hown in Hd as [_ Hne].
      destruct (extract_local_requirements lua_code); [done|]. cbn in Hlen. lia. }
    split.
    + intros ?. right. split; [|done]. intros _. apply Hnone.
    + intros [[_ Hd]|[_ ?]]; [by destruct (Hnone _ Hd)|done].
Qed.

Lemma last_declaring_cons entry walked name reqs :
  last_declaring w (entry :: walked) name reqs ↔
  (entry.1 = name ∧ declares w entry.2 reqs
   ∧ ∀ path' reqs', (name, path') ∈ walked → ¬ declares w path' reqs')
  ∨ last_declaring w walked name reqs.
Proof.
  split.
  - intros ([|entry' before] & path & after & Heq & Hdecl & Hafter).
    + injection Heq as -> ->. left. by split_and!.
    + injection Heq as -> ->. right. by exists before, path, after.
  - intros [(<- & Hdecl & Hafter)|(before & path & after & -> & Hdecl & Hafter)].
    + exists [], entry.2, walked. split_and!; [by destruct entry|done..].
    + by exists (entry :: before), path, after.
Qed.

(** The entries of the index after the files of the walk. *)
Lemma foldl_record_file_get walked requirement_local name reqs :
  (∀ file path, (file, path) ∈ walked → is_Some (files w !! path)) →
  Dict.get name (foldl (record_file w) requirement_local walked) = Some reqs ↔
  last_declaring w walked name reqs
  ∨ ((∀ path' reqs', (name, path') ∈ walked → ¬ declares w path' reqs')
     ∧ Dict.get name requirement_local = Some reqs).
Proof.
  revert requirement_local.
  induction walked as [|entry walked IH]; intros requirement_local Hread.
  - cbn. split; [intros ?; right; split; [|done]|].
    + by intros ?? ?%elem_of_nil.
    + intros [([|??] & ? & ? & [=] & _)|[_ ?]]; done.
  - cbn [foldl]. rewrite IH by (intros ???; eapply Hread; by right).
    rewrite last_declaring_cons, record_file_get
      by (destruct entry; eapply Hread; left).
    split.
    + intros [?|[Hnone [[<- Hd]|[Hno Hget]]]]; [by left; right|by left; left|].
      right. split; [|done]. intros path' reqs' [Heq|?]%elem_of_cons; [|by eauto].
      subst entry. by apply (Hno eq_refl).
    + intros [[(<- & Hd & Hnone)|?]|[Hnone Hget]]; [|by left|].
      * right. split; [done|]. by left.
      * right. split; [intros ???; eapply Hnone; by right|]. right.
        split; [|done]. intros <- reqs'. apply Hnone. destruct entry. left.
Qed.
End scanner.

Section walk.
Context (w : world).

(** The inner loop, over the file names of one directory. *)
Lemma scan_directory root (names : list str) (requirement_local : index) :
  (∀ file, file ∈ names → Py.endswith ".lua" file = true →
           is_Some (files w !! Py.path_join root file)) →
  for_each names (λ requirement_local file,
    if Py.endswith ".lua" file then
      let file_path := Py.path_join root file in
      lua_code ← read_lua_file file_path;
      let local_requires := extract_local_requirements lua_code in
      if bool_decide (0 < length local_requires)
      then mret (Dict.set file local_requires requirement_local)
      else mret requirement_local
    else mret requirement_local)
    requirement_local w
  = (Ok (foldl (record_file w) requirement_local
           (file ← filter (λ file, Py.endswith ".lua" file = true) names;
            [(file, Py.path_join root file)])), w).
Proof.
  revert requirement_local.
  induction names as [|file names IH]; intros requirement_local Hread; [done|].
  cbn [for_each]. rewrite bind_unfold.
  destruct (Py.endswith ".lua" file) eqn:Hlua.
  - rewrite filter_cons_True by done. cbn [mbind list_bind app foldl].
    destruct (Hread file) as [lua_code Hcode]; [left|done|].
    cbv zeta. rewrite bind_unfold, (read_lua_file_Some _ _ _ Hcode). cbv iota.
    unfold record_file at 2. cbv zeta. cbn [fst snd]. rewrite Hcode.
    cbn [from_option id].
    case_bool_decide; rewrite mret_unfold; cbv iota;
      apply IH; intros ???; apply Hread; [by right|done|by right|done].
  - rewrite filter_cons_False by (by rewrite Hlua). rewrite mret_unfold. cbv iota.
    apply IH. intros ???. apply Hread; [by right|done].
Qed.

Lemma elem_of_lua_files listing file path :
  (file, path) ∈ lua_files listing ↔
  ∃ entry, entry ∈ listing ∧ file ∈ entry.2
           ∧ Py.endswith ".lua" file = true
           ∧ path = Py.path_join entry.1.1 file.
Proof.
  unfold lua_files. rewrite list_elem_of_bind. split.
  - intros (entry & (file' & Hin & Hfile)%list_elem_of_bind & Hentry).
    apply list_elem_of_singleton in Hin as [= -> ->].
    apply list_elem_of_filter in Hfile as [? ?]. by exists entry.
  - intros (entry & ? & ? & ? & ->). exists entry. split; [|done].
    apply list_elem_of_bind. exists file. split; [left|].
    by apply list_elem_of_filter.
Qed.

Lemma scan_tree_walked listing :
  (∀ file path, (file, path) ∈ lua_files listing → is_Some (files w !! path)) →
  scan_tree listing w
  = (Ok (foldl (record_file w) [] (lua_files listing)), w).
Proof.
  unfold scan_tree. generalize ([] : index).
  induction listing as [|entry listing IH]; intros requirement_local Hread; [done|].
  cbn [for_each]. rewrite bind_unfold. cbv zeta.
  rewrite scan_directory.
  - cbv iota. rewrite IH.
    + unfold lua_files. cbn [mbind list_bind]. by rewrite foldl_app.
    + intros file path (e & ? & ?)%elem_of_lua_files. apply (Hread file).
      apply elem_of_lua_files. exists e. split; [by right|done].
  - intros file ? ?. apply (Hread file). apply elem_of_lua_files.
    exists entry. split; [left|done].
Qed.
End walk.

(** C6 as stated fails.  A module that writes its requirement with
    parentheses, [local x = require("a.b")], is not recorded: the pattern
    wants the quote right after [require] and white space.  And of two
    modules named [util.lua] in two directories, each with a requirement of
    that shape, the index keeps the pairs of the second one only. *)
Lemma scan_tree_omits_and_collides :
  extract_local_requirements paren_code = []
  ∧ (scan_tree (walk paren_world "proj") paren_world).1 = Ok []
  ∧ extract_local_requirements "local x = require 'p.q'" = [("x" : str, "p.q" : str)]
  ∧ (scan_tree (walk twin_world "proj") twin_world).1
    = Ok [("util.lua" : str, [("y" : str, "r.s" : str)])].
Proof. split_and!; vm_compute; reflexivity. Qed.

(** C6, amended.  When the Lua files of the walk can be read and the output
    is not a directory, [generate_dependency_json] adds the text of an index
    at the end of the output file, and that index maps a file name to a list
    of pairs exactly when, among the files of that name met under the root,
    the last one that declares a requirement declares these pairs, in this
    order.  A requirement is [local], the alias and [=], then [require]
    followed by the dotted path between two quote characters, without
    parentheses; a file without one is not recorded. *)
Theorem generate_dependency_json_index (json_dumps : index → str)
    (folder output_file : str) (w : world) :
  (∀ file path, (file, path) ∈ lua_files (walk w folder) →
                is_Some (files w !! path)) →
  output_file ∉ dirs w →
  ∃ requirement_local w',
    generate_dependency_json json_dumps folder output_file w = (Ok (), w')
    ∧ appended w w' output_file (json_dumps requirement_local)
    ∧ ∀ name reqs,
        Dict.get name requirement_local = Some reqs ↔
        last_declaring w (lua_files (walk w folder)) name reqs.
Proof.
  intros Hread Hdir.
  exists (foldl (record_file w) [] (lua_files (walk w folder))).
  unfold generate_dependency_json. rewrite bind_unfold.
  change (os_walk folder w) with (Ok (walk w folder), w). cbv iota.
  rewrite bind_unfold, scan_tree_walked by done. cbv iota.
  rewrite bind_unfold.
  destruct (write_files_Ok output_file
              (json_dumps (foldl (record_file w) [] (lua_files (walk w folder))))
              w Hdir) as (w1 & -> & Happ).
  cbv iota. eexists. split; [reflexivity|]. split.
  - eapply appended_unchanged_r; [done|]. by repeat split.
  - intros name reqs. rewrite foldl_record_file_get by done. split; [|by left].
    by intros [?|[_ [=]]].
Qed.

Lemma generate_dependency_json_index_witness :
  ∃ requirement_local w',
    generate_dependency_json json_text "proj" "proj/deps.json" twin_world = (Ok (), w')
    ∧ appended twin_world w' "proj/deps.json" (json_text requirement_local)
    ∧ ∀ name reqs,
        Dict.get name requirement_local = Some reqs ↔
        last_declaring twin_world (lua_files (walk twin_world "proj")) name reqs.
Proof.
  apply (generate_dependency_json_index json_text "proj" "proj/deps.json" twin_world).
  - intros file path Hin. vm_compute in Hin.
    apply elem_of_cons in Hin as [Heq|Hin].
    { injection Heq as -> ->. vm_compute. by eexists. }
    apply list_elem_of_singleton in Hin. injection Hin as -> ->.
    vm_compute. by eexists.
  - apply (bool_decide_unpack _). vm_compute. exact I.
Defined.

(** ** Function blocks *)

Section lines.
Implicit Types t u body rest trail : str.

Lemma no_end_line_split bol t u1 u2 :
  no_end_line bol t = true → t = u1 ++ u2 → u2 ≠ [] →
  Re.bol_after bol u1 = true → Py.strip_prefix "end" u2 = None.
Proof.
  revert bol t. induction u1 as [|x u1 IH]; intros bol t Ht -> Hu2 Hbol.
  - cbn in Hbol. subst bol. destruct u2 as [|x u2]; [done|].
    cbn [app no_end_line] in Ht. apply andb_prop in Ht as [Ht _].
    by apply bool_decide_eq_true in Ht.
  - cbn [app no_end_line] in Ht. apply andb_prop in Ht as [_ Ht].
    rewrite bol_after_cons in Hbol. by eapply IH.
Qed.

(** What follows a line break of the body has no [end] line either. *)
Lemma no_end_line_suffix bol t u1 u2 :
  no_end_line bol t = true → t = u1 ++ nl :: u2 → no_end_line true u2 = true.
Proof.
  revert bol t. induction u1 as [|x u1 IH]; intros bol t Ht ->.
  - cbn [app no_end_line] in Ht. by apply andb_prop in Ht as [_ Ht].
  - cbn [app no_end_line] in Ht. apply andb_prop in Ht as [_ Ht]. by eapply IH.
Qed.

Lemma bol_after_last bol u1 u2 :
  u2 ≠ [] → Re.bol_after bol (u1 ++ u2) = true → ∃ u2', u2 = u2' ++ [nl].
Proof.
  intros Hu2. rewrite bol_after_app. unfold Re.bol_after at 1.
  destruct (last u2) as [x|] eqn:Hlast; [|by apply last_None in Hlast].
  apply last_Some in Hlast as [u2' ->]. unfold is_nl.
  intros ->%bool_decide_eq_true. by exists u2'.
Qed.

(** A text [l] without line break is not found at a place where a line break
    comes before its end. *)
Lemma strip_prefix_line (l : string) u2 s :
  nl ∉ list_ascii_of_string l →
  Py.strip_prefix l u2 = None → (∃ u2', u2 = u2' ++ [nl]) →
  Py.strip_prefix l (u2 ++ s) = None.
Proof.
  intros Hl Hu2 [u2' ->].
  destruct (Py.strip_prefix l ((u2' ++ [nl]) ++ s)) as [r|] eqn:Hr; [|done].
  apply strip_prefix_app_inv in Hr as [[r' Hr']|(l' & Hl' & _)]; [congruence|].
  destruct Hl. rewrite Hl'. rewrite !elem_of_app, list_elem_of_singleton. auto.
Qed.
End lines.

Section block_end.
Context (trail rest : str).
Context (Htrail : Forall (λ x, is_space x = true) trail).
Context (Hrest : after_end rest).

Lemma end_of_line_match bol :
  Re.match_here [Re.Rep is_space 0 true; Re.Eol] bol (trail ++ rest)
  = Some ([trail; []], rest).
Proof.
  destruct Hrest as [->|(blank & x & rest' & -> & Hblank & Hnl & Hx)].
  - rewrite app_nil_r.
    pose proof (rep_greedy is_space (Re.match_here [Re.Eol]) 0 bol trail [] []) as H.
    rewrite !app_nil_r in H. apply H; [done|done|by intros ?? [=]|lia| |done].
    intros [|??] ?? ? Hv; [done|]. by destruct Hv.
  - apply (rep_greedy is_space (Re.match_here [Re.Eol]) 0 bol trail
             (nl :: blank) (x :: rest')).
    + done.
    + by constructor.
    + by apply stops_cons.
    + lia.
    + intros [|y v1] v2 b Hv Hne; [done|]. injection Hv as _ ->.
      cbn [Re.match_here]. assert (Re.at_eol (v2 ++ x :: rest') = false) as ->; [|done].
      destruct v2 as [|z v2]; cbn.
      * unfold is_nl. apply bool_decide_eq_false. intros ->. done.
      * unfold is_nl. apply bool_decide_eq_false. intros ->. apply Hnl.
        apply elem_of_app. right. left.
    + done.
Qed.

(** From the start of a line of the body, the end of the pattern takes
    the text up to the line [end] and the white space after it. *)
Lemma block_end_match t :
  no_end_line true t = true → Re.bol_after true t = true →
  Re.match_here block_end true (t ++ "end" ++ trail ++ rest)
  = Some ([t; []; list_ascii_of_string "end"; trail; []], rest).
Proof.
  intros Ht Hbol. unfold block_end.
  apply (rep_lazy any_char
           (Re.match_here [Re.Bol; Re.Lit "end"; Re.Rep is_space 0 true; Re.Eol])
           true t ("end" ++ trail ++ rest)).
  - by apply Forall_true.
  - intros u1 u2 -> Hu2. cbn [Re.match_here].
    destruct (Re.bol_after true u1) eqn:Hu1; [|done].
    rewrite (strip_prefix_line "end"); [done|by apply (bool_decide_unpack _)
      |by eapply no_end_line_split|by eapply bol_after_last].
  - rewrite Hbol. cbn [Re.match_here]. rewrite strip_prefix_app.
    pose proof (end_of_line_match (Re.bol_after true "end")) as H.
    cbn [Re.match_here] in H. by rewrite H.
Qed.
End block_end.

(** A run of characters of a class at the front of [a ++ x :: t], where [x]
    is not of the class, lies within [a]. *)
Lemma app_eq_run (c : ascii → bool) (a u s t : str) x :
  a ++ x :: t = u ++ s → Forall (λ y, c y = true) u → c x = false →
  ∃ b, a = u ++ b ∧ s = b ++ x :: t.
Proof.
  intros Heq Hu Hx. revert a Heq.
  induction Hu as [|y u Hy Hu IH]; intros a Heq; [by exists a|].
  destruct a as [|z a]; cbn in Heq.
  - injection Heq as -> _. congruence.
  - injection Heq as -> Heq. destruct (IH a Heq) as (b & -> & ->). by exists b.
Qed.

Section declaration.
Context (name params body trail rest : str).
Context (Hname_ne : name ≠ []).
Context (Hname : Forall (λ x, is_word_or_dot x = true) name).
Context (Hparams : ")"%char ∉ params).
Context (Hbody : no_end_line true body = true).
Context (Hbody_bol : Re.bol_after true body = true).
Context (Htrail : Forall (λ x, is_space x = true) trail).
Context (Hrest : after_end rest).

(** After the parameters: the parenthesis, the line break, the body and the
    line [end]. *)
Lemma after_params_match bol :
  ∃ chunks,
    Re.match_here
      (Re.Lit ")" :: Re.Rep is_space 0 true :: Re.Lit [nl] :: block_end) bol
      (")" ++ [nl] ++ body ++ "end" ++ trail ++ rest)
    = Some (chunks, rest)
    ∧ mjoin chunks = ")" ++ [nl] ++ body ++ "end" ++ trail.
Proof.
  rewrite match_here_Lit, match_here_Rep.
  set (k := Re.match_here (Re.Lit [nl] :: block_end)).
  set (b := Re.bol_after bol ")").
  destruct (rep_complete is_space k true 0 b [] ([nl] ++ body ++ "end" ++ trail ++ rest))
    as [[chunks4 rest4] Hrep]; [done|cbn; lia| |].
  { unfold k. rewrite match_here_Lit.
    change (Re.bol_after (Re.bol_after b []) [nl]) with true.
    rewrite block_end_match by done. by eexists. }
  cbn [app] in Hrep |- *. rewrite Hrep.
  apply rep_sound in Hrep as (u & s' & chunks' & Hsplit & Hu & _ & Hk & ->).
  unfold k in Hk.
  apply match_here_Lit_inv in Hk as (s'' & chunks'' & -> & Hend & ->).
  change (Re.bol_after (Re.bol_after b u) [nl]) with true in Hend.
  destruct (app_eq_run is_space (nl :: body) (u ++ [nl]) s''
              (list_ascii_of_string "nd" ++ trail ++ rest) "e") as (b2 & Hb2 & ->).
  { rewrite <-(assoc_L (++) u). cbn in Hsplit |- *. exact Hsplit. }
  { apply Forall_app. split; [done|]. by repeat constructor. }
  { done. }
  assert (no_end_line true b2 = true ∧ Re.bol_after true b2 = true) as [Hb2_end Hb2_bol].
  { destruct u as [|x u]; cbn in Hb2.
    - injection Hb2 as <-. done.
    - injection Hb2 as <- Hb2. rewrite <-(assoc_L (++)) in Hb2. cbn in Hb2. split.
      + by eapply no_end_line_suffix.
      + rewrite Hb2 in Hbody_bol. rewrite bol_after_app, bol_after_cons in Hbody_bol.
        done. }
  change ("e"%char :: list_ascii_of_string "nd" ++ trail ++ rest)
    with (list_ascii_of_string "end" ++ trail ++ rest) in Hend.
  rewrite block_end_match in Hend by done. injection Hend as <- <-.
  eexists. split; [done|].
  transitivity (")" ++ (nl :: body) ++ "end" ++ trail); [|done].
  rewrite Hb2. cbn. rewrite <-!(assoc_L (++)), !app_nil_r. done.
Qed.

(** The pattern of a declaration at the start of the declaration. *)
Lemma declaration_match bol :
  ∃ r, Re.match_here (declaration_pattern name) bol
         (declaration name params body ++ trail ++ rest) = Some r
       ∧ Re.group0 r = declaration name params body ++ trail ∧ r.2 = rest.
Proof.
  unfold declaration, declaration_pattern. fold block_end.
  change (list_ascii_of_string "function ") with ("function" ++ " ").
  rewrite <-!(assoc_L (++)).
  destruct (after_params_match (Re.bol_after false params))
    as (chunks & Hafter & Hjoin).
  eexists. split; [|split].
  - apply match_here_Lit_Some.
    apply match_here_Rep_Some;
      [by repeat constructor
      |by eapply stops_app_ne, Hname; [apply word_or_dot_not_space|]
      |cbn; lia|].
    apply match_here_Lit_Some.
    apply (match_here_Rep_Some _ _ _ _ []); [done|by apply stops_cons|cbn; lia|].
    apply (match_here_Lit_Some "("). rewrite match_here_Rep.
    apply rep_lazy; [by apply Forall_true| |].
    + intros u1 u2 -> Hu2. apply match_here_Lit_None.
      destruct u2 as [|x u2]; [done|]. apply strip_prefix_head. intros <-.
      apply Hparams. apply elem_of_app. right. left.
    + exact Hafter.
  - unfold Re.group0. cbn [fst].
    repeat match goal with
    | |- context [mjoin (?x :: ?l)] => change (mjoin (x :: l)) with (x ++ mjoin l)
    end.
    by rewrite Hjoin.
  - done.
Qed.
End declaration.

(** The search passes over a part of the text where the pattern matches at
    no position. *)
Lemma search_from_no_match_before p bol pre s :
  no_match_before p bol pre s = true →
  Re.search_from p bol (pre ++ s) = Re.search_from p (Re.bol_after bol pre) s.
Proof.
  revert bol. induction pre as [|x pre IH]; intros bol Hpre; [done|].
  cbn [no_match_before] in Hpre. apply andb_prop in Hpre as [Hx Hpre].
  apply bool_decide_eq_true in Hx. cbn [app] in Hx.
  cbn [app Re.search_from]. rewrite Hx, bol_after_cons. by apply IH.
Qed.

(** The first match of the pattern of a declaration, behind a part of the
    text where it matches at no position. *)
Lemma search_declaration pre name params body trail rest :
  no_match_before (declaration_pattern name) true pre
    (declaration name params body ++ trail ++ rest) = true →
  name ≠ [] → Forall (λ x, is_word_or_dot x = true) name →
  ")"%char ∉ params →
  no_end_line true body = true → Re.bol_after true body = true →
  Forall (λ x, is_space x = true) trail → after_end rest →
  ∃ r, Re.search (declaration_pattern name)
         (pre ++ declaration name params body ++ trail ++ rest) = Some r
       ∧ Re.group0 r = declaration name params body ++ trail.
Proof.
  intros Hpre Hne Hname Hparams Hbody Hbody_bol Htrail Hrest.
  destruct (declaration_match name params body trail rest Hne Hname Hparams
              Hbody Hbody_bol Htrail Hrest (Re.bol_after true pre))
    as (r & Hr & Hgroup & _).
  exists r. split; [|done]. unfold Re.search.
  rewrite search_from_no_match_before by done. by apply search_from_hit.
Qed.

(** C7 as stated fails: in a module where a blank line and more text follow
    the declaration, the text returned goes past [end], with the line break
    after it. *)
Lemma extract_function_block_trailing_break :
  Py.contains widget_block widget_module = true
  ∧ extract_function_block widget_module "Widget.make" = Some (widget_block ++ [nl])
  ∧ widget_block ++ [nl] ≠ widget_block.
Proof.
  split_and!; [vm_compute; reflexivity..|].
  intros Heq. apply (f_equal length) in Heq. vm_compute in Heq. lia.
Qed.

(** C7, amended.  When neither form matches in the source, the result is
    not-found.  Take a source made of a text [pre], the declaration
    [function <name>(<params>)] with one blank after [function] and a line
    break right after the closing parenthesis, a body, the word [end], white
    space [trail] and a text [rest], where
    - the assignment form matches nowhere in the source,
    - the declaration form matches at no position of [pre] (the declaration
      is the first place where it matches; [pre] may hold other functions),
    - the name is a non-empty run of word characters and dots,
    - the parameters hold no closing parenthesis,
    - the body is empty or ends with a line break, and none of its lines
      starts with [end],
    - [rest] is empty, or is a line break followed by blanks without line
      break and then a visible character.
    The result is the text from [function] through that [end] together with
    the white space [trail] that follows it, up to the last line break
    before the next visible character (all of it when nothing else
    follows). *)
Theorem extract_function_block_declaration :
  (∀ lua_code function_name,
     Re.search (assignment_pattern function_name) lua_code = None →
     Re.search (declaration_pattern function_name) lua_code = None →
     extract_function_block lua_code function_name = None)
  ∧ (∀ pre name params body trail rest,
       Re.search (assignment_pattern name)
         (pre ++ declaration name params body ++ trail ++ rest) = None →
       no_match_before (declaration_pattern name) true pre
         (declaration name params body ++ trail ++ rest) = true →
       name ≠ [] → Forall (λ x, is_word_or_dot x = true) name →
       ")"%char ∉ params →
       no_end_line true body = true → Re.bol_after true body = true →
       Forall (λ x, is_space x = true) trail → after_end rest →
       extract_function_block
         (pre ++ declaration name params body ++ trail ++ rest) name
       = Some (declaration name params body ++ trail)).
Proof.
  split.
  - intros lua_code function_name Hassign Hdecl.
    unfold extract_function_block. by rewrite Hassign, Hdecl.
  - intros pre name params body trail rest Hassign Hpre Hne Hname
      Hparams Hbody Hbody_bol Htrail Hrest.
    destruct (search_declaration pre name params body trail rest)
      as (r & Hr & Hgroup); [done..|].
    unfold extract_function_block. by rewrite Hassign, Hr, Hgroup.
Qed.

Lemma extract_function_block_declaration_witness :
  extract_function_block widget_block "Widget.mak" = None
  ∧ extract_function_block
      ([] ++ declaration "Widget.make" "x" ("  return x" ++ [nl]) ++ [] ++ [])
      "Widget.make"
    = Some (declaration "Widget.make" "x" ("  return x" ++ [nl]) ++ [])
  ∧ extract_function_block
      (("local Widget = {}" ++ [nl])
       ++ declaration "Widget.make" "x" ("  return x" ++ [nl]) ++ [nl]
       ++ nl :: "return Widget" ++ [nl])
      "Widget.make"
    = Some (declaration "Widget.make" "x" ("  return x" ++ [nl]) ++ [nl])
  ∧ extract_function_block
      (("local Widget = {}" ++ [nl]
        ++ declaration "Widget.make" "x" ("  return x" ++ [nl]) ++ [nl]
        ++ "  ")
       ++ declaration "Widget.size" "w, h" ("  return w * h" ++ [nl]) ++ [nl]
       ++ nl :: "return Widget" ++ [nl])
      "Widget.size"
    = Some (declaration "Widget.size" "w, h" ("  return w * h" ++ [nl]) ++ [nl]).
Proof.
  split_and!.
  - apply (proj1 extract_function_block_declaration); vm_compute; reflexivity.
  - apply (proj2 extract_function_block_declaration);
      first [ vm_compute; reflexivity
            | by left
            | by repeat constructor
            | apply (bool_decide_unpack _); vm_compute; exact I ].
  - apply (proj2 extract_function_block_declaration);
      first [ vm_compute; reflexivity
            | by repeat constructor
            | apply (bool_decide_unpack _); vm_compute; exact I
            | idtac ].
    right. exists [], "r"%char, (list_ascii_of_string "eturn Widget" ++ [nl]).
    split_and!; [done|done|by apply not_elem_of_nil|done].
  - apply (proj2 extract_function_block_declaration);
      first [ vm_compute; reflexivity
            | by repeat constructor
            | apply (bool_decide_unpack _); vm_compute; exact I
            | idtac ].
    right. exists [], "r"%char, (list_ascii_of_string "eturn Widget" ++ [nl]).
    split_and!; [done|done|by apply not_elem_of_nil|done].
Defined.

(** ** The closure walk: when it ends and what it returns *)

Section closure_more.
Context (idx : index).

(** A chain of declarations longer than the index passes twice through a
    module that the start of the chain reaches. *)
Lemma long_chain_reached_cycle m a :
  nsteps (requires idx) (S (length idx)) m a →
  ∃ b, rtc (requires idx) m b ∧ tc (requires idx) b b.
Proof.
  intros (l & Hlen & Hhead & _ & Hl)%nsteps_list.
  set (keys := (λ b : str, b ++ ".lua") <$> take (S (length idx)) l).
  destruct (list_pigeonhole keys (Dict.keys idx)) as (i & j & k & Hij & Hi & Hj).
  - intros k (b & -> & Hb)%list_elem_of_fmap.
    apply list_elem_of_lookup in Hb as [i Hi].
    apply lookup_take_Some in Hi as [Hi Hlt].
    destruct (lookup_lt_is_Some_2 l (S i)) as [c Hc]; [lia|].
    destruct (Hl _ _ _ Hi Hc) as (va & Hva & _).
    clear -Hva. induction idx as [|[k v] d IH]; [done|].
    cbn in *. case_decide; [subst; left|right; auto].
  - unfold keys, Dict.keys. rewrite !length_fmap, length_take. lia.
  - unfold keys in Hi, Hj. rewrite list_lookup_fmap in Hi, Hj.
    destruct (take _ l !! i) as [b|] eqn:Hb; [|done].
    destruct (take _ l !! j) as [c|] eqn:Hc; [|done].
    cbn in Hi, Hj. assert (b = c) as <-.
    { apply (app_inv_tail (list_ascii_of_string ".lua")). cbn. congruence. }
    apply lookup_take_Some in Hb as [Hb _], Hc as [Hc _].
    exists b. split; [|eauto using chain_tc].
    destruct l as [|m' l']; [done|]. injection Hhead as ->.
    destruct i as [|i].
    + injection Hb as ->. done.
    + apply tc_rtc. eapply (chain_tc idx (m :: l') 0 (S i)); eauto; lia.
Qed.

(** Without a cycle within reach of the start, the levels of the walk are
    exhausted after as many steps as the index has entries. *)
Lemma no_reached_cycle_level_nil start :
  (¬ ∃ m, rtc (requires idx) start m ∧ tc (requires idx) m m) →
  level idx [start] (S (length idx)) = [].
Proof.
  intros Hno.
  destruct (level idx [start] (S (length idx))) as [|a l] eqn:Hl; [done|].
  assert (a ∈ level idx [start] (S (length idx))) as Ha by (rewrite Hl; left).
  apply elem_of_level in Ha as (m & ->%list_elem_of_singleton & Ha).
  apply long_chain_reached_cycle in Ha as (b & Hb & Hcyc).
  destruct Hno. eauto.
Qed.

(** What the loop returns starts with what had been recorded. *)
Lemma queue_loop_prefix fuel q deps r :
  queue_loop fuel idx q deps = Some r → ∃ t, r = deps ++ t.
Proof.
  revert q deps. induction fuel as [|fuel IH]; intros q deps Hr; [done|].
  cbn in Hr. destruct q as [|m q].
  - injection Hr as <-. exists []. by rewrite app_nil_r.
  - destruct (Dict.get _ idx).
    + apply IH in Hr as [t ->]. exists (m :: t). by rewrite <-(assoc_L (++)).
    + by apply IH in Hr.
Qed.

(** The list of a walk that ends is the list of the levels. *)
Lemma queue_loop_visited fuel q deps r :
  queue_loop fuel idx q deps = Some r →
  ∃ k, level idx q k = [] ∧ r = deps ++ visited idx q k.
Proof.
  intros Hr. destruct (queue_loop_Some_level idx _ _ _ _ Hr) as [k Hk].
  exists k. split; [done|].
  destruct (queue_loop_terminates idx k q deps Hk) as [fuel' Hfuel'].
  apply (queue_loop_mono _ _ (fuel `max` fuel')) in Hr; [|lia].
  apply (queue_loop_mono _ _ (fuel `max` fuel')) in Hfuel'; [|lia]. congruence.
Qed.
End closure_more.

(** X1.  The walk of [extract_dependencies] comes to an end, for some
    amount of fuel, exactly when no module that the seed reaches along the
    declarations of the index requires itself through one or more
    declarations. *)
Theorem extract_dependencies_terminates_iff (idx : index) (unique : str) :
  (∃ fuel r, extract_dependencies fuel unique idx = Some r)
  ↔ ¬ ∃ m, rtc (requires idx) (seed unique) m ∧ tc (requires idx) m m.
Proof.
  unfold extract_dependencies. split.
  - intros (fuel & r & Hr) (m & Hm & Hcyc).
    by rewrite (queue_loop_cycle_diverges idx _ m fuel Hm Hcyc) in Hr.
  - intros Hno. apply no_reached_cycle_level_nil in Hno.
    destruct (queue_loop_terminates idx _ _ [] Hno) as [fuel Hfuel]. eauto.
Qed.

(** X2.  When [extract_dependencies] returns a list, the list is the one of
    a walk in breadth: the modules with an entry among the seed, then among
    the aliases the seed declares, in the order of the declarations, then
    among the aliases those declare, and so on until a level is empty.  Its
    elements are the modules with an entry that the seed reaches, and more
    fuel gives the same list. *)
Theorem extract_dependencies_level_order (idx : index) (unique : str)
    (fuel : nat) (r : list str) :
  extract_dependencies fuel unique idx = Some r →
  (∃ k, level idx [seed unique] k = [] ∧ r = visited idx [seed unique] k)
  ∧ (∀ m, m ∈ r ↔ reachable idx (seed unique) m)
  ∧ (∀ fuel', fuel ≤ fuel' → extract_dependencies fuel' unique idx = Some r).
Proof.
  unfold extract_dependencies. intros Hr.
  destruct (queue_loop_visited idx _ _ _ _ Hr) as (k & Hk & ->).
  cbn [app]. split_and!; [by exists k| |by eauto using queue_loop_mono].
  intros m. rewrite elem_of_visited. unfold reachable. split.
  - intros (i & _ & (s & ->%list_elem_of_singleton & Hs)%elem_of_level & Hm).
    split; [by eapply rtc_nsteps_2|done].
  - intros [[i Hi]%rtc_nsteps Hm].
    assert (m ∈ level idx [seed unique] i) as Hin.
    { apply elem_of_level. exists (seed unique). split; [left|done]. }
    exists i. split_and!; [|done..].
    destruct (decide (i < k)) as [|Hge]; [done|].
    rewrite (level_nil_le idx _ k i) in Hin; [|done|lia].
    by apply elem_of_nil in Hin.
Qed.

Lemma extract_dependencies_level_order_witness :
  (∃ k, level diamond_index [seed "A"] k = []
        ∧ ["A" : str; "B" : str; "C" : str; "D" : str; "D" : str]
          = visited diamond_index [seed "A"] k)
  ∧ (∀ m, m ∈ ["A" : str; "B" : str; "C" : str; "D" : str; "D" : str]
          ↔ reachable diamond_index (seed "A") m)
  ∧ (∀ fuel', 12 ≤ fuel' →
       extract_dependencies fuel' "A" diamond_index
       = Some ["A" : str; "B" : str; "C" : str; "D" : str; "D" : str]).
Proof.
  apply (extract_dependencies_level_order diamond_index "A" 12).
  vm_compute. reflexivity.
Defined.

(** X3.  The list is empty exactly when the seed has no entry in the index,
    which two units of fuel suffice to find out; when the seed has an entry,
    a list that is returned starts with the seed. *)
Theorem extract_dependencies_seed_entry (idx : index) (unique : str) :
  (Dict.get (seed unique ++ ".lua") idx = None →
   ∀ fuel, 2 ≤ fuel → extract_dependencies fuel unique idx = Some [])
  ∧ (∀ fuel r value_array,
       Dict.get (seed unique ++ ".lua") idx = Some value_array →
       extract_dependencies fuel unique idx = Some r →
       ∃ r', r = seed unique :: r').
Proof.
  unfold extract_dependencies. split.
  - intros Hget fuel Hfuel. destruct fuel as [|[|fuel]]; [lia..|].
    cbn [queue_loop]. by rewrite Hget.
  - intros fuel r value_array Hget Hr. destruct fuel as [|fuel]; [done|].
    cbn [queue_loop] in Hr. rewrite Hget in Hr.
    apply queue_loop_prefix in Hr as [t ->]. by exists t.
Qed.

Lemma extract_dependencies_seed_entry_witness :
  extract_dependencies 2 "http.get" diamond_index = Some []
  ∧ ∃ r', ["A" : str; "B" : str; "C" : str; "D" : str; "D" : str]
          = seed "x.A" :: r'.
Proof.
  split.
  - apply (extract_dependencies_seed_entry diamond_index "http.get");
      [vm_compute; reflexivity|lia].
  - apply (proj2 (extract_dependencies_seed_entry diamond_index "x.A") 12 _
             [("B" : str, "lib.B" : str); ("C" : str, "lib.C" : str)]);
      vm_compute; reflexivity.
Defined.

(** ** The scanners: the shape of what they return *)

(** Every item of a reading was met somewhere in the text. *)
Lemma reading_elem {A} (hit : str → A → str → Prop) s l a :
  (∀ s a rest, hit s a rest → ∃ body, s = body ++ rest) →
  reading hit s l → a ∈ l → ∃ pre s' rest, s = pre ++ s' ∧ hit s' a rest.
Proof.
  intros Hsuffix Hread.
  induction Hread as [|s a0 rest l Hhit Hread IH|x s l Hno Hread IH].
  - by intros ?%elem_of_nil.
  - intros [->|Ha]%elem_of_cons.
    + by exists [], s, rest.
    + destruct (IH Ha) as (pre & s' & rest' & -> & Hhit').
      destruct (Hsuffix _ _ _ Hhit) as [body ->].
      exists (body ++ pre), s', rest'. by rewrite <-(assoc_L (++)).
  - intros Ha. destruct (IH Ha) as (pre & s' & rest' & -> & Hhit').
    by exists (x :: pre), s', rest'.
Qed.

Lemma reference_hit_suffix alias s a rest :
  reference_hit alias s a rest → ∃ body, s = body ++ rest.
Proof.
  intros (ident & -> & -> & _). exists (alias ++ "." ++ ident).
  by rewrite <-!(assoc_L (++)).
Qed.

Lemma requirement_at_suffix s a rest :
  requirement_at s a rest → ∃ body, s = body ++ rest.
Proof.
  intros (ws1 & ws2 & ws3 & ws4 & q1 & q2 & -> & _).
  exists ("local" ++ ws1 ++ a.1 ++ ws2 ++ "=" ++ ws3 ++ "require" ++ ws4
          ++ q1 :: a.2 ++ [q2]).
  rewrite <-!(assoc_L (++)). cbn. by rewrite <-!(assoc_L (++)).
Qed.

Lemma word_not_dot x : is_word x = true → x ≠ dot.
Proof. intros Hx ->. by vm_compute in Hx. Qed.

Lemma word_no_dot (u : str) : Forall (λ x, is_word x = true) u → dot ∉ u.
Proof.
  intros Hu Hdot. rewrite Forall_forall in Hu.
  by apply (word_not_dot dot (Hu _ Hdot)).
Qed.

(** What is known of a text that is returned. *)
Lemma find_references_elem_inv (code alias r : str) :
  r ∈ find_references code alias →
  ∃ ident,
    r = alias ++ "." ++ ident
    ∧ ident ≠ [] ∧ Forall (λ x, is_word x = true) ident
    ∧ (∃ pre post, code = pre ++ r ++ post)
    ∧ (dot ∉ alias → Py.split dot r = [alias; ident] ∧ seed r = ident).
Proof.
  intros Hr.
  assert (references alias code (find_references code alias)) as Hread
    by by apply find_references_references.
  destruct (reading_elem _ _ _ _ (reference_hit_suffix alias) Hread Hr)
    as (pre & s' & rest & -> & ident & -> & Hs' & Hne & Hident & _).
  exists ident. split_and!; [done..| |].
  - exists pre, rest. rewrite Hs'. by rewrite <-!(assoc_L (++)).
  - intros Halias. pose proof (word_no_dot _ Hident) as Hdot.
    change (alias ++ "." ++ ident) with (alias ++ dot :: ident).
    rewrite split_app_sep, split_no_sep by done. split; [done|].
    change (alias ++ dot :: ident) with (alias ++ "." ++ ident).
    by rewrite seed_qualified, split_no_sep.
Qed.

(** X4.  Every text that [find_references] returns is the module name, a
    dot and a non-empty run of word characters, and stands in the code.  When
    the module name has no dot, the text has two dotted segments, the module
    name and the member, and the member is the seed that
    [extract_dependencies] takes from it. *)
Theorem find_references_shape (code alias r : str) :
  r ∈ find_references code alias →
  ∃ ident,
    r = alias ++ "." ++ ident
    ∧ ident ≠ [] ∧ Forall (λ x, is_word x = true) ident
    ∧ (∃ pre post, code = pre ++ r ++ post)
    ∧ (dot ∉ alias → Py.split dot r = [alias; ident] ∧ seed r = ident).
Proof. apply find_references_elem_inv. Qed.

Lemma find_references_shape_witness :
  ∃ ident,
    ("http.get" : str) = "http" ++ "." ++ ident
    ∧ ident ≠ [] ∧ Forall (λ x, is_word x = true) ident
    ∧ (∃ pre post, ("x = http.get(url)" : str) = pre ++ "http.get" ++ post)
    ∧ Py.split dot "http.get" = [("http" : str); ident]
    ∧ seed "http.get" = ident.
Proof.
  destruct (find_references_shape "x = http.get(url)" "http" "http.get")
    as (ident & Hr & Hne & Hident & Hin & Hseed); [vm_compute; left|].
  exists ident. split_and!; [done..| |]; apply Hseed;
    apply (bool_decide_unpack _); vm_compute; exact I.
Defined.

(** X5.  A reference does not reach across a character that is neither a
    word character nor a dot: the references of a text cut at such a
    character are those of the part before it followed by those of the part
    after it. *)
Theorem find_references_separator (alias pre s : str) (x : ascii) :
  alias ≠ [] → Forall (λ y, is_word y = true) alias →
  is_word x = false → x ≠ dot →
  find_references (pre ++ x :: s) alias
  = find_references pre alias ++ find_references s alias.
Proof. apply find_references_sep. Qed.

Lemma find_references_separator_witness :
  find_references ("a = http.get(u)" ++ nl :: "b = http.post(u)") "http"
  = find_references "a = http.get(u)" "http"
    ++ find_references "b = http.post(u)" "http".
Proof.
  apply (find_references_separator "http" "a = http.get(u)" "b = http.post(u)" nl).
  - done.
  - apply (bool_decide_unpack _). vm_compute. exact I.
  - vm_compute. reflexivity.
  - done.
Defined.

(** A requirement at the start of a text is taken, and the scan goes on
    behind its closing quote. *)
Lemma extract_local_requirements_head s a rest :
  requirement_at s a rest →
  extract_local_requirements s = a :: extract_local_requirements rest.
Proof.
  intros Hat. apply extract_local_requirements_requirements.
  apply reading_here with rest; [done|].
  by apply extract_local_requirements_requirements.
Qed.

(** X6.  Every pair that [extract_local_requirements] returns has a
    non-empty alias of word characters, hence without a dot, and a non-empty
    path of word characters and dots, which stands in the code between two
    quote characters. *)
Theorem extract_local_requirements_shape (lua_code alias path : str) :
  (alias, path) ∈ extract_local_requirements lua_code →
  alias ≠ [] ∧ Forall (λ x, is_word x = true) alias ∧ (dot ∉ alias)
  ∧ path ≠ [] ∧ Forall (λ x, is_word_or_dot x = true) path
  ∧ ∃ pre q1 q2 post,
      lua_code = pre ++ q1 :: path ++ q2 :: post
      ∧ is_quote q1 = true ∧ is_quote q2 = true.
Proof.
  intros Hin.
  assert (requirements lua_code (extract_local_requirements lua_code)) as Hread
    by by apply extract_local_requirements_requirements.
  destruct (reading_elem requirement_at _ _ _ requirement_at_suffix Hread Hin)
    as (pre & s' & rest & -> & ws1 & ws2 & ws3 & ws4 & q1 & q2 & -> & _ & _ & _
        & _ & _ & Ha_ne & Ha & Hq1 & Hq2 & Hp_ne & Hp).
  cbn [fst snd] in *.
  split_and!; [done|done|by apply word_no_dot|done|done|].
  exists (pre ++ "local" ++ ws1 ++ alias ++ ws2 ++ "=" ++ ws3 ++ "require" ++ ws4),
    q1, q2, rest.
  split_and!; [|done..]. by rewrite <-!(assoc_L (++)).
Qed.

Lemma extract_local_requirements_shape_witness :
  ("http" : str) ≠ [] ∧ Forall (λ x, is_word x = true) ("http" : str)
  ∧ (dot ∉ list_ascii_of_string "http")
  ∧ ("lib.http" : str) ≠ []
  ∧ Forall (λ x, is_word_or_dot x = true) ("lib.http" : str)
  ∧ ∃ pre q1 q2 post,
      ("local http = require 'lib.http'" : str) = pre ++ q1 :: "lib.http" ++ q2 :: post
      ∧ is_quote q1 = true ∧ is_quote q2 = true.
Proof.
  apply (extract_local_requirements_shape "local http = require 'lib.http'").
  vm_compute. left.
Defined.

(** X7.  A requirement at the start of a text, written without parentheses
    and between any two quote characters, alike or not, is returned first,
    and the pairs that follow are those of the text behind the closing
    quote. *)
Theorem extract_local_requirements_statement
    (ws1 alias ws2 ws3 ws4 path rest : str) (q1 q2 : ascii) :
  ws1 ≠ [] → Forall (λ x, is_space x = true) ws1 →
  Forall (λ x, is_space x = true) ws2 →
  Forall (λ x, is_space x = true) ws3 →
  Forall (λ x, is_space x = true) ws4 →
  alias ≠ [] → Forall (λ x, is_word x = true) alias →
  is_quote q1 = true → is_quote q2 = true →
  path ≠ [] → Forall (λ x, is_word_or_dot x = true) path →
  extract_local_requirements
    ("local" ++ ws1 ++ alias ++ ws2 ++ "=" ++ ws3 ++ "require" ++ ws4
     ++ q1 :: path ++ q2 :: rest)
  = (alias, path) :: extract_local_requirements rest.
Proof.
  intros. apply extract_local_requirements_head.
  exists ws1, ws2, ws3, ws4, q1, q2. by split_and!.
Qed.

Lemma extract_local_requirements_statement_witness :
  extract_local_requirements
    ("local" ++ " " ++ "http" ++ " " ++ "=" ++ " " ++ "require" ++ " "
     ++ dquote :: "lib.http" ++ squote :: nl :: "local x = require('y')")
  = ("http" : str, "lib.http" : str)
    :: extract_local_requirements (nl :: "local x = require('y')").
Proof.
  apply (extract_local_requirements_statement " " "http" " " " " " " "lib.http"
           (nl :: "local x = require('y')") dquote squote);
    try done; apply (bool_decide_unpack _); vm_compute; exact I.
Defined.

(** ** Function blocks: the assignment form, and what a block is *)

Section assignment.
Context (name ws1 ws2 ws3 params body trail rest : str).
Context (Hws1 : Forall (λ x, is_space x = true) ws1).
Context (Hws2 : Forall (λ x, is_space x = true) ws2).
Context (Hws3 : Forall (λ x, is_space x = true) ws3).
Context (Hparams : ")"%char ∉ params).
Context (Hbody : no_end_line true body = true).
Context (Hbody_bol : Re.bol_after true body = true).
Context (Htrail : Forall (λ x, is_space x = true) trail).
Context (Hrest : after_end rest).

(** The pattern of an assignment at the start of the assignment. *)
Lemma assignment_match bol :
  ∃ r, Re.match_here (assignment_pattern name) bol
         (assignment name ws1 ws2 ws3 params body ++ trail ++ rest) = Some r
       ∧ Re.group0 r = assignment name ws1 ws2 ws3 params body ++ trail
       ∧ r.2 = rest.
Proof.
  unfold assignment, assignment_pattern. fold block_end.
  rewrite <-!(assoc_L (++)).
  destruct (after_params_match body trail rest Hbody Hbody_bol Htrail Hrest
              (Re.bol_after false params)) as (chunks & Hafter & Hjoin).
  eexists. split; [|split].
  - apply match_here_Lit_Some.
    apply match_here_Rep_Some; [done|by apply stops_cons|lia|].
    apply (match_here_Lit_Some "=").
    apply match_here_Rep_Some; [done|by apply stops_cons|lia|].
    apply (match_here_Lit_Some "function").
    apply match_here_Rep_Some; [done|by apply stops_cons|lia|].
    apply (match_here_Lit_Some "("). rewrite match_here_Rep.
    apply rep_lazy; [by apply Forall_true| |].
    + intros u1 u2 -> Hu2. apply match_here_Lit_None.
      destruct u2 as [|x u2]; [done|]. apply strip_prefix_head. intros <-.
      apply Hparams. apply elem_of_app. right. left.
    + exact Hafter.
  - unfold Re.group0. cbn [fst].
    repeat match goal with
    | |- context [mjoin (?x :: ?l)] => change (mjoin (x :: l)) with (x ++ mjoin l)
    end.
    by rewrite Hjoin.
  - done.
Qed.
End assignment.

(** The first match of the pattern of an assignment, behind a part of the
    text where it matches at no position. *)
Lemma search_assignment pre name ws1 ws2 ws3 params body trail rest :
  no_match_before (assignment_pattern name) true pre
    (assignment name ws1 ws2 ws3 params body ++ trail ++ rest) = true →
  Forall (λ x, is_space x = true) ws1 →
  Forall (λ x, is_space x = true) ws2 →
  Forall (λ x, is_space x = true) ws3 →
  ")"%char ∉ params →
  no_end_line true body = true → Re.bol_after true body = true →
  Forall (λ x, is_space x = true) trail → after_end rest →
  ∃ r, Re.search (assignment_pattern name)
         (pre ++ assignment name ws1 ws2 ws3 params body ++ trail ++ rest) = Some r
       ∧ Re.group0 r = assignment name ws1 ws2 ws3 params body ++ trail.
Proof.
  intros Hpre Hws1 Hws2 Hws3 Hparams Hbody Hbody_bol Htrail Hrest.
  destruct (assignment_match name ws1 ws2 ws3 params body trail rest Hws1 Hws2
              Hws3 Hparams Hbody Hbody_bol Htrail Hrest (Re.bol_after true pre))
    as (r & Hr & Hgroup & _).
  exists r. split; [|done]. unfold Re.search.
  rewrite search_from_no_match_before by done. by apply search_from_hit.
Qed.

(** X8.  The assignment form comes first: whenever the pattern of an
    assignment is found in the source, its text is returned, whatever
    declarations the source holds.  Take a source made of a text [pre], the
    name, [=] and [function] with any white space [ws1], [ws2] around [=],
    white space [ws3], the parameters in parentheses, a line break right
    after the closing parenthesis, a body, the word [end], white space
    [trail] and a text [rest], where
    - the pattern of an assignment matches at no position of [pre] (the
      assignment need not start a line, and [pre] may hold the name),
    - the parameters hold no closing parenthesis,
    - the body is empty or ends with a line break, and none of its lines
      starts with [end],
    - [rest] is empty, or is a line break followed by blanks without line
      break and then a visible character.
    The text returned is that assignment, from the name through [end], with
    the white space [trail] that follows it. *)
Theorem extract_function_block_assignment :
  (∀ lua_code function_name m,
     Re.search (assignment_pattern function_name) lua_code = Some m →
     extract_function_block lua_code function_name = Some (Re.group0 m))
  ∧ (∀ pre name ws1 ws2 ws3 params body trail rest,
       no_match_before (assignment_pattern name) true pre
         (assignment name ws1 ws2 ws3 params body ++ trail ++ rest) = true →
       Forall (λ x, is_space x = true) ws1 →
       Forall (λ x, is_space x = true) ws2 →
       Forall (λ x, is_space x = true) ws3 →
       ")"%char ∉ params →
       no_end_line true body = true → Re.bol_after true body = true →
       Forall (λ x, is_space x = true) trail → after_end rest →
       extract_function_block
         (pre ++ assignment name ws1 ws2 ws3 params body ++ trail ++ rest) name
       = Some (assignment name ws1 ws2 ws3 params body ++ trail)).
Proof.
  split.
  - intros lua_code function_name m Hm. unfold extract_function_block.
    by rewrite Hm.
  - intros pre name ws1 ws2 ws3 params body trail rest Hpre
      Hws1 Hws2 Hws3 Hparams Hbody Hbody_bol Htrail Hrest.
    destruct (search_assignment pre name ws1 ws2 ws3 params body trail rest)
      as (r & Hr & Hgroup); [done..|].
    unfold extract_function_block. by rewrite Hr, Hgroup.
Qed.

Lemma extract_function_block_assignment_witness :
  extract_function_block
    ("function f()" ++ nl :: "  return 1" ++ nl :: "end" ++ nl
     :: "f = function()" ++ nl :: "  return 2" ++ nl :: "end") "f"
  = Some ("f = function()" ++ nl :: "  return 2" ++ nl :: "end")
  ∧ extract_function_block
      (("local M = {}" ++ [nl])
       ++ assignment "M.g" "  " "" " " "x, y" ("  return x" ++ [nl])
       ++ ("  " ++ [nl]) ++ nl :: "function M.g(y)" ++ nl :: "  return y"
       ++ nl :: "end" ++ [nl]) "M.g"
    = Some (assignment "M.g" "  " "" " " "x, y" ("  return x" ++ [nl])
            ++ "  " ++ [nl])
  ∧ extract_function_block
      (("-- helper doubles" ++ nl :: "  local ")
       ++ assignment "helper" " " " " "" "x" ("  return x + x" ++ [nl])
       ++ [] ++ []) "helper"
    = Some (assignment "helper" " " " " "" "x" ("  return x + x" ++ [nl]) ++ []).
Proof.
  split_and!.
  - pose proof (proj1 extract_function_block_assignment
      ("function f()" ++ nl :: "  return 1" ++ nl :: "end" ++ nl
       :: "f = function()" ++ nl :: "  return 2" ++ nl :: "end") "f") as H.
    destruct (Re.search _ _) as [m|] eqn:Hm; [|by vm_compute in Hm].
    rewrite (H m eq_refl). vm_compute in Hm. by injection Hm as <-.
  - apply (proj2 extract_function_block_assignment);
      first [ vm_compute; reflexivity
            | by repeat constructor
            | apply (bool_decide_unpack _); vm_compute; exact I
            | idtac ].
    right. exists [], "f"%char, ("unction M.g(y)" ++ nl :: "  return y"
      ++ nl :: "end" ++ [nl]).
    split_and!; [done|done|by intros ?%elem_of_nil|done].
  - apply (proj2 extract_function_block_assignment);
      first [ vm_compute; reflexivity
            | by left
            | by repeat constructor
            | apply (bool_decide_unpack _); vm_compute; exact I ].
Defined.

(** *** What a block is *)

Lemma search_from_Some p bol s r :
  Re.search_from p bol s = Some r →
  ∃ pre s', s = pre ++ s' ∧ Re.match_here p (Re.bol_after bol pre) s' = Some r.
Proof.
  revert bol. induction s as [|x s IH]; intros bol; cbn [Re.search_from].
  - destruct (Re.match_here p bol []) eqn:Hm; [|done].
    intros [= <-]. by exists [], [].
  - destruct (Re.match_here p bol (x :: s)) eqn:Hm.
    + intros [= <-]. by exists [], (x :: s).
    + intros (pre & s' & -> & Hs')%IH. exists (x :: pre), s'.
      by rewrite bol_after_cons.
Qed.

(** From the closing parenthesis to the end of a block. *)
Lemma block_tail_inv bol s chunks rest :
  Re.match_here (Re.Lit ")" :: Re.Rep is_space 0 true :: Re.Lit [nl] :: block_end)
    bol s = Some (chunks, rest) →
  ∃ ws body trail,
    mjoin chunks = ")" ++ ws ++ [nl] ++ body ++ "end" ++ trail
    ∧ Forall (λ x, is_space x = true) ws
    ∧ Forall (λ x, is_space x = true) trail
    ∧ Re.bol_after true body = true
    ∧ Re.at_eol rest = true.
Proof.
  intros (s1 & c1 & -> & H1 & ->)%match_here_Lit_inv.
  apply match_here_Rep_inv in H1 as (ws & s2 & c2 & -> & Hws & _ & H2 & ->).
  apply match_here_Lit_inv in H2 as (s3 & c3 & -> & H3 & ->).
  unfold block_end in H3.
  apply match_here_Rep_inv in H3 as (body & s4 & c4 & -> & _ & _ & H4 & ->).
  apply match_here_Bol_inv in H4 as (c5 & Hbol & H5 & ->).
  apply match_here_Lit_inv in H5 as (s6 & c6 & -> & H6 & ->).
  apply match_here_Rep_inv in H6 as (trail & s7 & c7 & -> & Htrail & _ & H7 & ->).
  apply match_here_Eol_inv in H7 as (c8 & Heol & H8 & ->).
  cbn [Re.match_here] in H8. injection H8 as <- <-.
  exists ws, body, trail. split_and!; [|done..].
  repeat match goal with
  | |- context [mjoin (?x :: ?l)] => change (mjoin (x :: l)) with (x ++ mjoin l)
  end.
  change (mjoin (@nil str)) with (@nil ascii). by rewrite !app_nil_r, !app_nil_l.
Qed.

Lemma assignment_pattern_inv name bol s r :
  Re.match_here (assignment_pattern name) bol s = Some r →
  ∃ head params ws body trail,
    Re.group0 r
    = head ++ "(" ++ params ++ ")" ++ ws ++ [nl] ++ body ++ "end" ++ trail
    ∧ block_head name head
    ∧ Forall (λ x, is_space x = true) ws
    ∧ Forall (λ x, is_space x = true) trail
    ∧ Re.bol_after true body = true
    ∧ Re.at_eol r.2 = true.
Proof.
  destruct r as [chunks rest]. unfold assignment_pattern. fold block_end.
  intros (s1 & c1 & -> & H1 & ->)%match_here_Lit_inv.
  apply match_here_Rep_inv in H1 as (ws1 & s2 & c2 & -> & Hws1 & _ & H2 & ->).
  apply match_here_Lit_inv in H2 as (s3 & c3 & -> & H3 & ->).
  apply match_here_Rep_inv in H3 as (ws2 & s4 & c4 & -> & Hws2 & _ & H4 & ->).
  apply match_here_Lit_inv in H4 as (s5 & c5 & -> & H5 & ->).
  apply match_here_Rep_inv in H5 as (ws3 & s6 & c6 & -> & Hws3 & _ & H6 & ->).
  apply match_here_Lit_inv in H6 as (s7 & c7 & -> & H7 & ->).
  apply match_here_Rep_inv in H7 as (params & s8 & c8 & -> & _ & _ & H8 & ->).
  apply block_tail_inv in H8 as (ws & body & trail & Hjoin & Hws & Htrail & Hbol & Heol).
  exists (name ++ ws1 ++ "=" ++ ws2 ++ "function" ++ ws3), params, ws, body, trail.
  split_and!; [|left; by exists ws1, ws2, ws3|done..].
  unfold Re.group0. cbn [fst].
  repeat match goal with
  | |- context [mjoin (?x :: ?l)] => change (mjoin (x :: l)) with (x ++ mjoin l)
  end.
  rewrite Hjoin. by rewrite <-!(assoc_L (++)).
Qed.

Lemma declaration_pattern_inv name bol s r :
  Re.match_here (declaration_pattern name) bol s = Some r →
  ∃ head params ws body trail,
    Re.group0 r
    = head ++ "(" ++ params ++ ")" ++ ws ++ [nl] ++ body ++ "end" ++ trail
    ∧ block_head name head
    ∧ Forall (λ x, is_space x = true) ws
    ∧ Forall (λ x, is_space x = true) trail
    ∧ Re.bol_after true body = true
    ∧ Re.at_eol r.2 = true.
Proof.
  destruct r as [chunks rest]. unfold declaration_pattern. fold block_end.
  intros (s1 & c1 & -> & H1 & ->)%match_here_Lit_inv.
  apply match_here_Rep_inv in H1 as (ws1 & s2 & c2 & -> & Hws1 & Hlen & H2 & ->).
  apply match_here_Lit_inv in H2 as (s3 & c3 & -> & H3 & ->).
  apply match_here_Rep_inv in H3 as (ws2 & s4 & c4 & -> & Hws2 & _ & H4 & ->).
  apply match_here_Lit_inv in H4 as (s5 & c5 & -> & H5 & ->).
  apply match_here_Rep_inv in H5 as (params & s6 & c6 & -> & _ & _ & H6 & ->).
  apply block_tail_inv in H6 as (ws & body & trail & Hjoin & Hws & Htrail & Hbol & Heol).
  exists ("function" ++ ws1 ++ name ++ ws2), params, ws, body, trail.
  split_and!; [|right; exists ws1, ws2; split_and!; [done| |done..]|done..].
  - unfold Re.group0. cbn [fst].
    repeat match goal with
    | |- context [mjoin (?x :: ?l)] => change (mjoin (x :: l)) with (x ++ mjoin l)
    end.
    rewrite Hjoin. by rewrite <-!(assoc_L (++)).
  - intros ->. cbn in Hlen. lia.
Qed.

(** What is known of a text that is returned. *)
Lemma extract_function_block_inv (lua_code function_name block : str) :
  extract_function_block lua_code function_name = Some block →
  ∃ pre post head params ws body trail,
    lua_code = pre ++ block ++ post
    ∧ Re.at_eol post = true
    ∧ block = head ++ "(" ++ params ++ ")" ++ ws ++ [nl] ++ body ++ "end" ++ trail
    ∧ block_head function_name head
    ∧ Forall (λ x, is_space x = true) ws
    ∧ Forall (λ x, is_space x = true) trail
    ∧ Re.bol_after true body = true.
Proof.
  unfold extract_function_block, Re.search.
  destruct (Re.search_from (assignment_pattern function_name) true lua_code)
    as [m|] eqn:Hm.
  - intros [= <-]. apply search_from_Some in Hm as (pre & s' & -> & Hm).
    pose proof (match_here_group0 _ _ _ _ Hm) as ->.
    apply assignment_pattern_inv in Hm
      as (head & params & ws & body & trail & Hg & Hhead & Hws & Htrail & Hbol & Heol).
    by exists pre, m.2, head, params, ws, body, trail.
  - destruct (Re.search_from (declaration_pattern function_name) true lua_code)
      as [m|] eqn:Hm1; [|done].
    intros [= <-]. apply search_from_Some in Hm1 as (pre & s' & -> & Hm1).
    pose proof (match_here_group0 _ _ _ _ Hm1) as ->.
    apply declaration_pattern_inv in Hm1
      as (head & params & ws & body & trail & Hg & Hhead & Hws & Htrail & Hbol & Heol).
    by exists pre, m.2, head, params, ws, body, trail.
Qed.

(** X9.  A text that [extract_function_block] returns stands in the source
    and is followed there by the end of the source or by a line break.  It
    consists of the name with [= function] behind it or [function] before
    it, parameters in parentheses, white space with a line break, a body that
    is empty or ends with a line break, [end], and white space. *)
Theorem extract_function_block_sound (lua_code function_name block : str) :
  extract_function_block lua_code function_name = Some block →
  ∃ pre post head params ws body trail,
    lua_code = pre ++ block ++ post
    ∧ Re.at_eol post = true
    ∧ block = head ++ "(" ++ params ++ ")" ++ ws ++ [nl] ++ body ++ "end" ++ trail
    ∧ block_head function_name head
    ∧ Forall (λ x, is_space x = true) ws
    ∧ Forall (λ x, is_space x = true) trail
    ∧ Re.bol_after true body = true.
Proof. apply extract_function_block_inv. Qed.

Lemma extract_function_block_sound_witness :
  ∃ pre post head params ws body trail,
    widget_module = pre ++ (widget_block ++ [nl]) ++ post
    ∧ Re.at_eol post = true
    ∧ widget_block ++ [nl]
      = head ++ "(" ++ params ++ ")" ++ ws ++ [nl] ++ body ++ "end" ++ trail
    ∧ block_head "Widget.make" head
    ∧ Forall (λ x, is_space x = true) ws
    ∧ Forall (λ x, is_space x = true) trail
    ∧ Re.bol_after true body = true.
Proof.
  apply (extract_function_block_sound widget_module "Widget.make").
  vm_compute. reflexivity.
Defined.

Lemma contains_app l pre post : Py.contains l (pre ++ l ++ post) = true.
Proof.
  induction pre as [|x pre IH].
  - cbn [app]. destruct (l ++ post) eqn:Heq; cbn [Py.contains];
      rewrite <-Heq, strip_prefix_app; done.
  - cbn [app Py.contains]. destruct (Py.strip_prefix _ _); [done|]. apply IH.
Qed.

Lemma contains_intro l s pre post :
  s = pre ++ l ++ post → Py.contains l s = true.
Proof. intros ->. apply contains_app. Qed.

(** X10.  A name that does not occur in the source is not found, and
    neither is any name in a source without the word [function] or without
    the word [end]. *)
Theorem extract_function_block_absent (lua_code function_name : str) :
  Py.contains function_name lua_code = false
  ∨ Py.contains "function" lua_code = false
  ∨ Py.contains "end" lua_code = false →
  extract_function_block lua_code function_name = None.
Proof.
  intros Habsent.
  destruct (extract_function_block lua_code function_name) as [block|] eqn:Hb;
    [|done].
  apply extract_function_block_inv in Hb
    as (pre & post & head & params & ws & body & trail & -> & _ & -> & Hhead & _).
  destruct Habsent as [Hno|[Hno|Hno]];
    [enough (Py.contains function_name
               (pre ++ (head ++ "(" ++ params ++ ")" ++ ws ++ [nl] ++ body
                        ++ "end" ++ trail) ++ post) = true) by congruence
    |enough (Py.contains "function"
               (pre ++ (head ++ "(" ++ params ++ ")" ++ ws ++ [nl] ++ body
                        ++ "end" ++ trail) ++ post) = true) by congruence
    |enough (Py.contains "end"
               (pre ++ (head ++ "(" ++ params ++ ")" ++ ws ++ [nl] ++ body
                        ++ "end" ++ trail) ++ post) = true) by congruence];
    clear Hno.
  - destruct Hhead as [(ws1 & ws2 & ws3 & -> & _)|(ws1 & ws2 & -> & _)].
    + apply (contains_intro _ _ pre
               (ws1 ++ "=" ++ ws2 ++ "function" ++ ws3 ++ "(" ++ params ++ ")"
                ++ ws ++ [nl] ++ body ++ "end" ++ trail ++ post)).
      by rewrite <-!(assoc_L (++)).
    + apply (contains_intro _ _ (pre ++ "function" ++ ws1)
               (ws2 ++ "(" ++ params ++ ")" ++ ws ++ [nl] ++ body ++ "end"
                ++ trail ++ post)).
      by rewrite <-!(assoc_L (++)).
  - destruct Hhead as [(ws1 & ws2 & ws3 & -> & _)|(ws1 & ws2 & -> & _)].
    + apply (contains_intro _ _ (pre ++ function_name ++ ws1 ++ "=" ++ ws2)
               (ws3 ++ "(" ++ params ++ ")" ++ ws ++ [nl] ++ body ++ "end"
                ++ trail ++ post)).
      by rewrite <-!(assoc_L (++)).
    + apply (contains_intro _ _ pre
               (ws1 ++ function_name ++ ws2 ++ "(" ++ params ++ ")" ++ ws
                ++ [nl] ++ body ++ "end" ++ trail ++ post)).
      by rewrite <-!(assoc_L (++)).
  - apply (contains_intro _ _
             (pre ++ head ++ "(" ++ params ++ ")" ++ ws ++ [nl] ++ body)
             (trail ++ post)).
    by rewrite <-!(assoc_L (++)).
Qed.

Lemma extract_function_block_absent_witness :
  extract_function_block widget_module "Widget.mak3" = None.
Proof.
  apply extract_function_block_absent. left. vm_compute. reflexivity.
Defined.

(** ** Outcomes of the operations *)

Section silent.
Context {A B : Type}.

Lemma silent_mret (a : A) : silent (mret a).
Proof. by intros w. Qed.

Lemma silent_raise e : silent (raise (A:=A) e).
Proof. by intros w. Qed.

Lemma silent_run_walk (r : option A) : silent (run_walk r).
Proof. intros w. by destruct r. Qed.

Lemma silent_bind (m : M A) (f : A → M B) :
  silent m → (∀ a, silent (f a)) → silent (m ≫= f).
Proof.
  intros Hm Hf w. rewrite bind_unfold. specialize (Hm w).
  destruct (m w) as [[a|e|] w']; cbn in Hm; subst w'; [apply Hf|done..].
Qed.

Lemma silent_for_each (l : list A) (body : B → A → M B) b :
  (∀ b a, silent (body b a)) → silent (for_each l body b).
Proof.
  intros Hbody. revert b. induction l as [|a l IH]; intros b; cbn [for_each].
  - by intros w.
  - intros w. rewrite bind_unfold. specialize (Hbody b a w).
    destruct (body b a w) as [[b'|e|] w']; cbn in Hbody; subst w';
      [apply IH|done..].
Qed.
End silent.

Lemma silent_read_lua_file file_path : silent (read_lua_file file_path).
Proof. intros w. unfold read_lua_file. by repeat case_match. Qed.

Lemma silent_os_path_exists path : silent (os_path_exists path).
Proof. by intros w. Qed.

Lemma silent_os_path_isdir path : silent (os_path_isdir path).
Proof. by intros w. Qed.

Lemma silent_os_walk folder : silent (os_walk folder).
Proof. by intros w. Qed.

Lemma silent_second_segment s : silent (second_segment s).
Proof. unfold second_segment. case_match; [apply silent_mret|apply silent_raise]. Qed.

Lemma silent_inv {A} (m : M A) w o w' : silent m → m w = (o, w') → w' = w.
Proof. intros Hm Hw. specialize (Hm w). by rewrite Hw in Hm. Qed.

Create HintDb silent discriminated.
#[global] Hint Resolve silent_mret silent_raise silent_run_walk
  silent_read_lua_file silent_os_path_exists silent_os_path_isdir
  silent_os_walk silent_second_segment : silent.

Ltac solve_silent :=
  repeat first
    [ progress intros
    | solve [auto with silent]
    | apply silent_bind
    | apply silent_for_each
    | case_match ].

Lemma silent_parse_transmitting_dependency list_set parent_folder depen_dic
    dependencies_obj :
  silent (parse_transmitting_dependency list_set parent_folder depen_dic
            dependencies_obj).
Proof. unfold parse_transmitting_dependency. solve_silent. Qed.
#[global] Hint Resolve silent_parse_transmitting_dependency : silent.

Lemma silent_resolve_reference list_set fuel parent_folder reference
    dependencies_obj sub_destination folder_flag extract_depen_obj unique :
  silent (resolve_reference list_set fuel parent_folder reference
            dependencies_obj sub_destination folder_flag extract_depen_obj unique).
Proof. unfold resolve_reference. solve_silent. Qed.
#[global] Hint Resolve silent_resolve_reference : silent.

Lemma silent_resolve_all list_set fuel parent_folder dependencies_obj
    code_content dependencies_array :
  silent (resolve_all list_set fuel parent_folder dependencies_obj code_content
            dependencies_array).
Proof. unfold resolve_all. solve_silent. Qed.

Lemma silent_scan_tree listing : silent (scan_tree listing).
Proof. unfold scan_tree. solve_silent. Qed.

Lemma silent_combine_functions extract_depen_obj :
  silent (combine_functions extract_depen_obj).
Proof. unfold combine_functions. solve_silent. Qed.
#[global] Hint Resolve silent_resolve_all silent_scan_tree
  silent_combine_functions : silent.

(** X11.  The parts that analyse, which are the walk over the dependencies
    of the closure, the resolution of the references of the target, the
    collection of the function blocks and the scan of a tree, hand back the
    world they were given, whatever their outcome: they write no file and
    print no line. *)
Theorem analysis_silent (list_set : list str → list str) :
  (∀ parent_folder depen_dic dependencies_obj,
     silent (parse_transmitting_dependency list_set parent_folder depen_dic
               dependencies_obj))
  ∧ (∀ fuel parent_folder dependencies_obj code_content dependencies_array,
       silent (resolve_all list_set fuel parent_folder dependencies_obj
                 code_content dependencies_array))
  ∧ (∀ extract_depen_obj, silent (combine_functions extract_depen_obj))
  ∧ (∀ listing, silent (scan_tree listing)).
Proof. split_and!; intros; auto with silent. Qed.

Section outcomes.
Context (list_set : list str → list str).
Context (json_loads : str → option index) (json_dumps : index → str).

Lemma write_files_outcomes file_path content w :
  (write_files file_path content w).1 = Ok ()
  ∧ appended w (write_files file_path content w).2 file_path content
  ∧ stdout (write_files file_path content w).2 = stdout w
  ∨ write_files file_path content w = (Raise (IsADirectoryError file_path), w).
Proof.
  unfold write_files. destruct (decide (file_path ∈ dirs w)); [by right|left].
  by repeat split.
Qed.

Lemma generate_new_combine_lua_outcomes parent_folder sub_folder filename
    extract_depen_obj w :
  let r := generate_new_combine_lua parent_folder sub_folder filename
             extract_depen_obj w in
  (r.1 ≠ Ok () ∧ r.2 = w)
  ∨ (r.1 = Ok () ∧ ∃ combine_code original_code,
       files w !! (parent_folder ++ "/" ++ sub_folder ++ "/" ++ filename)
       = Some original_code
       ∧ combine_functions extract_depen_obj w = (Ok combine_code, w)
       ∧ appended w r.2 (bundle_path parent_folder sub_folder filename)
           (bundle_text combine_code original_code)
       ∧ stdout r.2 = stdout w).
Proof.
  cbv zeta. unfold generate_new_combine_lua. rewrite bind_unfold.
  destruct (read_lua_file _ w) as [[original_code|e|] w1] eqn:Hread.
  2,3: left; split; [done|]; (eapply silent_inv; [|exact Hread]); solve_silent.
  apply read_lua_file_Ok in Hread as [Horig ->]. rewrite bind_unfold.
  destruct (combine_functions _ w) as [[combine_code|e|] w1] eqn:Hcombine.
  2,3: left; split; [done|]; (eapply silent_inv; [|exact Hcombine]);
       apply silent_combine_functions.
  assert (w1 = w) as ->
    by (eapply silent_inv; [|exact Hcombine]; apply silent_combine_functions).
  fold (bundle_path parent_folder sub_folder filename).
  destruct (write_files_outcomes (bundle_path parent_folder sub_folder filename)
              (bundle_text combine_code original_code) w)
    as [(Hok & Happ & Hout)|Hw].
  - right. split; [done|]. by exists combine_code, original_code.
  - left. by rewrite Hw.
Qed.

Lemma get_target_code_outcomes fuel parent_folder sub_folder filename
    dependencies_file w :
  let r := get_target_code list_set json_loads fuel parent_folder sub_folder
             filename dependencies_file w in
  (r.1 ≠ Ok () ∧ r.2 = w)
  ∨ (r.1 = Ok () ∧ r.2 = printed w no_dependencies_message)
  ∨ (r.1 = Ok () ∧ ∃ combine_code original_code,
       files w !! (parent_folder ++ "/" ++ sub_folder ++ "/" ++ filename)
       = Some original_code
       ∧ appended w r.2 (bundle_path parent_folder sub_folder filename)
           (bundle_text combine_code original_code)
       ∧ stdout r.2 = stdout w).
Proof.
  unfold get_target_code. cbv zeta. rewrite bind_unfold.
  destruct (read_lua_file dependencies_file w)
    as [[dependencies_content|e|] w1] eqn:Hread.
  2,3: left; split; [done|]; (eapply silent_inv; [|exact Hread]); solve_silent.
  apply read_lua_file_Ok in Hread as [_ ->].
  destruct (json_loads _) as [dependencies_obj|]; [|by left].
  destruct (negb _); [right; left; by split|].
  rewrite bind_unfold.
  destruct (read_lua_file _ w) as [[code_content|e|] w1] eqn:Hcode.
  2,3: left; split; [done|]; (eapply silent_inv; [|exact Hcode]); solve_silent.
  apply read_lua_file_Ok in Hcode as [_ ->]. rewrite bind_unfold.
  destruct (resolve_all _ _ _ _ _ _ w) as [[extract_depen_obj|e|] w1] eqn:Hres.
  2,3: left; split; [done|]; (eapply silent_inv; [|exact Hres]); solve_silent.
  assert (w1 = w) as -> by (eapply silent_inv; [|exact Hres]; solve_silent).
  destruct (generate_new_combine_lua_outcomes parent_folder sub_folder filename
              extract_depen_obj w) as [[Hr Hw]|[Hr (c & o & Ho & _ & Happ & Hout)]].
  - by left.
  - right. right. split; [done|]. by exists c, o.
Qed.
End outcomes.

(** X12.  A call of [get_target_code] ends in one of three ways.  When it
    does not succeed, it hands back the world it was given: no file is
    written and no line is printed.  When it succeeds, either it has only
    printed the message that there are no dependencies, or it has printed
    nothing and has added one bundle, which ends with the source of the
    target, at the end of the bundle file, all other files left as they
    were. *)
Theorem get_target_code_three_outcomes (list_set : list str → list str)
    (json_loads : str → option index) (fuel : nat)
    (parent_folder sub_folder filename dependencies_file : str) (w : world) :
  let r := get_target_code list_set json_loads fuel parent_folder sub_folder
             filename dependencies_file w in
  (r.1 ≠ Ok () ∧ r.2 = w)
  ∨ (r.1 = Ok () ∧ r.2 = printed w no_dependencies_message)
  ∨ (r.1 = Ok () ∧ ∃ combine_code original_code,
       files w !! (parent_folder ++ "/" ++ sub_folder ++ "/" ++ filename)
       = Some original_code
       ∧ files r.2
         = <[bundle_path parent_folder sub_folder filename :=
               default [] (files w !! bundle_path parent_folder sub_folder filename)
               ++ bundle_text combine_code original_code]> (files w)
       ∧ dirs r.2 = dirs w ∧ walk r.2 = walk w ∧ stdout r.2 = stdout w).
Proof.
  destruct (get_target_code_outcomes list_set json_loads fuel parent_folder
              sub_folder filename dependencies_file w)
    as [H|[H|[Hr (c & o & Ho & (Hf & Hd & Hw) & Hout)]]]; cbv zeta; [auto..|].
  right. right. split; [done|]. by exists c, o.
Qed.

(** ** Missing inputs, the bundle file, and running twice *)



(** *** The bundle file *)

(** The first dotted segment of a text is a prefix of it, followed by
    nothing or by a dot. *)
Lemma split_head (s : str) :
  ∃ rest, s = default [] (head (Py.split dot s)) ++ rest
          ∧ (rest = [] ∨ ∃ rest', rest = dot :: rest').
Proof.
  induction s as [|c s (rest & Hs & Hrest)].
  - exists []. by split; [|left].
  - cbn [Py.split]. case_bool_decide as Hc.
    + subst c. exists (dot :: s). split; [done|right; by exists s].
    + destruct (Py.split dot s) as [|seg segs]; cbn [head default app] in *.
      * exists s. by split; [|rewrite Hs].
      * exists rest. split; [by rewrite Hs at 1|done].
Qed.

Lemma bundle_path_first_segment parent_folder sub_folder a rest :
  dot ∉ a →
  bundle_path parent_folder sub_folder (a ++ "." ++ rest)
  = parent_folder ++ "/" ++ sub_folder ++ "/" ++ a ++ "_new.lua".
Proof.
  intros Ha. unfold bundle_path.
  change (a ++ "." ++ rest) with (a ++ dot :: rest).
  by rewrite split_app_sep.
Qed.

Lemma bundle_path_ne parent_folder sub_folder filename :
  bundle_path parent_folder sub_folder filename
  ≠ parent_folder ++ "/" ++ sub_folder ++ "/" ++ filename.
Proof.
  unfold bundle_path. intros Heq.
  do 4 apply app_inv_head in Heq.
  destruct (split_head filename) as (rest & Hs & Hrest).
  rewrite Hs in Heq at 2. apply app_inv_head in Heq.
  destruct Hrest as [->|[rest' ->]]; [done|].
  injection Heq as Hc _. by vm_compute in Hc.
Qed.

(** X14.  For a file name without [/], that is the name of a file in the
    folder of the target, the bundle file is another entry of that folder
    than the target: its name differs from the name of the target, so the
    target holds the same text after [generate_new_combine_lua] as before,
    whatever the outcome.  Only the first dotted segment of the file name
    enters the path of the bundle, so targets whose names start with the
    same segment share one bundle file. *)
Theorem bundle_path_apart (parent_folder sub_folder filename : str) :
  "/"%char ∉ filename →
  bundle_path parent_folder sub_folder filename
  ≠ parent_folder ++ "/" ++ sub_folder ++ "/" ++ filename
  ∧ (∀ extract_depen_obj w,
       files (generate_new_combine_lua parent_folder sub_folder filename
                extract_depen_obj w).2
         !! (parent_folder ++ "/" ++ sub_folder ++ "/" ++ filename)
       = files w !! (parent_folder ++ "/" ++ sub_folder ++ "/" ++ filename))
  ∧ (∀ a rest rest',
       dot ∉ a → filename = a ++ "." ++ rest →
       bundle_path parent_folder sub_folder filename
       = bundle_path parent_folder sub_folder (a ++ "." ++ rest')).
Proof.
  intros _. split_and!.
  - apply bundle_path_ne.
  - intros extract_depen_obj w.
    destruct (generate_new_combine_lua_outcomes parent_folder sub_folder filename
                extract_depen_obj w)
      as [[_ ->]|[_ (c & o & _ & _ & (Hf & _) & _)]]; [done|].
    rewrite Hf. apply lookup_insert_ne, bundle_path_ne.
  - intros a rest rest' Ha ->. by rewrite !bundle_path_first_segment.
Qed.

Lemma bundle_path_apart_witness :
  bundle_path "proj" "app" "main.lua" ≠ "proj" ++ "/" ++ "app" ++ "/" ++ "main.lua"
  ∧ bundle_path "proj" "app" "main.lua"
    = bundle_path "proj" "app" ("main" ++ "." ++ "test.lua").
Proof.
  destruct (bundle_path_apart "proj" "app" "main.lua") as (Hne & _ & Hshare).
  - apply (bool_decide_unpack _). vm_compute. exact I.
  - split; [exact Hne|]. apply (Hshare "main" "lua").
    + apply (bool_decide_unpack _). vm_compute. exact I.
    + reflexivity.
Defined.

(** *** The scanner: outcomes, and running twice *)

Lemma endswith_app l pre s :
  Py.endswith l s = true → Py.endswith l (pre ++ s) = true.
Proof.
  unfold Py.endswith. intros Hs%bool_decide_eq_true. apply bool_decide_eq_true.
  assert (length l ≤ length s) as Hlen.
  { rewrite <-Hs at 1. rewrite length_drop. lia. }
  rewrite length_app.
  replace (length pre + length s - length l)
    with (length pre + (length s - length l)) by lia.
  by rewrite drop_app_add.
Qed.

Lemma path_join_suffix root name : ∃ pre, Py.path_join root name = pre ++ name.
Proof.
  unfold Py.path_join.
  assert (∃ pre,
            match last root with
            | Some c => if bool_decide (c = "/"%char) then root ++ name
                        else root ++ "/" ++ name
            | None => name
            end = pre ++ name) as Hjoin.
  { destruct (last root); [case_bool_decide|].
    - by exists root.
    - exists (root ++ "/"). by rewrite <-(assoc_L (++)).
    - by exists []. }
  destruct name as [|c name]; [done|].
  destruct c as [[] [] [] [] [] [] [] []]; try done. by exists [].
Qed.

Lemma lua_files_endswith listing file path :
  (file, path) ∈ lua_files listing → Py.endswith ".lua" path = true.
Proof.
  intros (entry & _ & _ & Hfile & ->)%elem_of_lua_files.
  destruct (path_join_suffix entry.1.1 file) as [pre ->].
  by apply endswith_app.
Qed.

(** X15.  A call of [generate_dependency_json] that does not succeed hands
    back the world it was given.  One that succeeds has scanned the tree
    without changing anything, has added the text of the index at the end
    of the output file, leaving all other files as they were, and has
    printed one line, which gives the number of files recorded in the
    index. *)
Theorem generate_dependency_json_outcomes (json_dumps : index → str)
    (folder output_file : str) (w : world) :
  let r := generate_dependency_json json_dumps folder output_file w in
  (r.1 ≠ Ok () ∧ r.2 = w)
  ∨ (r.1 = Ok () ∧ ∃ requirement_local,
       scan_tree (walk w folder) w = (Ok requirement_local, w)
       ∧ files r.2
         = <[output_file := default [] (files w !! output_file)
                            ++ json_dumps requirement_local]> (files w)
       ∧ dirs r.2 = dirs w ∧ walk r.2 = walk w
       ∧ stdout r.2 = stdout w ++ [generated_message requirement_local]).
Proof.
  cbv zeta. unfold generate_dependency_json. rewrite bind_unfold.
  change (os_walk folder w) with (Ok (walk w folder), w). cbv iota.
  rewrite bind_unfold.
  destruct (scan_tree _ w) as [[requirement_local|e|] w1] eqn:Hscan.
  2,3: left; split; [done|]; (eapply silent_inv; [|exact Hscan]);
       apply silent_scan_tree.
  assert (w1 = w) as ->
    by (eapply silent_inv; [|exact Hscan]; apply silent_scan_tree).
  rewrite bind_unfold. unfold write_files.
  destruct (decide (output_file ∈ dirs w)); [by left|].
  right. split; [done|]. by exists requirement_local.
Qed.

Lemma foldl_record_file_ext w w' walked requirement_local :
  (∀ file path, (file, path) ∈ walked → files w' !! path = files w !! path) →
  foldl (record_file w') requirement_local walked
  = foldl (record_file w) requirement_local walked.
Proof.
  revert requirement_local.
  induction walked as [|[file path] walked IH]; intros requirement_local Hsame;
    [done|].
  cbn [foldl]. rewrite IH.
  - f_equal. unfold record_file. cbn [fst snd]. rewrite (Hsame file path); [done|left].
  - intros file' path' Hin. apply (Hsame file'). by right.
Qed.

Section twice.
Context (json_dumps : index → str).

(** When every Lua file of the walk can be read, the call succeeds. *)
Lemma generate_dependency_json_readable folder output_file w :
  (∀ file path, (file, path) ∈ lua_files (walk w folder) →
                is_Some (files w !! path)) →
  output_file ∉ dirs w →
  generate_dependency_json json_dumps folder output_file w
  = (Ok (),
     World (<[output_file :=
                default [] (files w !! output_file)
                ++ json_dumps (foldl (record_file w) [] (lua_files (walk w folder)))]>
              (files w))
       (dirs w) (walk w)
       (stdout w
        ++ [generated_message (foldl (record_file w) [] (lua_files (walk w folder)))])).
Proof.
  intros Hread Hdir. unfold generate_dependency_json. rewrite bind_unfold.
  change (os_walk folder w) with (Ok (walk w folder), w). cbv iota.
  rewrite bind_unfold, scan_tree_walked by done. cbv iota.
  rewrite bind_unfold. unfold write_files. by rewrite decide_False.
Qed.
End twice.

(** X16.  The scanner does not replace its output.  When every Lua file of
    the walk can be read, no directory stands at the path of the output
    file, that path can name a file of a directory that exists, and the
    output file is not itself a Lua file, a second run on the same tree
    succeeds like the first, finds the same index, and adds its text once
    more: the output file then holds the text of the index twice after what
    it held at first, and the message is printed twice. *)
Theorem generate_dependency_json_twice (json_dumps : index → str)
    (folder output_file : str) (w : world) :
  (∀ file path, (file, path) ∈ lua_files (walk w folder) →
                is_Some (files w !! path)) →
  output_file ∉ dirs w → directory_there w output_file →
  Py.endswith ".lua" output_file = false →
  ∃ requirement_local w1 w2,
    generate_dependency_json json_dumps folder output_file w = (Ok (), w1)
    ∧ generate_dependency_json json_dumps folder output_file w1 = (Ok (), w2)
    ∧ scan_tree (walk w folder) w = (Ok requirement_local, w)
    ∧ files w2 !! output_file
      = Some (default [] (files w !! output_file)
              ++ json_dumps requirement_local ++ json_dumps requirement_local)
    ∧ stdout w2
      = stdout w ++ [generated_message requirement_local;
                     generated_message requirement_local].
Proof.
  intros Hread Hdir _ Hout.
  set (requirement_local := foldl (record_file w) [] (lua_files (walk w folder))).
  pose proof (generate_dependency_json_readable json_dumps folder output_file w
                Hread Hdir) as Hfirst.
  fold requirement_local in Hfirst.
  set (w1 := World _ _ _ _) in Hfirst.
  assert (∀ file path, (file, path) ∈ lua_files (walk w folder) →
                       files w1 !! path = files w !! path) as Hsame.
  { intros file path Hin. apply lookup_insert_ne. intros <-.
    apply lua_files_endswith in Hin. congruence. }
  pose proof (generate_dependency_json_readable json_dumps folder output_file w1)
    as Hsecond.
  change (walk w1 folder) with (walk w folder) in Hsecond.
  rewrite (foldl_record_file_ext w w1) in Hsecond by done.
  fold requirement_local in Hsecond.
  eexists requirement_local, w1, _. split_and!.
  - exact Hfirst.
  - apply Hsecond; [|done].
    intros file path Hin. rewrite (Hsame file) by done. by apply (Hread file).
  - by apply scan_tree_walked.
  - cbn [files]. rewrite lookup_insert_eq.
    unfold w1. cbn [files]. rewrite lookup_insert_eq. cbn [default]. unfold id.
    by rewrite <-(assoc_L (++)).
  - cbn [stdout]. unfold w1. cbn [stdout]. by rewrite <-(assoc_L (++)).
Qed.

Lemma generate_dependency_json_twice_witness :
  ∃ requirement_local w1 w2,
    generate_dependency_json json_text "proj" "proj/deps.json" twin_world = (Ok (), w1)
    ∧ generate_dependency_json json_text "proj" "proj/deps.json" w1 = (Ok (), w2)
    ∧ scan_tree (walk twin_world "proj") twin_world = (Ok requirement_local, twin_world)
    ∧ files w2 !! ("proj/deps.json" : str)
      = Some (default [] (files twin_world !! ("proj/deps.json" : str))
              ++ json_text requirement_local ++ json_text requirement_local)
    ∧ stdout w2
      = stdout twin_world ++ [generated_message requirement_local;
                              generated_message requirement_local].
Proof.
  apply (generate_dependency_json_twice json_text "proj" "proj/deps.json" twin_world).
  - intros file path Hin. vm_compute in Hin.
    repeat (apply elem_of_cons in Hin as [[= -> ->]|Hin]; [by vm_compute; eexists|]).
    by apply elem_of_nil in Hin.
  - apply (bool_decide_unpack _). vm_compute. exact I.
  - split_and!;
      [apply (bool_decide_unpack _); vm_compute; exact I..
      |right; apply (bool_decide_unpack _); vm_compute; exact I].
  - vm_compute. reflexivity.
Defined.

(** X17.  Let no directory stand at the path of a file, and let the path
    be one that can name a file of a directory that exists.  Two writes to
    the file amount to one write of the two texts joined.  When neither what
    the file held nor what is written holds a carriage return, a read that
    follows a write gives what the file held, or nothing for a new file,
    followed by what was written. *)
Theorem write_files_twice (file_path a b : str) (w : world) :
  file_path ∉ dirs w → directory_there w file_path →
  (write_files file_path a ≫= λ _, write_files file_path b) w
  = write_files file_path (a ++ b) w
  ∧ ((cr ∉ default [] (files w !! file_path) ++ a) →
     (write_files file_path a ≫= λ _, read_lua_file file_path) w
     = (Ok (default [] (files w !! file_path) ++ a),
        (write_files file_path a w).2)).
Proof.
  intros Hdir _. rewrite !bind_unfold. unfold write_files at 1 3.
  rewrite decide_False by done. cbv iota. split.
  - unfold write_files. cbn [dirs files walk stdout].
    rewrite !decide_False by done. rewrite lookup_insert_eq. cbn [default].
    unfold id. by rewrite insert_insert_eq, <-(assoc_L (++)).
  - intros _. unfold read_lua_file, write_files. cbn [files].
    rewrite decide_False by done. cbn [files snd].
    by rewrite lookup_insert_eq.
Qed.

Lemma write_files_twice_witness :
  (write_files "proj/deps.json" "{}" ≫= λ _, write_files "proj/deps.json" "{}")
    plain_world
  = write_files "proj/deps.json" ("{}" ++ "{}") plain_world
  ∧ (write_files "proj/deps.json" "{}" ≫= λ _, read_lua_file "proj/deps.json")
      plain_world
    = (Ok (default [] (files plain_world !! ("proj/deps.json" : str)) ++ "{}"),
       (write_files "proj/deps.json" "{}" plain_world).2).
Proof.
  destruct (write_files_twice "proj/deps.json" "{}" "{}" plain_world)
    as [Htwice Hread].
  - apply (bool_decide_unpack _). vm_compute. exact I.
  - split_and!;
      [apply (bool_decide_unpack _); vm_compute; exact I..
      |right; apply (bool_decide_unpack _); vm_compute; exact I].
  - split; [exact Htwice|]. apply Hread.
    apply (bool_decide_unpack _). vm_compute. exact I.
Defined.

(** ** The merge of the functions of a closure *)

Section merge.
Implicit Types d e : Dict.t (list str).

Lemma merge_return_obj_foldl return_obj extract_depen_obj :
  merge_return_obj return_obj extract_depen_obj
  = foldl (merge_key return_obj) extract_depen_obj (Dict.keys return_obj).
Proof. done. Qed.

Lemma dict_get_keys {V} key (d : Dict.t V) v :
  Dict.get key d = Some v → key ∈ Dict.keys d.
Proof.
  induction d as [|[k v'] d IH]; [done|]. cbn [Dict.get Dict.keys fmap list_fmap fst].
  case_decide as Hk; [subst; left|right; by apply IH].
Qed.

Lemma dict_keys_get {V} key (d : Dict.t V) :
  key ∈ Dict.keys d → ∃ v, Dict.get key d = Some v.
Proof.
  induction d as [|[k v] d IH]; [by intros ?%elem_of_nil|].
  cbn [Dict.get]. intros Hkey. case_decide; [by eexists|].
  apply IH. cbn in Hkey. by apply elem_of_cons in Hkey as [->|Hkey].
Qed.

Lemma grows_refl d : grows d d.
Proof. intros key values Hget. exists []. by rewrite app_nil_r. Qed.

Lemma grows_trans d1 d2 d3 : grows d1 d2 → grows d2 d3 → grows d1 d3.
Proof.
  intros H12 H23 key values Hget. destruct (H12 _ _ Hget) as [more Hmore].
  destruct (H23 _ _ Hmore) as [more' Hmore']. exists (more ++ more').
  by rewrite (assoc_L (++)).
Qed.

Lemma grows_listed d d' key val : grows d d' → listed d key val → listed d' key val.
Proof.
  intros Hgrows (values & Hget & Hval). destruct (Hgrows _ _ Hget) as [more Hmore].
  exists (values ++ more). split; [done|]. apply elem_of_app. by left.
Qed.

(** One value added to the list of a key that is there. *)
Lemma merge_value_get key e val present :
  Dict.get key e = Some present →
  Dict.get key (merge_value key e val)
  = Some (if bool_decide (val ∈ present) then present else present ++ [val])
  ∧ ∀ key', key' ≠ key → Dict.get key' (merge_value key e val) = Dict.get key' e.
Proof.
  intros Hget. unfold merge_value. rewrite Hget. cbn [default].
  destruct (decide (val ∈ present)) as [Hin|Hin].
  - rewrite bool_decide_false by auto. rewrite bool_decide_true by done. done.
  - rewrite bool_decide_true by done. rewrite bool_decide_false by done.
    split; [apply dict_get_set_eq|]. intros key' Hne. by apply dict_get_set_ne.
Qed.

Lemma merge_values_get key values e present :
  Dict.get key e = Some present →
  ∃ more,
    Dict.get key (foldl (merge_value key) e values) = Some (present ++ more)
    ∧ (∀ val, val ∈ values → val ∈ present ++ more)
    ∧ (∀ val, val ∈ more → val ∈ values)
    ∧ (NoDup present → NoDup (present ++ more))
    ∧ ∀ key', key' ≠ key →
        Dict.get key' (foldl (merge_value key) e values) = Dict.get key' e.
Proof.
  revert e present. induction values as [|val values IH]; intros e present Hget.
  - exists []. rewrite app_nil_r. split_and!; [done| |by intros ? ?%elem_of_nil|done..].
    by intros ? ?%elem_of_nil.
  - cbn [foldl].
    destruct (merge_value_get key e val present Hget) as [Hval Hother].
    destruct (IH _ _ Hval) as (more & Hmore & Hin & Hfrom & Hnodup & Hother').
    destruct (decide (val ∈ present)) as [Hp|Hp].
    + rewrite bool_decide_true in Hmore, Hin, Hnodup by done.
      exists more. split_and!; [done| |by right; apply Hfrom|done|].
      * intros v [->|Hv]%elem_of_cons; [apply elem_of_app; by left|by apply Hin].
      * intros key' Hne. by rewrite Hother', Hother.
    + rewrite bool_decide_false in Hmore, Hin, Hnodup by done.
      rewrite <-(assoc_L (++)) in Hmore, Hin, Hnodup.
      exists ([val] ++ more). split_and!; [done| | | |].
      * intros v [->|Hv]%elem_of_cons; [|by apply Hin].
        apply elem_of_app. right. left.
      * intros v [->%list_elem_of_singleton|Hv]%elem_of_app; [left|right; by apply Hfrom].
      * intros Hnd. apply Hnodup. apply NoDup_app. split_and!; [done| |apply NoDup_singleton].
        by intros v Hv ->%list_elem_of_singleton.
      * intros key' Hne. by rewrite Hother', Hother.
Qed.

(** What the step for one key does. *)
Lemma merge_key_spec return_obj e key values :
  Dict.get key return_obj = Some values →
  ∃ merged,
    Dict.get key (merge_key return_obj e key) = Some merged
    ∧ (∀ present, Dict.get key e = Some present → ∃ more, merged = present ++ more)
    ∧ (∀ val, val ∈ values → val ∈ merged)
    ∧ (∀ val, val ∈ merged → listed e key val ∨ val ∈ values)
    ∧ (NoDup values → (∀ present, Dict.get key e = Some present → NoDup present) →
       NoDup merged)
    ∧ ∀ key', key' ≠ key →
        Dict.get key' (merge_key return_obj e key) = Dict.get key' e.
Proof.
  intros Hret. unfold merge_key, Dict.mem. rewrite Hret. cbn [default].
  destruct (Dict.get key e) as [present|] eqn:Hget.
  - rewrite bool_decide_true by done. cbn [negb].
    destruct (merge_values_get key values e present Hget)
      as (more & Hmore & Hin & Hfrom & Hnodup & Hother).
    exists (present ++ more). split_and!; [done| |done| | |done].
    + intros ? [= <-]. by exists more.
    + intros val [Hv|Hv]%elem_of_app; [left; by exists present|right; by apply Hfrom].
    + intros _ Hnd. apply Hnodup. by apply Hnd.
  - rewrite bool_decide_false by (by intros [? ?]). cbn [negb].
    exists values. split_and!; [apply dict_get_set_eq|done|done|by right|by intros ? _|].
    intros key' Hne. by apply dict_get_set_ne.
Qed.

Lemma merge_key_grows return_obj e key :
  key ∈ Dict.keys return_obj → grows e (merge_key return_obj e key).
Proof.
  intros Hkey key' present Hget.
  destruct (dict_keys_get key return_obj Hkey) as [values Hret].
  destruct (merge_key_spec return_obj e key values Hret)
    as (merged & Hmerged & Hfront & _ & _ & _ & Hother).
  destruct (decide (key' = key)) as [->|Hne].
  - destruct (Hfront _ Hget) as [more ->]. by exists more.
  - exists []. by rewrite app_nil_r, Hother.
Qed.

Lemma merge_keys_grows return_obj keys e :
  (∀ key, key ∈ keys → key ∈ Dict.keys return_obj) →
  grows e (foldl (merge_key return_obj) e keys).
Proof.
  revert e. induction keys as [|key keys IH]; intros e Hkeys; [apply grows_refl|].
  cbn [foldl]. eapply grows_trans.
  - apply merge_key_grows, Hkeys. left.
  - apply IH. intros k Hk. apply Hkeys. by right.
Qed.

Lemma merge_keys_listed return_obj keys e key val :
  (∀ key, key ∈ keys → key ∈ Dict.keys return_obj) →
  key ∈ keys → listed return_obj key val →
  listed (foldl (merge_key return_obj) e keys) key val.
Proof.
  revert e. induction keys as [|k keys IH]; intros e Hkeys Hkey Hval;
    [by apply elem_of_nil in Hkey|].
  cbn [foldl]. destruct (decide (key = k)) as [->|Hne].
  - eapply grows_listed.
    + apply merge_keys_grows. intros k' Hk'. apply Hkeys. by right.
    + destruct Hval as (values & Hret & Hin).
      destruct (merge_key_spec return_obj e k values Hret)
        as (merged & Hmerged & _ & Hall & _).
      exists merged. split; [done|by apply Hall].
  - apply IH; [|by apply elem_of_cons in Hkey as [?|?]|done].
    intros k' Hk'. apply Hkeys. by right.
Qed.

Lemma merge_keys_from return_obj keys e key val :
  (∀ key, key ∈ keys → key ∈ Dict.keys return_obj) →
  listed (foldl (merge_key return_obj) e keys) key val →
  listed e key val ∨ listed return_obj key val.
Proof.
  revert e. induction keys as [|k keys IH]; intros e Hkeys Hval; [by left|].
  cbn [foldl] in Hval. apply IH in Hval as [Hval|Hval]; [|by right|].
  2:{ intros k' Hk'. apply Hkeys. by right. }
  destruct (dict_keys_get k return_obj) as [values Hret]; [apply Hkeys; left|].
  destruct (merge_key_spec return_obj e k values Hret)
    as (merged & Hmerged & _ & _ & Hfrom & _ & Hother).
  destruct Hval as (vs & Hget & Hin).
  destruct (decide (key = k)) as [->|Hne].
  - rewrite Hmerged in Hget. injection Hget as <-.
    destruct (Hfrom _ Hin) as [?|?]; [by left|right; by exists values].
  - rewrite Hother in Hget by done. left. by exists vs.
Qed.

Lemma merge_keys_nodup return_obj keys e :
  (∀ key, key ∈ keys → key ∈ Dict.keys return_obj) →
  (∀ key values, Dict.get key return_obj = Some values → NoDup values) →
  (∀ key values, Dict.get key e = Some values → NoDup values) →
  ∀ key values,
    Dict.get key (foldl (merge_key return_obj) e keys) = Some values →
    NoDup values.
Proof.
  revert e. induction keys as [|k keys IH]; intros e Hkeys Hret He; [done|].
  cbn [foldl]. apply IH; [intros k' Hk'; apply Hkeys; by right|done|].
  destruct (dict_keys_get k return_obj) as [values Hvalues]; [apply Hkeys; left|].
  destruct (merge_key_spec return_obj e k values Hvalues)
    as (merged & Hmerged & _ & _ & _ & Hnodup & Hother).
  intros key vs Hget. destruct (decide (key = k)) as [->|Hne].
  - rewrite Hmerged in Hget. injection Hget as <-. apply Hnodup; [by eapply Hret|].
    intros present. apply He.
  - rewrite Hother in Hget by done. by eapply He.
Qed.
End merge.

(** X18.  The merge of the functions of a closure into the map only adds.
    Every key of the map is still there, and the list it held stands at the
    front of the list it holds after the merge; every function that the
    closure lists under a key is listed under that key after the merge; and
    the merge lists nothing under a key that neither the map nor the closure
    listed there; and when no list of the map or of the closure holds a
    function twice, no list does after the merge. *)
Theorem merge_return_obj_grows (return_obj extract_depen_obj : Dict.t (list str)) :
  grows extract_depen_obj (merge_return_obj return_obj extract_depen_obj)
  ∧ (∀ key val,
       listed return_obj key val →
       listed (merge_return_obj return_obj extract_depen_obj) key val)
  ∧ (∀ key val,
       listed (merge_return_obj return_obj extract_depen_obj) key val →
       listed extract_depen_obj key val ∨ listed return_obj key val)
  ∧ ((∀ key values, Dict.get key return_obj = Some values → NoDup values) →
     (∀ key values, Dict.get key extract_depen_obj = Some values → NoDup values) →
     ∀ key values,
       Dict.get key (merge_return_obj return_obj extract_depen_obj) = Some values →
       NoDup values).
Proof.
  rewrite merge_return_obj_foldl. split_and!.
  - by apply merge_keys_grows.
  - intros key val Hval. apply merge_keys_listed; [done| |done].
    destruct Hval as (values & Hget & _). by eapply dict_get_keys.
  - intros key val. by apply merge_keys_from.
  - by apply merge_keys_nodup.
Qed.

Lemma merge_return_obj_grows_witness :
  listed (merge_return_obj [("a.lua" : str, [("m.f" : str); ("m.g" : str)])]
            [("a.lua" : str, [("m.g" : str)]); ("b.lua" : str, [("n.h" : str)])])
    "a.lua" "m.f"
  ∧ (listed [("a.lua" : str, [("m.g" : str)]); ("b.lua" : str, [("n.h" : str)])]
       "b.lua" "n.h"
     ∨ listed [("a.lua" : str, [("m.f" : str); ("m.g" : str)])] "b.lua" "n.h")
  ∧ NoDup [("m.g" : str); ("m.f" : str)].
Proof.
  pose proof (merge_return_obj_grows
                [("a.lua" : str, [("m.f" : str); ("m.g" : str)])]
                [("a.lua" : str, [("m.g" : str)]); ("b.lua" : str, [("n.h" : str)])])
    as (_ & Hlisted & Hfrom & Hnodup).
  split_and!.
  - apply Hlisted. eexists. split; [vm_compute; reflexivity|left].
  - apply Hfrom. eexists. split; [vm_compute; reflexivity|left].
  - apply (Hnodup) with (key := "a.lua" : str); [| |vm_compute; reflexivity].
    + intros key values Hget. vm_compute in Hget.
      repeat (case_match; simplify_eq); apply (bool_decide_unpack _); vm_compute; exact I.
    + intros key values Hget. vm_compute in Hget.
      repeat (case_match; simplify_eq); apply (bool_decide_unpack _); vm_compute; exact I.
Defined.

(** ** The loops of the bundler *)

Section loops.
Context {A B : Type}.
Implicit Types (l : list A) (body : B → A → M B).

(** A loop whose steps end well or raise, in a world they do not change. *)
Lemma for_each_outcome (P : exn → A → Prop) l body b w :
  (∀ b a, a ∈ l →
     (∃ b', body b a w = (Ok b', w)) ∨ (∃ e, body b a w = (Raise e, w) ∧ P e a)) →
  (∃ b', for_each l body b w = (Ok b', w))
  ∨ (∃ e a, a ∈ l ∧ for_each l body b w = (Raise e, w) ∧ P e a).
Proof.
  revert b. induction l as [|a l IH]; intros b Hbody; cbn [for_each].
  - left. by exists b.
  - rewrite bind_unfold.
    destruct (Hbody b a) as [[b' ->]|(e & -> & He)]; [left| |].
    + destruct (IH b') as [?|(e & a' & Ha' & ? & ?)]; [|by left|].
      * intros b0 a0 Ha0. apply Hbody. by right.
      * right. exists e, a'. split; [by right|done].
    + right. exists e, a. split; [left|done].
Qed.

(** Steps that do nothing may be left out. *)
Lemma for_each_filter (P : A → Prop) `{!∀ a, Decision (P a)} l body b w :
  (∀ b a, silent (body b a)) →
  (∀ b a, a ∈ l → ¬ P a → body b a w = (Ok b, w)) →
  for_each l body b w = for_each (filter P l) body b w.
Proof.
  intros Hsilent. revert b. induction l as [|a l IH]; intros b Hskip; [done|].
  rewrite filter_cons. destruct (decide (P a)) as [Ha|Ha]; cbn [for_each].
  - rewrite !bind_unfold. pose proof (Hsilent b a w) as Hw.
    destruct (body b a w) as [[b'|e|] w']; cbn in Hw; subst w'; [|done..].
    apply IH. intros b0 a0 Ha0. apply Hskip. by right.
  - rewrite bind_unfold, Hskip by (done || left). apply IH.
    intros b0 a0 Ha0. apply Hskip. by right.
Qed.

(** Steps that agree on the elements of the list give the same loop. *)
Lemma for_each_ext l body body' b w :
  (∀ b a, silent (body b a)) →
  (∀ b a, a ∈ l → body b a w = body' b a w) →
  for_each l body b w = for_each l body' b w.
Proof.
  intros Hsilent. revert b. induction l as [|a l IH]; intros b Hsame; [done|].
  cbn [for_each]. rewrite !bind_unfold, <-Hsame by left.
  pose proof (Hsilent b a w) as Hw.
  destruct (body b a w) as [[b'|e|] w']; cbn in Hw; subst w'; [|done..].
  apply IH. intros b0 a0 Ha0. apply Hsame. by right.
Qed.
End loops.

(** *** The walk over the closure *)

Section parse.
Context (list_set : list str → list str).
Context (parent_folder : str) (dependencies_obj : index) (w : world).

Lemma parse_transmitting_dependency_for_each depen_dic :
  parse_transmitting_dependency list_set parent_folder depen_dic dependencies_obj
  = for_each depen_dic (λ return_obj depen,
      for_each (default [] (Dict.get (depen ++ ".lua") dependencies_obj))
        (parse_value list_set parent_folder dependencies_obj) return_obj) [].
Proof. done. Qed.

Lemma parse_value_outcome return_obj value :
  (∃ return_obj',
     parse_value list_set parent_folder dependencies_obj return_obj value w
     = (Ok return_obj', w))
  ∨ (∃ e, parse_value list_set parent_folder dependencies_obj return_obj value w
          = (Raise e, w)
          ∧ unreadable_dependency w parent_folder dependencies_obj value).
Proof.
  unfold parse_value, unreadable_dependency, present. cbv zeta.
  set (p := module_file parent_folder value.2).
  unfold Dict.mem.
  destruct (decide (is_Some (Dict.get (value.1 ++ ".lua") dependencies_obj)))
    as [Hidx|Hidx].
  - rewrite bool_decide_true by done. rewrite bind_unfold. unfold read_lua_file.
    destruct (files w !! p) as [content|] eqn:Hp; [left; by eexists|].
    right. destruct (decide (p ∈ dirs w)); eexists; (split; [done|]);
      (split; [done|]); by right.
  - rewrite bool_decide_false by done. rewrite bind_unfold.
    unfold os_path_exists. cbv iota.
    destruct (files w !! p) as [content|] eqn:Hp.
    + rewrite bool_decide_true by (left; done). rewrite bind_unfold.
      unfold read_lua_file. rewrite Hp. left. by eexists.
    + destruct (decide (p ∈ dirs w)) as [Hd|Hd].
      * rewrite bool_decide_true by (by right). rewrite bind_unfold.
        unfold read_lua_file. rewrite Hp, decide_True by done.
        right. eexists. split; [done|]. split; [done|]. by left.
      * rewrite bool_decide_false by (intros [[? ?]|?]; done).
        left. by eexists.
Qed.
End parse.

(** X19.  The walk over the closure either returns a map, or raises for the
    file of a module that an entry of one of the given modules declares and
    at whose path nothing can be read, where that path exists or the alias
    has an entry of its own in the index.  So a
    path at which nothing exists, for an alias without an entry, never makes
    the walk raise.  In both cases the world is handed back as it was:
    nothing is written or printed. *)
Theorem parse_transmitting_dependency_outcomes (list_set : list str → list str)
    (parent_folder : str) (depen_dic : list str) (dependencies_obj : index)
    (w : world) :
  (∃ return_obj,
     parse_transmitting_dependency list_set parent_folder depen_dic
       dependencies_obj w = (Ok return_obj, w))
  ∨ (∃ e depen value_array value,
       depen ∈ depen_dic
       ∧ Dict.get (depen ++ ".lua") dependencies_obj = Some value_array
       ∧ value ∈ value_array
       ∧ parse_transmitting_dependency list_set parent_folder depen_dic
           dependencies_obj w = (Raise e, w)
       ∧ unreadable_dependency w parent_folder dependencies_obj value).
Proof.
  rewrite parse_transmitting_dependency_for_each.
  destruct (for_each_outcome
              (λ (_ : exn) depen, ∃ value_array value,
                 Dict.get (depen ++ ".lua") dependencies_obj = Some value_array
                 ∧ value ∈ value_array
                 ∧ unreadable_dependency w parent_folder dependencies_obj value)
              depen_dic
              (λ return_obj depen,
                 for_each (default [] (Dict.get (depen ++ ".lua") dependencies_obj))
                   (parse_value list_set parent_folder dependencies_obj) return_obj)
              [] w) as [?|(e & depen & Hdepen & Hraise & va & value & Hget & Hvalue & He)].
  - intros return_obj depen _.
    destruct (for_each_outcome
                (λ _ : exn, unreadable_dependency w parent_folder dependencies_obj)
                (default [] (Dict.get (depen ++ ".lua") dependencies_obj))
                (parse_value list_set parent_folder dependencies_obj)
                return_obj w) as [?|(e & value & Hvalue & Hraise & He)].
    + intros return_obj' value _. apply parse_value_outcome.
    + by left.
    + right. exists e. split; [done|].
      destruct (Dict.get (depen ++ ".lua") dependencies_obj) as [va|];
        [|by apply elem_of_nil in Hvalue].
      by exists va, value.
  - by left.
  - right. by exists e, depen, va, value.
Qed.

(** *** The collection of the function blocks *)

Section combine.
Context (w : world).

Lemma combine_functions_for_each extract_depen_obj :
  combine_functions extract_depen_obj
  = for_each (Dict.keys extract_depen_obj) (combine_key extract_depen_obj) [].
Proof. done. Qed.

Lemma silent_combine_key extract_depen_obj combine_code key :
  silent (combine_key extract_depen_obj combine_code key).
Proof. unfold combine_key, combine_function. solve_silent. Qed.

Lemma combine_key_missing extract_depen_obj combine_code key :
  present w key = false →
  combine_key extract_depen_obj combine_code key w = (Ok combine_code, w).
Proof.
  intros Hkey. unfold combine_key. rewrite bind_unfold. unfold os_path_exists.
  cbv iota. fold (present w key). by rewrite Hkey.
Qed.

Lemma dict_keys_filter {V} (P : str → Prop) `{!∀ k, Decision (P k)} (d : Dict.t V) :
  Dict.keys (filter (λ kv, P kv.1) d) = filter P (Dict.keys d).
Proof.
  unfold Dict.keys. induction d as [|[k v] d IH]; [done|].
  cbn [fmap list_fmap filter list_filter fst].
  destruct (decide (P k)); cbn [fmap list_fmap fst]; [f_equal|]; exact IH.
Qed.

Lemma dict_get_filter {V} (P : str → Prop) `{!∀ k, Decision (P k)} (d : Dict.t V) key :
  P key → Dict.get key (filter (λ kv, P kv.1) d) = Dict.get key d.
Proof.
  intros Hkey. induction d as [|[k v] d IH]; [done|].
  cbn [filter list_filter fst Dict.get].
  destruct (decide (P k)) as [Hk|Hk]; cbn [Dict.get].
  - destruct (decide (key = k)); [done|exact IH].
  - rewrite decide_False by (by intros ->). exact IH.
Qed.
End combine.

(** X20.  The collection of the function blocks passes over every key of
    the map whose file is not there: it gives what it gives for the map
    without those keys, and for a map none of whose files is there it gives
    the empty text, without raising. *)
Theorem combine_functions_skips_missing (extract_depen_obj : Dict.t (list str))
    (w : world) :
  combine_functions extract_depen_obj w
  = combine_functions
      (filter (λ entry, present w entry.1 = true) extract_depen_obj) w
  ∧ ((∀ key, key ∈ Dict.keys extract_depen_obj → present w key = false) →
     combine_functions extract_depen_obj w = (Ok [], w)).
Proof.
  assert (∀ d, for_each (Dict.keys d) (combine_key d) [] w
               = for_each (filter (λ key, present w key = true) (Dict.keys d))
                   (combine_key d) [] w) as Hfilter.
  { intros d. apply for_each_filter.
    - intros. apply silent_combine_key.
    - intros combine_code key _ Hkey. apply combine_key_missing.
      by destruct (present w key). }
  split.
  - rewrite !combine_functions_for_each, Hfilter.
    pose proof (dict_keys_filter (λ key, present w key = true) extract_depen_obj)
      as Hkeys.
    cbv beta in Hkeys. rewrite Hkeys.
    apply for_each_ext; [intros; apply silent_combine_key|].
    intros combine_code key [Hkey _]%list_elem_of_filter. unfold combine_key.
    pose proof (dict_get_filter (λ key, present w key = true) extract_depen_obj
                  key Hkey) as Hget.
    cbv beta in Hget. by rewrite Hget.
  - intros Hmissing. rewrite combine_functions_for_each, Hfilter.
    replace (filter _ (Dict.keys extract_depen_obj)) with (@nil str); [done|].
    symmetry. induction (Dict.keys extract_depen_obj) as [|key keys IH]; [done|].
    rewrite filter_cons, decide_False.
    + apply IH. intros k Hk. apply Hmissing. by right.
    + rewrite Hmissing by left. done.
Qed.

Lemma combine_functions_skips_missing_witness :
  combine_functions
    [("proj/lib/http.lua" : str, [("http.get" : str)]);
     ("proj/lib/json.lua" : str, [("json.encode" : str)])] plain_world
  = (Ok [], plain_world).
Proof.
  apply (combine_functions_skips_missing
           [("proj/lib/http.lua" : str, [("http.get" : str)]);
            ("proj/lib/json.lua" : str, [("json.encode" : str)])] plain_world).
  intros key Hkey.
  repeat (apply elem_of_cons in Hkey as [->|Hkey]; [vm_compute; reflexivity|]).
  by apply elem_of_nil in Hkey.
Defined.

(** ** Bundling one reference *)

Lemma extract_dependencies_leaf idx unique fuel :
  Dict.get (seed unique ++ ".lua") idx = None → 2 ≤ fuel →
  extract_dependencies fuel unique idx = Some [].
Proof.
  intros Hget Hfuel. unfold extract_dependencies.
  destruct fuel as [|[|fuel]]; [lia..|]. cbn [queue_loop]. by rewrite Hget.
Qed.

(** Replacing a text by itself changes nothing. *)
Lemma replace_from_same a old n s :
  Py.replace_from (a :: old) (a :: old) n s = drop n s.
Proof.
  revert n. induction s as [|c s IH]; intros n; [destruct n; reflexivity|].
  cbn [Py.replace_from]. destruct n as [|n]; [|apply IH].
  destruct (Py.strip_prefix (a :: old) (c :: s)) as [r|] eqn:Hr.
  - apply strip_prefix_Some in Hr. cbn in Hr. injection Hr as -> ->.
    rewrite IH. cbn [length pred app]. by rewrite drop_app_length.
  - by rewrite IH.
Qed.

Lemma replace_same old s : Py.replace old old s = s.
Proof.
  unfold Py.replace. destruct old as [|a old]; [|apply replace_from_same].
  cbn [app]. induction s as [|c s IH]; [done|]. cbn in *. by f_equal.
Qed.

(** A block that is returned is not empty. *)
Lemma extract_function_block_nonempty lua_code function_name block :
  extract_function_block lua_code function_name = Some block → block ≠ [].
Proof.
  intros (pre & post & head & params & ws & body & trail & _ & _ & -> & _)
    %extract_function_block_inv Heq.
  apply (f_equal length) in Heq. rewrite !length_app in Heq. cbn in Heq. lia.
Qed.

Section leaf.
Context (list_set : list str → list str).

(** A reference whose seed has no entry goes to the list of the file of its
    module. *)
Lemma resolve_reference_leaf fuel parent_folder reference dependencies_obj
    sub_destination folder_flag extract_depen_obj unique w :
  Dict.get (seed unique ++ ".lua") dependencies_obj = None → 2 ≤ fuel →
  resolve_reference list_set fuel parent_folder reference dependencies_obj
    sub_destination folder_flag extract_depen_obj unique w
  = (Ok (Dict.set
           (sub_destination ++ (if folder_flag then "/init.lua" else ".lua"))
           (default []
              (Dict.get
                 (sub_destination ++ (if folder_flag then "/init.lua" else ".lua"))
                 extract_depen_obj)
            ++ [unique])
           extract_depen_obj), w).
Proof.
  intros Hget Hfuel. unfold resolve_reference. rewrite bind_unfold.
  rewrite extract_dependencies_leaf by done. cbn [run_walk].
  rewrite mret_unfold. cbv iota. rewrite bool_decide_true by (cbn; lia).
  cbv zeta. unfold Dict.mem.
  destruct folder_flag;
    (destruct (Dict.get _ extract_depen_obj) as [values|] eqn:Hvalues;
     [rewrite bool_decide_true by done|rewrite bool_decide_false by (by intros [??])]);
    cbn [negb]; rewrite mret_unfold; by rewrite ?Hvalues.
Qed.
End leaf.

(** X21.  A reference whose seed has no entry in the index is resolved
    without reading any file: it is put at the end of the list of the file
    of its module, which is [init.lua] in the directory of the module when
    the flag says that there is such a directory and the Lua file of the
    module otherwise.  The list is not searched first, so a reference that
    is already there is there twice afterwards. *)
Theorem resolve_reference_leaf_appends (list_set : list str → list str)
    (fuel : nat) (parent_folder reference : str) (dependencies_obj : index)
    (sub_destination : str) (folder_flag : bool)
    (extract_depen_obj : Dict.t (list str)) (unique : str) (w : world) :
  Dict.get (seed unique ++ ".lua") dependencies_obj = None → 2 ≤ fuel →
  resolve_reference list_set fuel parent_folder reference dependencies_obj
    sub_destination folder_flag extract_depen_obj unique w
  = (Ok (Dict.set
           (sub_destination ++ (if folder_flag then "/init.lua" else ".lua"))
           (default []
              (Dict.get
                 (sub_destination ++ (if folder_flag then "/init.lua" else ".lua"))
                 extract_depen_obj)
            ++ [unique])
           extract_depen_obj), w).
Proof. apply resolve_reference_leaf. Qed.

Lemma resolve_reference_leaf_appends_witness :
  resolve_reference remove_dups 2 "proj" "lib.http" shadow_index "proj/lib/http"
    false [("proj/lib/http.lua" : str, [("http.get" : str)])] "http.get"
    shadow_world
  = (Ok [("proj/lib/http.lua" : str, [("http.get" : str); ("http.get" : str)])],
     shadow_world).
Proof.
  apply (resolve_reference_leaf_appends remove_dups 2 "proj" "lib.http"
           shadow_index "proj/lib/http" false
           [("proj/lib/http.lua" : str, [("http.get" : str)])] "http.get"
           shadow_world); [vm_compute; reflexivity|lia].
Defined.

Section single.
Context (list_set : list str → list str) `{!SetOrder list_set}.
Context (json_loads : str → option index).

Lemma list_set_singleton l unique : remove_dups l = [unique] → list_set l = [unique].
Proof.
  intros Hl. apply Permutation_singleton_r. rewrite <-Hl. apply set_order.
Qed.

Lemma resolve_all_single fuel parent_folder dependencies_obj code_content
    module reference ident w :
  2 ≤ fuel → dot ∉ module →
  remove_dups (find_references code_content module) = [module ++ "." ++ ident] →
  Dict.get (ident ++ ".lua") dependencies_obj = None →
  resolve_all list_set fuel parent_folder dependencies_obj code_content
    [(module, reference)] w
  = (Ok [(leaf_file w parent_folder reference, [module ++ "." ++ ident])], w).
Proof.
  intros Hfuel Hmodule Hrefs Hleaf.
  assert (module ++ "." ++ ident ∈ find_references code_content module) as Hin.
  { apply elem_of_remove_dups. rewrite Hrefs. left. }
  apply find_references_elem_inv in Hin
    as (ident' & Heq & _ & _ & _ & Hseed).
  do 2 apply app_inv_head in Heq. subst ident'.
  destruct (Hseed Hmodule) as [_ Hseed'].
  unfold resolve_all. cbn [for_each fst snd]. rewrite bind_unfold. cbv zeta.
  rewrite bind_unfold. unfold os_path_isdir. cbv iota.
  rewrite (list_set_singleton _ _ Hrefs). cbn [for_each].
  rewrite bind_unfold, resolve_reference_leaf by (by rewrite ?Hseed').
  cbv iota. rewrite !mret_unfold. cbv iota. unfold leaf_file. cbv zeta.
  by destruct (bool_decide _).
Qed.

Lemma combine_functions_single key module ident lib_code block w :
  dot ∉ module → (dot ∉ ident) →
  files w !! key = Some lib_code →
  extract_function_block lib_code
    (lookup_name (module ++ "." ++ ident) ident) = Some block →
  combine_functions [(key, [module ++ "." ++ ident])] w
  = (Ok ([nl] ++ Py.replace (lookup_name (module ++ "." ++ ident) ident)
                   (module ++ "." ++ ident) block), w).
Proof.
  intros Hmodule Hident Hkey Hblock.
  pose proof (extract_function_block_nonempty _ _ _ Hblock) as Hne.
  rewrite combine_functions_for_each. cbn [Dict.keys fmap list_fmap fst for_each].
  rewrite bind_unfold. unfold combine_key at 1. rewrite bind_unfold.
  unfold os_path_exists. cbv iota.
  rewrite bool_decide_true by (left; by rewrite Hkey). cbn [negb].
  rewrite bind_unfold, (read_lua_file_Some _ _ _ Hkey). cbv iota zeta.
  cbn [Dict.get]. rewrite decide_True by done. cbn [default]. unfold id.
  cbn [for_each].
  rewrite bind_unfold. unfold combine_function. rewrite bind_unfold.
  assert ((if Py.contains "_utils" (module ++ "." ++ ident)
           then member ← second_segment (module ++ "." ++ ident);
                mret ("utils." ++ member)
           else mret (module ++ "." ++ ident)) w
          = (Ok (lookup_name (module ++ "." ++ ident) ident), w)) as ->.
  { unfold lookup_name. destruct (Py.contains _ _); [|done].
    rewrite bind_unfold. unfold second_segment.
    change (module ++ "." ++ ident) with (module ++ dot :: ident).
    by rewrite split_app_sep, split_no_sep. }
  cbv iota. rewrite Hblock. destruct block as [|x block]; [done|].
  rewrite mret_unfold. cbv iota. by rewrite !mret_unfold.
Qed.
End single.

(** X22.  The bundle of a target with one reference.  Let the index give
    the target one requirement, let the code of the target refer to one
    member of the alias, and let the member have no entry of its own in the
    index.  When the file of the module can be read and holds a block for the
    name under which the reference is looked up, the call succeeds and adds
    to the bundle file the bundle whose prologue is a line break and that
    block, with the name looked up replaced by the reference, and the source
    of the target after it; when the name looked up is the reference itself,
    the block is taken as it is. *)
Theorem get_target_code_single_reference (list_set : list str → list str)
    (json_loads : str → option index) (fuel : nat)
    (parent_folder sub_folder filename dependencies_file : str)
    (dependencies_content : str) (dependencies_obj : index)
    (module reference code_content ident lib_code block : str) (w : world) :
  SetOrder list_set → 2 ≤ fuel →
  files w !! dependencies_file = Some dependencies_content →
  json_loads (Py.rstrip dependencies_content) = Some dependencies_obj →
  Dict.get filename dependencies_obj = Some [(module, reference)] →
  files w !! (parent_folder ++ "/" ++ sub_folder ++ "/" ++ filename)
  = Some code_content →
  dot ∉ module →
  remove_dups (find_references code_content module) = [module ++ "." ++ ident] →
  Dict.get (ident ++ ".lua") dependencies_obj = None →
  files w !! leaf_file w parent_folder reference = Some lib_code →
  extract_function_block lib_code (lookup_name (module ++ "." ++ ident) ident)
  = Some block →
  bundle_path parent_folder sub_folder filename ∉ dirs w →
  ∃ w',
    get_target_code list_set json_loads fuel parent_folder sub_folder filename
      dependencies_file w = (Ok (), w')
    ∧ appended w w' (bundle_path parent_folder sub_folder filename)
        (bundle_text
           ([nl] ++ Py.replace (lookup_name (module ++ "." ++ ident) ident)
                      (module ++ "." ++ ident) block)
           code_content)
    ∧ stdout w' = stdout w
    ∧ (Py.contains "_utils" (module ++ "." ++ ident) = false →
       Py.replace (lookup_name (module ++ "." ++ ident) ident)
         (module ++ "." ++ ident) block = block).
Proof.
  intros Hset Hfuel Hdeps Hjson Hentry Hcode Hmodule Hrefs Hleaf Hlib Hblock Hdir.
  assert (dot ∉ ident) as Hident.
  { assert (module ++ "." ++ ident ∈ find_references code_content module) as Hin.
    { apply elem_of_remove_dups. rewrite Hrefs. left. }
    apply find_references_elem_inv in Hin as (ident' & Heq & _ & Hword & _).
    do 2 apply app_inv_head in Heq. subst ident'. by apply word_no_dot. }
  unfold get_target_code. cbv zeta. rewrite bind_unfold.
  rewrite (read_lua_file_Some _ _ _ Hdeps). cbv iota. rewrite Hjson.
  unfold Dict.mem. rewrite Hentry, bool_decide_true by done. cbn [negb default].
  unfold id. rewrite bind_unfold, (read_lua_file_Some _ _ _ Hcode). cbv iota.
  rewrite bind_unfold, (resolve_all_single list_set _ _ _ _ _ _ ident) by done.
  cbv iota. unfold generate_new_combine_lua. rewrite bind_unfold.
  rewrite (read_lua_file_Some _ _ _ Hcode). cbv iota.
  rewrite bind_unfold, (combine_functions_single _ _ _ lib_code block) by done.
  cbv iota zeta. fold (bundle_path parent_folder sub_folder filename).
  unfold write_files. rewrite decide_False by done.
  eexists. split; [reflexivity|]. split_and!; [by repeat split|done|].
  intros Hutils. unfold lookup_name. rewrite Hutils. apply replace_same.
Qed.

Lemma get_target_code_single_reference_witness :
  ∃ w',
    get_target_code remove_dups (json_table [single_index]) 2 "proj" "app"
      "main.lua" "proj/deps.json" single_world = (Ok (), w')
    ∧ appended single_world w' (bundle_path "proj" "app" "main.lua")
        (bundle_text ([nl] ++ single_block) single_code)
    ∧ stdout w' = stdout single_world.
Proof.
  destruct (get_target_code_single_reference remove_dups
              (json_table [single_index]) 2 "proj" "app" "main.lua"
              "proj/deps.json" (json_text single_index ++ [nl]) single_index
              "http" "lib.http" single_code "get"
              ("local http = {}" ++ [nl] ++ single_block ++ [nl]
               ++ "return http" ++ [nl])
              single_block single_world)
    as (w' & Hrun & Happ & Hout & Hsame).
  - intros l. reflexivity.
  - lia.
  - vm_compute. reflexivity.
  - vm_compute. reflexivity.
  - vm_compute. reflexivity.
  - vm_compute. reflexivity.
  - apply (bool_decide_unpack _). vm_compute. exact I.
  - vm_compute. reflexivity.
  - vm_compute. reflexivity.
  - vm_compute. reflexivity.
  - vm_compute. reflexivity.
  - apply (bool_decide_unpack _). vm_compute. exact I.
  - exists w'. split; [exact Hrun|]. split; [|exact Hout].
    rewrite Hsame in Happ; [exact Happ|vm_compute; reflexivity].
Defined.

(** ** The scanner: what can go wrong, and the way back *)

Lemma scan_tree_for_each listing :
  scan_tree listing
  = for_each listing (λ requirement_local entry,
      for_each entry.2 (scan_file entry.1.1) requirement_local) [].
Proof. done. Qed.

Lemma scan_file_outcome root requirement_local file w :
  (∃ requirement_local', scan_file root requirement_local file w
                         = (Ok requirement_local', w))
  ∨ (∃ e, scan_file root requirement_local file w = (Raise e, w)
          ∧ Py.endswith ".lua" file = true
          ∧ files w !! Py.path_join root file = None).
Proof.
  unfold scan_file. destruct (Py.endswith ".lua" file) eqn:Hlua; [|left; by eexists].
  cbv zeta. rewrite bind_unfold. unfold read_lua_file.
  destruct (files w !! Py.path_join root file) as [lua_code|] eqn:Hfile.
  - left. destruct (bool_decide _); by eexists.
  - right. destruct (decide (_ ∈ dirs w)); by eexists.
Qed.

Lemma scan_tree_outcome listing w :
  (∃ requirement_local, scan_tree listing w = (Ok requirement_local, w))
  ∨ (∃ e file path,
       (file, path) ∈ lua_files listing ∧ files w !! path = None
       ∧ scan_tree listing w = (Raise e, w)).
Proof.
  rewrite scan_tree_for_each.
  destruct (for_each_outcome
              (λ (_ : exn) entry, ∃ file, file ∈ entry.2
                 ∧ Py.endswith ".lua" file = true
                 ∧ files w !! Py.path_join entry.1.1 file = None)
              listing
              (λ requirement_local entry,
                 for_each entry.2 (scan_file entry.1.1) requirement_local)
              [] w) as [?|(e & entry & Hentry & Hraise & file & Hfile & Hlua & Hnone)].
  - intros requirement_local entry _.
    destruct (for_each_outcome
                (λ (_ : exn) file, Py.endswith ".lua" file = true
                   ∧ files w !! Py.path_join entry.1.1 file = None)
                entry.2 (scan_file entry.1.1) requirement_local w)
      as [?|(e & file & Hfile & Hraise & Hlua & Hnone)].
    + intros requirement_local' file _. apply scan_file_outcome.
    + by left.
    + right. eexists. split; [done|]. by exists file.
  - by left.
  - right. exists e, file, (Py.path_join entry.1.1 file). split_and!; [|done..].
    apply elem_of_lua_files. by exists entry.
Qed.

(** X23.  [generate_dependency_json] ends in one of three ways: it
    succeeds; or the scan of the tree ends well and the write of the output
    file raises; or the scan raises, and then the walk lists a Lua file at
    whose path nothing can be read.  When it raises, the world is handed
    back as it was: nothing has been written or printed. *)
Theorem generate_dependency_json_errors (json_dumps : index → str)
    (folder output_file : str) (w : world) :
  (generate_dependency_json json_dumps folder output_file w).1 = Ok ()
  ∨ (∃ e requirement_local,
       scan_tree (walk w folder) w = (Ok requirement_local, w)
       ∧ write_files output_file (json_dumps requirement_local) w = (Raise e, w)
       ∧ generate_dependency_json json_dumps folder output_file w = (Raise e, w))
  ∨ (∃ e file path,
       (file, path) ∈ lua_files (walk w folder) ∧ files w !! path = None
       ∧ scan_tree (walk w folder) w = (Raise e, w)
       ∧ generate_dependency_json json_dumps folder output_file w = (Raise e, w)).
Proof.
  unfold generate_dependency_json. rewrite bind_unfold.
  change (os_walk folder w) with (Ok (walk w folder), w). cbv iota.
  rewrite bind_unfold.
  destruct (scan_tree_outcome (walk w folder) w)
    as [[requirement_local ->]|(e & file & path & Hin & Hnone & ->)].
  - cbv iota. rewrite bind_unfold. unfold write_files.
    destruct (decide (output_file ∈ dirs w)); [|by left].
    right; left. by eexists _, requirement_local.
  - right. right. by exists e, file, path.
Qed.

(** X24.  A text without the word [local], or without the word [require],
    declares no requirement. *)
Theorem extract_local_requirements_absent (lua_code : str) :
  Py.contains "local" lua_code = false ∨ Py.contains "require" lua_code = false →
  extract_local_requirements lua_code = [].
Proof.
  intros Habsent.
  destruct (extract_local_requirements lua_code) as [|a l] eqn:Hl; [done|].
  assert (requirements lua_code (extract_local_requirements lua_code)) as Hread
    by by apply extract_local_requirements_requirements.
  destruct (reading_elem requirement_at _ _ a requirement_at_suffix Hread)
    as (pre & s' & rest & -> & ws1 & ws2 & ws3 & ws4 & q1 & q2 & -> & _);
    [rewrite Hl; left|].
  destruct Habsent as [Hno|Hno];
    [enough (Py.contains "local"
               (pre ++ "local" ++ ws1 ++ a.1 ++ ws2 ++ "=" ++ ws3 ++ "require"
                ++ ws4 ++ q1 :: a.2 ++ q2 :: rest) = true) by congruence
    |enough (Py.contains "require"
               (pre ++ "local" ++ ws1 ++ a.1 ++ ws2 ++ "=" ++ ws3 ++ "require"
                ++ ws4 ++ q1 :: a.2 ++ q2 :: rest) = true) by congruence];
    clear Hno.
  - apply contains_app.
  - apply (contains_intro _ _ (pre ++ "local" ++ ws1 ++ a.1 ++ ws2 ++ "=" ++ ws3)
             (ws4 ++ q1 :: a.2 ++ q2 :: rest)).
    by rewrite <-!(assoc_L (++)).
Qed.

Lemma extract_local_requirements_absent_witness :
  extract_local_requirements "print(1)" = [].
Proof.
  apply extract_local_requirements_absent. left. vm_compute. reflexivity.
Defined.

(** X25.  The way from the scanner to the bundler.  Let the scan of the
    tree give an index; let no file and no directory stand at the output
    path, and let that path be one that can name a file of a directory that
    exists; let
    the text that [json.dumps] gives for the index hold no carriage return,
    and let [json.loads] give back the index from that text, trailing white
    space removed.  Then the scanner succeeds, and the bundler that reads
    the output file afterwards works on the index of the scan: it does what
    it does when any text is loaded as that index. *)
Theorem generate_then_get_target_code (list_set : list str → list str)
    (json_loads : str → option index) (json_dumps : index → str)
    (folder output_file : str) (requirement_local : index) (fuel : nat)
    (parent_folder sub_folder filename : str) (w : world) :
  scan_tree (walk w folder) w = (Ok requirement_local, w) →
  files w !! output_file = None → output_file ∉ dirs w →
  directory_there w output_file →
  (cr ∉ json_dumps requirement_local) →
  json_loads (Py.rstrip (json_dumps requirement_local)) = Some requirement_local →
  ∃ w1,
    generate_dependency_json json_dumps folder output_file w = (Ok (), w1)
    ∧ get_target_code list_set json_loads fuel parent_folder sub_folder
        filename output_file w1
      = get_target_code list_set (λ _, Some requirement_local) fuel
          parent_folder sub_folder filename output_file w1.
Proof.
  intros Hscan Hnone Hdir _ _ Hjson.
  unfold generate_dependency_json. rewrite bind_unfold.
  change (os_walk folder w) with (Ok (walk w folder), w). cbv iota.
  rewrite bind_unfold, Hscan. cbv iota. rewrite bind_unfold.
  unfold write_files. rewrite decide_False by done. cbv iota.
  eexists. split; [reflexivity|].
  rewrite Hnone. cbn [default app].
  unfold get_target_code. cbv zeta. rewrite !bind_unfold.
  unfold read_lua_file at 1 3. cbn [files print fst snd].
  rewrite lookup_insert_eq. cbv iota. by rewrite Hjson.
Qed.

Lemma generate_then_get_target_code_witness :
  ∃ w1,
    generate_dependency_json json_text "proj" "proj/deps.json" twin_world
    = (Ok (), w1)
    ∧ get_target_code remove_dups
        (json_table [[("util.lua" : str, [("y" : str, "r.s" : str)])]]) 2
        "proj" "a" "util.lua" "proj/deps.json" w1
      = get_target_code remove_dups
          (λ _, Some [("util.lua" : str, [("y" : str, "r.s" : str)])]) 2
          "proj" "a" "util.lua" "proj/deps.json" w1.
Proof.
  apply (generate_then_get_target_code remove_dups
           (json_table [[("util.lua" : str, [("y" : str, "r.s" : str)])]])
           json_text "proj" "proj/deps.json"
           [("util.lua" : str, [("y" : str, "r.s" : str)])] 2 "proj" "a"
           "util.lua" twin_world).
  - vm_compute. reflexivity.
  - vm_compute. reflexivity.
  - apply (bool_decide_unpack _). vm_compute. exact I.
  - split_and!;
      [apply (bool_decide_unpack _); vm_compute; exact I..
      |right; apply (bool_decide_unpack _); vm_compute; exact I].
  - apply (bool_decide_unpack _). vm_compute. exact I.
  - vm_compute. reflexivity.
Defined.

(** ** No [IndexError] from the references of the code *)

Section within.
Context {A B : Type}.

Lemma for_each_within (I : B → Prop) (Q : exn → Prop) (l : list A)
    (body : B → A → M B) b w :
  I b →
  (∀ b a, a ∈ l → I b → within w I Q (body b a w)) →
  within w I Q (for_each l body b w).
Proof.
  revert b. induction l as [|a l IH]; intros b Hb Hbody; cbn [for_each].
  - by split.
  - rewrite bind_unfold. pose proof (Hbody b a (list_elem_of_here _ _) Hb) as Ha.
    unfold within in Ha.
    destruct (body b a w) as [[b'|e|] w']; cbn [fst snd] in Ha; [|done..].
    destruct Ha as [-> Hb']. apply IH; [done|].
    intros b0 a0 Ha0. apply Hbody. by right.
Qed.
End within.

(** The outcome at hand is what is wanted. *)
Ltac within_done :=
  rewrite ?mret_unfold; unfold within; cbn [fst snd];
  repeat match goal with
  | |- _ ∧ _ => split
  end.

Section dotted.
Context (list_set : list str → list str) `{!SetOrder list_set}.
Implicit Types d return_obj : Dict.t (list str).

Lemma elem_of_list_set l x : x ∈ list_set l ↔ x ∈ l.
Proof. by rewrite (set_order l), elem_of_remove_dups. Qed.

Lemma find_references_dot code alias r : r ∈ find_references code alias → dot ∈ r.
Proof.
  intros (ident & -> & _)%find_references_elem_inv.
  apply elem_of_app. right. left.
Qed.

Lemma listed_set k v d key val :
  listed (Dict.set k v d) key val → (key = k ∧ val ∈ v) ∨ listed d key val.
Proof.
  intros (values & Hget & Hval). destruct (decide (key = k)) as [->|Hne].
  - rewrite dict_get_set_eq in Hget. injection Hget as <-. by left.
  - rewrite dict_get_set_ne in Hget by done. right. by exists values.
Qed.

Lemma dotted_nil : dotted [].
Proof. by intros key val (values & ? & _). Qed.

Lemma dotted_set k v d :
  dotted d → (∀ val, val ∈ v → dot ∈ val) → dotted (Dict.set k v d).
Proof.
  intros Hd Hv key val [[_ Hval]|Hval]%listed_set; [by apply Hv|by eapply Hd].
Qed.

Lemma dotted_merge return_obj d :
  dotted return_obj → dotted d → dotted (merge_return_obj return_obj d).
Proof.
  intros Hret Hd key val Hval. rewrite merge_return_obj_foldl in Hval.
  apply merge_keys_from in Hval as [?|?]; [by eapply Hd|by eapply Hret|done].
Qed.

Lemma second_segment_dot s w : dot ∈ s → ∃ seg, second_segment s w = (Ok seg, w).
Proof.
  intros [seg Hseg]%split_second_defined. exists seg. unfold second_segment.
  by rewrite Hseg.
Qed.

Lemma parse_value_within parent_folder dependencies_obj return_obj value w :
  dotted return_obj →
  within w dotted (λ e, e ≠ IndexError)
    (parse_value list_set parent_folder dependencies_obj return_obj value w).
Proof.
  intros Hdotted. unfold parse_value, within. cbv zeta.
  assert (∀ content, dotted
            (Dict.set (module_file parent_folder value.2)
               (list_set (find_references content value.1)) return_obj)) as Hset.
  { intros content. apply dotted_set; [done|].
    intros val Hval. apply (proj1 (elem_of_list_set _ _)) in Hval.
    by eapply find_references_dot. }
  destruct (Dict.mem _ dependencies_obj).
  - rewrite bind_unfold. unfold read_lua_file.
    destruct (files w !! _); [by within_done|]. by destruct (decide _).
  - rewrite bind_unfold. unfold os_path_exists. cbv iota.
    destruct (bool_decide _); [|by within_done].
    rewrite bind_unfold. unfold read_lua_file.
    destruct (files w !! _); [by within_done|]. by destruct (decide _).
Qed.

Lemma parse_transmitting_dependency_within parent_folder depen_dic
    dependencies_obj w :
  within w dotted (λ e, e ≠ IndexError)
    (parse_transmitting_dependency list_set parent_folder depen_dic
       dependencies_obj w).
Proof.
  rewrite parse_transmitting_dependency_for_each.
  apply for_each_within; [apply dotted_nil|].
  intros return_obj depen _ Hdotted.
  apply for_each_within; [done|].
  intros return_obj' value _. apply parse_value_within.
Qed.

Lemma resolve_reference_within fuel parent_folder reference dependencies_obj
    sub_destination folder_flag extract_depen_obj unique w :
  dot ∈ unique → dotted extract_depen_obj →
  within w dotted (λ e, e ≠ IndexError)
    (resolve_reference list_set fuel parent_folder reference dependencies_obj
       sub_destination folder_flag extract_depen_obj unique w).
Proof.
  intros Hunique Hdotted. unfold resolve_reference. rewrite bind_unfold.
  destruct (extract_dependencies fuel unique dependencies_obj) as [depen_dic|];
    [|done].
  cbn [run_walk]. rewrite mret_unfold. cbv iota.
  destruct (bool_decide (length depen_dic ≤ 0)).
  - cbv zeta. destruct (negb _); within_done; try done;
      apply dotted_set; try done.
    + by intros val ->%list_elem_of_singleton.
    + intros val [Hval|Hval]%elem_of_app;
        [|by apply list_elem_of_singleton in Hval as ->].
      apply (Hdotted (if folder_flag then sub_destination ++ "/init.lua"
                      else sub_destination ++ ".lua")).
      destruct (Dict.get _ extract_depen_obj) as [values|] eqn:Hget;
        [by exists values|by apply elem_of_nil in Hval].
  - rewrite bind_unfold.
    destruct (second_segment_dot unique w Hunique) as [member ->].
    cbv iota zeta. rewrite bind_unfold.
    pose proof (parse_transmitting_dependency_within parent_folder depen_dic
                  dependencies_obj w) as Hparse.
    unfold within in Hparse |- *.
    destruct (parse_transmitting_dependency _ _ _ _ w) as [[return_obj|e|] w'];
      cbn [fst snd] in Hparse |- *; [|done..].
    destruct Hparse as [-> Hret]. within_done; [done|].
    apply dotted_merge; [done|]. apply dotted_set; [done|].
    by intros val ?%elem_of_nil.
Qed.

Lemma resolve_all_within fuel parent_folder dependencies_obj code_content
    dependencies_array w :
  within w dotted (λ e, e ≠ IndexError)
    (resolve_all list_set fuel parent_folder dependencies_obj code_content
       dependencies_array w).
Proof.
  unfold resolve_all. apply for_each_within; [apply dotted_nil|].
  intros extract_depen_obj entry _ Hdotted. cbv zeta. rewrite bind_unfold.
  unfold os_path_isdir. cbv iota. apply for_each_within; [done|].
  intros d unique Hunique Hd. apply (proj1 (elem_of_list_set _ _)) in Hunique.
  apply resolve_reference_within; [by eapply find_references_dot|done].
Qed.

Lemma combine_function_dot code_content combine_code func w :
  dot ∈ func →
  ∃ combine_code', combine_function code_content combine_code func w
                   = (Ok combine_code', w).
Proof.
  intros Hfunc. unfold combine_function. rewrite bind_unfold.
  assert (∃ temp_func,
            (if Py.contains "_utils" func
             then member ← second_segment func; mret ("utils." ++ member)
             else mret func) w = (Ok temp_func, w)) as [temp_func ->].
  { destruct (Py.contains _ _); [|by eexists].
    rewrite bind_unfold. destruct (second_segment_dot func w Hfunc) as [seg ->].
    by eexists. }
  cbv iota. destruct (extract_function_block _ _) as [[|x block]|]; by eexists.
Qed.

Lemma combine_functions_within extract_depen_obj w :
  dotted extract_depen_obj →
  within w (λ _, True) (λ e, e ≠ IndexError)
    (combine_functions extract_depen_obj w).
Proof.
  intros Hdotted. rewrite combine_functions_for_each.
  apply for_each_within; [done|].
  intros combine_code key Hkey _. unfold combine_key. rewrite bind_unfold.
  unfold os_path_exists. cbv iota. destruct (negb _); [by within_done|].
  rewrite bind_unfold. unfold read_lua_file.
  destruct (files w !! key) as [code_content|]; [|by destruct (decide _)].
  cbv iota zeta.
  apply (for_each_within (λ _, True) (λ e, e ≠ IndexError)); [done|].
  intros combine_code' func Hfunc _.
  destruct (combine_function_dot code_content combine_code' func w)
    as [combine_code'' Hok]; [|rewrite Hok; by within_done].
  apply (Hdotted key).
  destruct (Dict.get key extract_depen_obj) as [values|] eqn:Hget;
    [by exists values|by apply elem_of_nil in Hfunc].
Qed.

Lemma get_target_code_not_index_error json_loads fuel parent_folder sub_folder
    filename dependencies_file w :
  (get_target_code list_set json_loads fuel parent_folder sub_folder filename
     dependencies_file w).1 ≠ Raise IndexError.
Proof.
  unfold get_target_code. cbv zeta. rewrite bind_unfold.
  unfold read_lua_file at 1.
  destruct (files w !! dependencies_file); [|by destruct (decide _)].
  cbv iota. destruct (json_loads _) as [dependencies_obj|]; [|done].
  destruct (negb _); [done|]. rewrite bind_unfold.
  unfold read_lua_file at 1.
  destruct (files w !! _) as [code_content|] eqn:Hcode; [|by destruct (decide _)].
  cbv iota. rewrite bind_unfold.
  pose proof (resolve_all_within fuel parent_folder dependencies_obj code_content
                (default [] (Dict.get filename dependencies_obj)) w) as Hres.
  unfold within in Hres.
  destruct (resolve_all _ _ _ _ _ _ w) as [[extract_depen_obj|e|] w'];
    cbn [fst snd] in Hres; [|cbn [fst]; congruence..].
  destruct Hres as [-> Hdotted]. unfold generate_new_combine_lua.
  rewrite bind_unfold, (read_lua_file_Some _ _ _ Hcode). cbv iota.
  rewrite bind_unfold.
  pose proof (combine_functions_within extract_depen_obj w Hdotted) as Hcomb.
  unfold within in Hcomb.
  destruct (combine_functions extract_depen_obj w) as [[combine_code|e|] w'];
    cbn [fst snd] in Hcomb; [|cbn [fst]; congruence..].
  cbv iota zeta. unfold write_files. by destruct (decide _).
Qed.
End dotted.

(** X26.  The references that [get_target_code] works on are found in the
    code, so each has a dot, and taking the second dotted segment of one
    never fails: whatever the files and the index, the call does not raise
    [IndexError].  A call of [generate_new_combine_lua] with a map made by
    hand does raise it, and writes nothing, when the first function of the
    first file holds [_utils] and has no dot. *)
Theorem get_target_code_no_index_error (list_set : list str → list str)
    (json_loads : str → option index) :
  SetOrder list_set →
  (∀ fuel parent_folder sub_folder filename dependencies_file w,
     (get_target_code list_set json_loads fuel parent_folder sub_folder filename
        dependencies_file w).1 ≠ Raise IndexError)
  ∧ (∀ parent_folder sub_folder filename key func functions extract_depen_obj
       original_code code_content w,
       files w !! (parent_folder ++ "/" ++ sub_folder ++ "/" ++ filename)
       = Some original_code →
       files w !! key = Some code_content →
       Py.contains "_utils" func = true → dot ∉ func →
       generate_new_combine_lua parent_folder sub_folder filename
         ((key, func :: functions) :: extract_depen_obj) w
       = (Raise IndexError, w)).
Proof.
  intros Hset. split.
  - intros. by apply get_target_code_not_index_error.
  - intros parent_folder sub_folder filename key func functions extract_depen_obj
      original_code code_content w Horig Hkey Hutils Hdot.
    unfold generate_new_combine_lua. rewrite bind_unfold.
    rewrite (read_lua_file_Some _ _ _ Horig). cbv iota. rewrite bind_unfold.
    rewrite combine_functions_for_each.
    cbn [Dict.keys fmap list_fmap fst for_each]. rewrite bind_unfold.
    unfold combine_key at 1. rewrite bind_unfold. unfold os_path_exists.
    cbv iota. rewrite bool_decide_true by (left; by rewrite Hkey). cbn [negb].
    rewrite bind_unfold, (read_lua_file_Some _ _ _ Hkey). cbv iota zeta.
    cbn [Dict.get]. rewrite decide_True by done. cbn [default]. unfold id.
    cbn [for_each]. rewrite bind_unfold. unfold combine_function.
    rewrite bind_unfold, Hutils, bind_unfold. unfold second_segment.
    by rewrite split_no_sep.
Qed.

Lemma get_target_code_no_index_error_witness :
  (get_target_code remove_dups (json_table [single_index]) 2 "proj" "app"
     "main.lua" "proj/deps.json" single_world).1 ≠ Raise IndexError
  ∧ generate_new_combine_lua "proj" "app" "main.lua"
      [("proj/lib/http.lua" : str, [("str_utils" : str)])] single_world
    = (Raise IndexError, single_world).
Proof.
  destruct (get_target_code_no_index_error remove_dups (json_table [single_index]))
    as [Hnever Hraise]; [intros l; reflexivity|].
  split; [apply Hnever|].
  apply (Hraise "proj" "app" "main.lua" "proj/lib/http.lua" "str_utils" [] []
           single_code
           ("local http = {}" ++ [nl] ++ single_block ++ [nl]
            ++ "return http" ++ [nl]));
    [vm_compute; reflexivity..|].
  apply (bool_decide_unpack _). vm_compute. exact I.
Defined.
